(** * scripts/update_chn_ip_domain.py: the list-update script of mosdns

    A shallow embedding of [update_ip_list] and [update_chn_domain_list]
    together with the Python primitives they rely on ([str.find],
    [str.split], list indexing, [int], [math.log], float arithmetic) and
    the CIDR merge the IP list is passed through.

    Text is a sequence of characters with code points below 256
    ([string]); a response body is given already cut into lines
    ([res.text.splitlines()]).

    [update_all] and [go_build] of release.py follow, the latter over a
    machine that answers the commands it is asked to run. *)

From Stdlib Require Import ZArith Lia Bool SpecFloat String Ascii DecimalString.
From stdpp Require Import base tactics option list strings gmap sorting.

Open Scope Z_scope.

(** * The script and what it rests on *)

(** ** Python exceptions and results *)

Inductive exn : Type :=
| IndexError
| ValueError
| OverflowError
| ZeroDivisionError
| AddrFormatError
| Exception (status_code : Z).

Inductive result (A : Type) : Type :=
| Ok (a : A)
| Raise (e : exn).
Arguments Ok {A} a.
Arguments Raise {A} e.

Definition is_ok {A} (r : result A) : bool :=
  match r with Ok _ => true | Raise _ => false end.

Definition rbind {A B} (r : result A) (k : A → result B) : result B :=
  match r with Ok a => k a | Raise e => Raise e end.

(** ** Strings *)

Module Str.

(** [s.find(sub)]: index of the first occurrence, [-1] when there is none. *)
Fixpoint find_from (sub s : string) (i : Z) : Z :=
  if String.prefix sub s then i
  else match s with
       | EmptyString => -1
       | String _ s' => find_from sub s' (i + 1)
       end.

Definition find (s sub : string) : Z := find_from sub s 0.

(** [s.split(sep)] for a one-character separator. *)
Fixpoint split (sep : ascii) (s : string) : list string :=
  match s with
  | EmptyString => [EmptyString]
  | String c s' =>
      if Ascii.eqb c sep then EmptyString :: split sep s'
      else match split sep s' with
           | h :: t => String c h :: t
           | [] => [String c EmptyString]
           end
  end.

(** [elems[i]] *)
Definition index {A} (elems : list A) (i : nat) : result A :=
  match elems !! i with
  | Some x => Ok x
  | None => Raise IndexError
  end.

(** Characters [str.strip] and [str.rstrip] treat as white space. *)
Definition is_space (c : ascii) : bool :=
  let n := Z.of_N (N_of_ascii c) in
  ((9 <=? n) && (n <=? 13)) || ((28 <=? n) && (n <=? 32)) ||
  (n =? 133) || (n =? 160).

Fixpoint lstrip (s : string) : string :=
  match s with
  | String c s' => if is_space c then lstrip s' else s
  | EmptyString => EmptyString
  end.

Fixpoint rstrip (s : string) : string :=
  match s with
  | EmptyString => EmptyString
  | String c s' =>
      match rstrip s' with
      | EmptyString => if is_space c then EmptyString else String c EmptyString
      | r => String c r
      end
  end.

Definition strip (s : string) : string := rstrip (lstrip s).

Definition digit_of (c : ascii) : option Z :=
  let n := Z.of_N (N_of_ascii c) in
  if (48 <=? n) && (n <=? 57) then Some (n - 48) else None.

(** Decimal digits, single underscores allowed between two digits. *)
Fixpoint digits_value (acc : Z) (after_digit : bool) (s : string) : option Z :=
  match s with
  | EmptyString => if after_digit then Some acc else None
  | String c s' =>
      match digit_of c with
      | Some d => digits_value (10 * acc + d) true s'
      | None =>
          if Ascii.eqb c "_" && after_digit then digits_value acc false s'
          else None
      end
  end.

(** Characters [int] skips around the number: the white space of ASCII
    and, above 127, the characters [str.isspace] holds of.  The
    separators 28 to 31, which [str.strip] removes, are not among
    them. *)
Definition is_int_space (c : ascii) : bool :=
  let n := Z.of_N (N_of_ascii c) in
  ((9 <=? n) && (n <=? 13)) || (n =? 32) || (n =? 133) || (n =? 160).

Fixpoint int_lstrip (s : string) : string :=
  match s with
  | String c s' => if is_int_space c then int_lstrip s' else s
  | EmptyString => EmptyString
  end.

Fixpoint int_rstrip (s : string) : string :=
  match s with
  | EmptyString => EmptyString
  | String c s' =>
      match int_rstrip s' with
      | EmptyString =>
          if is_int_space c then EmptyString else String c EmptyString
      | r => String c r
      end
  end.

(** The interpreter's limit on the digits of a decimal text
    ([sys.get_int_max_str_digits()], 4300 unless changed, which the
    script does not do). *)
Definition int_max_str_digits : Z := 4300.

Fixpoint count_digits (s : string) : Z :=
  match s with
  | EmptyString => 0
  | String c s' =>
      match digit_of c with
      | Some _ => 1 + count_digits s'
      | None => count_digits s'
      end
  end.

(** [int(s)] in base ten: surrounding white space, an optional sign,
    digits; ValueError for anything else and for more digits than the
    limit. *)
Definition int (s : string) : result Z :=
  let text := int_rstrip (int_lstrip s) in
  let body :=
    match text with
    | String "-" r => option_map Z.opp (digits_value 0 false r)
    | String "+" r => digits_value 0 false r
    | r => digits_value 0 false r
    end in
  match body with
  | Some n =>
      if int_max_str_digits <? count_digits text then Raise ValueError
      else Ok n
  | None => Raise ValueError
  end.

(** [f'{n}'] for an integer. *)
Definition of_int (n : Z) : string := NilZero.string_of_int (Z.to_int n).

End Str.

(** ** Floats

    Python floats are IEEE 754 binary64 numbers; the arithmetic is the
    Standard Library's executable specification. *)

Module Float.

Definition prec : Z := 53.
Definition emax : Z := 1024.

Definition of_Z (n : Z) : spec_float := binary_normalize prec emax n 0 false.
Definition add : spec_float → spec_float → spec_float := SFadd prec emax.
Definition sub : spec_float → spec_float → spec_float := SFsub prec emax.
Definition mul : spec_float → spec_float → spec_float := SFmul prec emax.
Definition div : spec_float → spec_float → spec_float := SFdiv prec emax.

Definition is_zero (x : spec_float) : bool :=
  match x with S754_zero _ => true | _ => false end.

(** *** The C library's [log]

    Taken as the correctly rounded natural logarithm (round to nearest,
    ties to even).  The logarithm is computed in fixed point with
    [guard] fractional bits from
    [ln (m * 2^e) = (e + b) * ln 2 + 2 * atanh ((m - 2^b) / (m + 2^b))],
    [b = floor (log2 m)], and [atanh t = t + t^3/3 + t^5/5 + ...] with
    [0 <= t <= 1/3]; the result is then rounded to binary64. *)

Definition guard : Z := 128.
Definition atanh_terms : nat := 42.

Fixpoint atanh_series (n : nat) (k pw t2 : Z) : Z :=
  match n with
  | O => 0
  | S n' => pw / k + atanh_series n' (k + 2) (Z.shiftr (pw * t2) guard) t2
  end.

Definition atanh_fix (num den : Z) : Z :=
  let t := Z.shiftl num guard / den in
  atanh_series atanh_terms 1 t (Z.shiftr (t * t) guard).

Definition ln2_fix : Z := 2 * atanh_fix 1 3.

Definition ln_fix (m : positive) (e : Z) : Z :=
  let b := Z.log2 (Zpos m) in
  (e + b) * ln2_fix + 2 * atanh_fix (Zpos m - 2 ^ b) (Zpos m + 2 ^ b).

(** [log] of a float; [None] is the domain error of a non-positive
    argument. *)
Definition log (x : spec_float) : option spec_float :=
  match x with
  | S754_finite false m e =>
      Some (binary_normalize prec emax (ln_fix m e) (- guard) false)
  | S754_infinity false => Some x
  | S754_nan => Some x
  | _ => None
  end.

(** [int(x)]: truncation towards zero. *)
Definition to_int (x : spec_float) : result Z :=
  match x with
  | S754_zero _ => Ok 0
  | S754_finite s m e =>
      Ok (cond_Zopp s (if 0 <=? e then Zpos m * 2 ^ e else Zpos m / 2 ^ (- e)))
  | S754_infinity _ => Raise OverflowError
  | S754_nan => Raise ValueError
  end.

End Float.

Module Math.

(** [loghelper] of mathmodule.c on an [int] argument: the logarithm of
    the nearest float, or, when the integer is too large for a float,
    [log(x) + log(2.0) * e] with [arg ~ x * 2**e], [0.5 <= x < 1]. *)
Definition frexp (arg : Z) : spec_float * Z :=
  let e := Z.log2 arg + 1 in
  let x := binary_normalize Float.prec Float.emax arg (- e) false in
  match x with
  | S754_finite false 4503599627370496%positive (-52) =>
      (S754_finite false 4503599627370496%positive (-53), e + 1)
  | _ => (x, e)
  end.

Definition loghelper (arg : Z) : result spec_float :=
  if arg <=? 0 then Raise ValueError
  else
    let x := Float.of_Z arg in
    match x with
    | S754_infinity _ =>
        let '(x', e) := frexp arg in
        match Float.log x', Float.log (Float.of_Z 2) with
        | Some lx, Some l2 => Ok (Float.add lx (Float.mul l2 (Float.of_Z e)))
        | _, _ => Raise ValueError
        end
    | _ => match Float.log x with
           | Some lx => Ok lx
           | None => Raise ValueError
           end
    end.

(** [math.log(x, base)] on two integers. *)
Definition log (x base : Z) : result spec_float :=
  rbind (loghelper x) (λ num,
  rbind (loghelper base) (λ den,
  if Float.is_zero den then Raise ZeroDivisionError
  else Ok (Float.div num den))).

End Math.

(** [int(32 - math.log(count, 2))], line 31 of the script. *)
Definition cidr_prefix_length (count : Z) : result Z :=
  rbind (Math.log count 2) (λ x, Float.to_int (Float.sub (Float.of_Z 32) x)).

(** ** Networks *)

(** Modelled from the spec: the IPNetwork of the data model, a base
    address and a prefix length in one of the two address families, the
    family fixing the bit width (netaddr's class of that name is not
    part of the repository). *)
Inductive ip_version : Type := IPv4 | IPv6.

Global Instance ip_version_eq_dec : EqDecision ip_version.
Proof. solve_decision. Defined.

Definition width (v : ip_version) : Z :=
  match v with IPv4 => 32 | IPv6 => 128 end.

Definition version_number (v : ip_version) : Z :=
  match v with IPv4 => 4 | IPv6 => 6 end.

Record IPNetwork : Type := mkNet {
  version : ip_version;
  base : Z;
  prefixlen : Z
}.

Global Instance IPNetwork_eq_dec : EqDecision IPNetwork.
Proof. solve_decision. Defined.

Definition host_bits (n : IPNetwork) : Z := width (version n) - prefixlen n.
Definition size (n : IPNetwork) : Z := 2 ^ host_bits n.
Definition first (n : IPNetwork) : Z := base n.
Definition last (n : IPNetwork) : Z := base n + size n - 1.

(** The canonical form of the data model: the prefix length fits the
    family, the address fits the width, all bits beyond the prefix
    length are cleared. *)
Definition canonical (n : IPNetwork) : Prop :=
  0 ≤ prefixlen n ≤ width (version n) ∧
  0 ≤ base n < 2 ^ width (version n) ∧
  Z.land (base n) (size n - 1) = 0.

Global Instance canonical_dec n : Decision (canonical n).
Proof. unfold canonical. apply _. Defined.

(** ** The merge *)

(** Modelled from the spec: [netaddr.cidr_merge], a function of the
    netaddr package, is not part of the repository; the definitions of
    this module follow the three steps of the spec's merge algorithm
    (sort, discard contained networks, merge siblings to a fixed point).
    Networks of the two families are kept apart, IPv4 first. *)
Module Merge.

(** Step 1: by family, then base address, then prefix length, shorter
    first. *)
Definition net_le (a b : IPNetwork) : Prop :=
  version_number (version a) < version_number (version b) ∨
  (version a = version b ∧
   (base a < base b ∨ (base a = base b ∧ prefixlen a ≤ prefixlen b))).

Global Instance net_le_dec a b : Decision (net_le a b).
Proof. unfold net_le. apply _. Defined.

Definition sort : list IPNetwork → list IPNetwork := merge_sort net_le.

(** [b] is fully contained within [a]. *)
Definition contains (a b : IPNetwork) : bool :=
  bool_decide (version a = version b) &&
  (first a <=? first b) && (last b <=? last a).

(** Step 2: walk the sorted list, keep a network unless an accepted one
    contains it. *)
Fixpoint discard_contained (accepted remaining : list IPNetwork)
  : list IPNetwork :=
  match remaining with
  | [] => accepted
  | n :: rest =>
      if existsb (λ a, contains a n) accepted
      then discard_contained accepted rest
      else discard_contained (accepted ++ [n]) rest
  end.

(** Two networks of one prefix length [P] whose bases differ only in
    bit [P-1] (counted from the most significant bit). *)
Definition siblings (a b : IPNetwork) : bool :=
  bool_decide (version a = version b) &&
  (prefixlen a =? prefixlen b) && (0 <? prefixlen a) &&
  (Z.lxor (base a) (base b) =? 2 ^ host_bits a).

(** The block of prefix length [P-1] a network of prefix length [P] is
    one half of. *)
Definition parent (a : IPNetwork) : IPNetwork :=
  {| version := version a;
     base := Z.clearbit (base a) (host_bits a);
     prefixlen := prefixlen a - 1 |}.

(** Step 3: replace the first pair of neighbouring siblings by their
    parent; repeat while a pair is found. *)
Fixpoint merge_once (l : list IPNetwork) : option (list IPNetwork) :=
  match l with
  | a :: (b :: rest) as tl =>
      if siblings a b then Some (parent a :: rest)
      else cons a <$> merge_once tl
  | _ => None
  end.

Fixpoint merge_loop (fuel : nat) (l : list IPNetwork) : list IPNetwork :=
  match fuel with
  | O => l
  | S fuel' =>
      match merge_once l with
      | Some l' => merge_loop fuel' l'
      | None => l
      end
  end.

Definition merge_siblings (l : list IPNetwork) : list IPNetwork :=
  merge_loop (length l) l.

(** Modelled from the spec: the merge algorithm, steps 1 to 3, standing
    for [netaddr.cidr_merge]. *)
Definition cidr_merge (l : list IPNetwork) : list IPNetwork :=
  merge_siblings (discard_contained [] (sort l)).

End Merge.

(** ** The invariant of the merge

    [sep a b]: every address of [a] lies before every address of [b]
    (networks of the IPv4 family before those of the IPv6 family). *)

Import Merge.

Definition sep (a b : IPNetwork) : Prop :=
  version_number (version a) < version_number (version b) ∨
  (version a = version b ∧ last a < first b).

Definition separated (l : list IPNetwork) : Prop :=
  StronglySorted sep l ∧ Forall canonical l.

(** ** The addresses of a list

    The merge gives an equivalent list: it covers the addresses its
    input covers, no more and no fewer. *)

Definition covers (n : IPNetwork) (v : ip_version) (x : Z) : Prop :=
  version n = v ∧ first n ≤ x ≤ last n.

Definition covered (l : list IPNetwork) (v : ip_version) (x : Z) : Prop :=
  ∃ n, n ∈ l ∧ covers n v x.

(** Ascending address order: IPv4 before IPv6, and within a family by
    base address. *)
Definition addr_lt (a b : IPNetwork) : Prop :=
  version_number (version a) < version_number (version b) ∨
  (version a = version b ∧ base a < base b).

(** ** The world of the script

    What the script sees of the network is the response to a GET of a
    URL; what it leaves behind are log records and files. *)

Record response : Type := {
  status_code : Z;
  text_lines : list string      (* res.text.splitlines() *)
}.

Inductive log_entry : Type :=
| Info (msg : string)
| Warning (msg : string).

Record world : Type := {
  log : list log_entry;
  files : gmap string (list string)
}.

(** A computation runs in a frame of local state [L] and the world; an
    exception leaves the state as it was when it was raised. *)
Definition M (L A : Type) : Type := L * world → result A * (L * world).

Section monad.
Context {L : Type}.

Definition ret {A} (a : A) : M L A := λ s, (Ok a, s).

Definition bind {A B} (c : M L A) (k : A → M L B) : M L B :=
  λ s, match c s with
       | (Ok a, s') => k a s'
       | (Raise e, s') => (Raise e, s')
       end.

Definition raise {A} (e : exn) : M L A := λ s, (Raise e, s).

Definition lift {A} (r : result A) : M L A := λ s, (r, s).

Definition get_local : M L L := λ s, (Ok (fst s), s).

Definition set_local (l : L) : M L unit := λ s, (Ok tt, (l, snd s)).

Definition emit (e : log_entry) : M L unit :=
  λ s, (Ok tt, (fst s, {| log := log (snd s) ++ [e]; files := files (snd s) |})).

Definition log_info (msg : string) : M L unit := emit (Info msg).
Definition log_warning (msg : string) : M L unit := emit (Warning msg).

(** [with open(path, 'wt') as f: f.writelines(lines)] *)
Definition write_lines (path : string) (lines : list string) : M L unit :=
  λ s, (Ok tt, (fst s, {| log := log (snd s);
                          files := <[path := lines]> (files (snd s)) |})).

(** [try: body except IndexError: handler] *)
Definition try_except_IndexError (body handler : M L unit) : M L unit :=
  λ s, match body s with
       | (Raise IndexError, s') => handler s'
       | r => r
       end.

End monad.

Global Instance M_ret {L} : MRet (M L) := @ret L.
Global Instance M_bind {L} : MBind (M L) := λ A B k c, bind c k.

(** [for x in xs: body] *)
Fixpoint for_each {L A} (xs : list A) (body : A → M L unit) : M L unit :=
  match xs with
  | [] => ret tt
  | x :: xs' => body x;; for_each xs' body
  end.

(** A call: the callee runs in a frame of its own. *)
Definition call {L L' A} (init : L') (c : M L' A) : M L A :=
  λ s, let '(r, (_, w)) := c (init, snd s) in (r, (fst s, w)).

(** A top-level function, from the world to the world. *)
Definition run {L A} (init : L) (c : M L A) (w : world) : result A * world :=
  let '(r, (_, w')) := c (init, w) in (r, w').

Definition nl : string := String (ascii_of_nat 10) EmptyString.

(** ** update_ip_list *)

Section update_ip_list.

(** [netaddr.IPNetwork(s)], the network a text denotes ([None]: the
    package's AddrFormatError), and [str(x)] of a network: the netaddr
    package is not part of the repository. *)
Variable netaddr_IPNetwork : string → option IPNetwork.
Variable IPNetwork_str : IPNetwork → string.

(** [requests.get(url, timeout=timeout)] *)
Variable requests_get : string → response.

Definition url : string :=
  "https://ftp.apnic.net/apnic/stats/apnic/delegated-apnic-latest".
Definition save_to_file : string := "./chn_ip.list".

Definition new_IPNetwork (s : string) : result IPNetwork :=
  match netaddr_IPNetwork s with
  | Some n => Ok n
  | None => Raise AddrFormatError
  end.

Definition relevant_ipv4 (line : string) : bool :=
  bool_decide (Str.find line "|CN|ipv4|" ≠ -1).
Definition relevant_ipv6 (line : string) : bool :=
  bool_decide (Str.find line "|CN|ipv6|" ≠ -1).

(** Lines 28 to 32: the network of an IPv4 record. *)
Definition ipv4_network (line : string) : result IPNetwork :=
  let elems := Str.split "|" line in
  rbind (Str.index elems 3) (λ ip_start,
  rbind (Str.index elems 4) (λ value,
  rbind (Str.int value) (λ count,
  rbind (cidr_prefix_length count) (λ cidr_prefix_length,
  new_IPNetwork
    (ip_start +:+ "/" +:+ Str.of_int cidr_prefix_length +:+ nl))))).

(** Lines 35 to 38: the network of an IPv6 record. *)
Definition ipv6_network (line : string) : result IPNetwork :=
  let elems := Str.split "|" line in
  rbind (Str.index elems 3) (λ ip_start,
  rbind (Str.index elems 4) (λ cidr_prefix_length,
  new_IPNetwork (ip_start +:+ "/" +:+ cidr_prefix_length +:+ nl))).

Definition append {A} (x : A) : M (list A) unit :=
  l ← get_local; set_local (l ++ [x]).

(** The body of the [try] of lines 26 to 38. *)
Definition parse_line (line : string) : M (list IPNetwork) unit :=
  (if relevant_ipv4 line
   then n ← lift (ipv4_network line); append n
   else ret tt);;
  (if relevant_ipv6 line
   then n ← lift (ipv6_network line); append n
   else ret tt).

Definition parse_lines (lines : list string) : M (list IPNetwork) unit :=
  for_each lines (λ line,
    try_except_IndexError (parse_line line)
      (log_warning ("unexpected format: " +:+ line))).

Definition update_ip_list_body : M (list IPNetwork) unit :=
  log_info ("fetching chn ip data from " +:+ url);;
  let res := requests_get url in
  if bool_decide (status_code res ≠ 200)
  then raise (Exception (status_code res))
  else
    log_info "parsing...";;
    parse_lines (text_lines res);;
    log_info "merging";;
    ipNetwork_list ← get_local;
    set_local (cidr_merge ipNetwork_list);;
    log_info "writing to file";;
    ipNetwork_list ← get_local;
    write_lines save_to_file
      (map (λ x, IPNetwork_str x +:+ nl) ipNetwork_list);;
    log_info "all done".

Definition update_ip_list : world → result unit * world :=
  run [] update_ip_list_body.

End update_ip_list.

(** ** update_chn_domain_list *)

Section update_chn_domain_list.

Variable requests_get : string → response.

Definition accelerated_domains_url : string :=
  "https://raw.githubusercontent.com/felixonmars/dnsmasq-china-list/master/accelerated-domains.china.conf".
Definition google_url : string :=
  "https://raw.githubusercontent.com/felixonmars/dnsmasq-china-list/master/google.china.conf".
Definition apple_url : string :=
  "https://raw.githubusercontent.com/felixonmars/dnsmasq-china-list/master/apple.china.conf".

Definition urls : list string :=
  [accelerated_domains_url; google_url; apple_url].

Definition save_to : string := "./chn_domain.list".

Definition has_marker (line : string) : bool :=
  bool_decide (Str.find line "server=/" ≠ -1).

(** The body of the [try] of lines 65 to 68. *)
Definition extract_line (line : string) : M (list string) unit :=
  if has_marker line
  then
    let elems := Str.split "/" line in
    domain ← lift (Str.index elems 1);
    append domain
  else ret tt.

Definition extract_lines (lines : list string) : M (list string) unit :=
  for_each lines (λ line,
    try_except_IndexError (extract_line line)
      (log_warning ("unexpected format: " +:+ line))).

(** The local list [domains] is the frame of the function. *)
Definition get_domains_from (url : string) : M (list string) (list string) :=
  log_info ("fetching " +:+ url);;
  let res := requests_get url in
  if bool_decide (status_code res ≠ 200)
  then raise (Exception (status_code res))
  else
    extract_lines (text_lines res);;
    get_local.

Definition update_chn_domain_list_body : M (list string) unit :=
  for_each urls (λ url,
    domains ← get_local;
    fetched ← call [] (get_domains_from url);
    set_local (domains ++ fetched));;
  domains ← get_local;
  write_lines save_to (map (λ x, x +:+ nl) domains);;
  log_info "all done".

Definition update_chn_domain_list : world → result unit * world :=
  run [] update_chn_domain_list_body.

End update_chn_domain_list.

(** ** The domain list, described *)

(** What the script collects: from a line with the marker it takes the
    second of the fields between slashes ([elems[1]]);
    [collected_domains] is these fields for the lines with the marker,
    in the order of the lines, nothing removed. *)
Definition collected_domain (line : string) : string :=
  default EmptyString (Str.split "/" line !! 1%nat).

Definition collected_domains (lines : list string) : list string :=
  map collected_domain (List.filter has_marker lines).

(** ** The domain list in the words of the spec

    A line matches [server=/<domain>/...] where it holds the marker
    [server=/]; its domain is what stands between the first marker and
    the next slash, or the end of the line.  [domains_spec] is the
    domains of the lines that match, in the order of the lines, nothing
    removed. *)
Definition marker : string := "server=/".

Fixpoint drop_chars (n : nat) (s : string) : string :=
  match n, s with
  | S n', String _ s' => drop_chars n' s'
  | _, _ => s
  end.

Fixpoint after_marker (line : string) : option string :=
  if String.prefix marker line
  then Some (drop_chars (String.length marker) line)
  else match line with
       | EmptyString => None
       | String _ rest => after_marker rest
       end.

Fixpoint until_char (c : ascii) (s : string) : string :=
  match s with
  | EmptyString => EmptyString
  | String a s' => if Ascii.eqb a c then EmptyString
                   else String a (until_char c s')
  end.

Definition spec_domain (line : string) : option string :=
  option_map (until_char "/") (after_marker line).

Definition domains_spec (lines : list string) : list string :=
  omap spec_domain lines.

(** The line holds the marker, and a slash stands before the first
    one. *)
Fixpoint slash_before_marker (line : string) : bool :=
  if String.prefix marker line then false
  else match line with
       | EmptyString => false
       | String c rest =>
           (Ascii.eqb c "/" && bool_decide (is_Some (after_marker rest)))
           || slash_before_marker rest
       end.

(** ** The loop and the run, described

    What the loop of [update_ip_list] and the run leave behind, as plain
    functions; the lemmas below relate them to the script. *)

Section descriptions.
Variable netaddr_IPNetwork : string → option IPNetwork.
Variable IPNetwork_str : IPNetwork → string.

Definition warn (line : string) (w : world) : world :=
  {| log := log w ++ [Warning ("unexpected format: " +:+ line)];
     files := files w |}.

Definition say (e : log_entry) (w : world) : world :=
  {| log := log w ++ [e]; files := files w |}.

Definition fetching : log_entry :=
  Info ("fetching chn ip data from " +:+ url).

(** The world after the list is written. *)
Definition written (nets : list IPNetwork) (w : world) : world :=
  say (Info "all done")
    {| log := log (say (Info "writing to file" ) (say (Info "merging") w));
       files := <[save_to_file :=
                    map (λ x, IPNetwork_str x +:+ nl) (cidr_merge nets)]>
                  (files w) |}.

(** What one line adds to the list: the networks of its records, nothing
    when an IndexError ends the [try], or the exception that leaves the
    loop. *)
Definition line_result (line : string) : result (list IPNetwork) :=
  let r4 := if relevant_ipv4 line
            then rbind (ipv4_network netaddr_IPNetwork line) (λ n, Ok [n])
            else Ok [] in
  match r4 with
  | Raise IndexError => Ok []
  | Raise e => Raise e
  | Ok ns4 =>
      let r6 := if relevant_ipv6 line
                then rbind (ipv6_network netaddr_IPNetwork line) (λ n, Ok [n])
                else Ok [] in
      match r6 with
      | Raise IndexError => Ok ns4
      | Raise e => Raise e
      | Ok ns6 => Ok (ns4 ++ ns6)
      end
  end.

Fixpoint lines_result (lines : list string) : result (list IPNetwork) :=
  match lines with
  | [] => Ok []
  | line :: rest =>
      rbind (line_result line) (λ ns,
      rbind (lines_result rest) (λ ms, Ok (ns ++ ms)))
  end.

(** The outcome of the loop up to the order of the parsed networks. *)
Definition same_parse (r r' : result (list IPNetwork)) : Prop :=
  match r, r' with
  | Ok ns, Ok ns' => ns ≡ₚ ns'
  | Raise _, Raise _ => True
  | _, _ => False
  end.

End descriptions.

(** ** Records of the feed *)

(** [line] is a relevant IPv4 record with start address [ip_start] and
    unit count [count]. *)
Definition ipv4_record (line ip_start : string) (count : Z) : Prop :=
  relevant_ipv4 line = true ∧ relevant_ipv6 line = false ∧
  Str.split "|" line !! 3%nat = Some ip_start ∧
  ∃ value, Str.split "|" line !! 4%nat = Some value ∧ Str.int value = Ok count.

(** ** A reader and a printer for dotted quads

    netaddr itself is not modelled.  To run the script on concrete
    feeds, [Dotted.network] reads the notation [a.b.c.d/n] of an IPv4
    network (clearing the bits beyond the prefix), and [Dotted.str]
    prints it; [Dotted.network] knows no other notation. *)

Module Dotted.

Fixpoint decimal (acc : Z) (s : string) : option Z :=
  match s with
  | EmptyString => Some acc
  | String c s' =>
      match Str.digit_of c with
      | Some d => decimal (10 * acc + d) s'
      | None => None
      end
  end.

Definition octet (s : string) : option Z :=
  match s with
  | EmptyString => None
  | _ => match decimal 0 s with
         | Some n => if n <=? 255 then Some n else None
         | None => None
         end
  end.

Definition address (s : string) : option Z :=
  match Str.split "." s with
  | [a; b; c; d] =>
      match octet a, octet b, octet c, octet d with
      | Some a, Some b, Some c, Some d =>
          Some (((a * 256 + b) * 256 + c) * 256 + d)
      | _, _, _, _ => None
      end
  | _ => None
  end.

Definition network (s : string) : option IPNetwork :=
  match Str.split "/" s with
  | [addr; p] =>
      match address addr, Str.int p with
      | Some a, Ok n =>
          if (0 <=? n) && (n <=? 32)
          then Some (mkNet IPv4 (Z.shiftl (Z.shiftr a (32 - n)) (32 - n)) n)
          else None
      | _, _ => None
      end
  | _ => None
  end.

Definition str (x : IPNetwork) : string :=
  let b := base x in
  Str.of_int (b / 2 ^ 24) +:+ "." +:+
  Str.of_int (b / 2 ^ 16 mod 256) +:+ "." +:+
  Str.of_int (b / 2 ^ 8 mod 256) +:+ "." +:+
  Str.of_int (b mod 256) +:+ "/" +:+ Str.of_int (prefixlen x).

End Dotted.

Definition empty_world : world := {| log := []; files := ∅ |}.

(** A feed: every URL answers with the same status and lines. *)
Definition serve (status : Z) (lines : list string) : string → response :=
  λ _, {| status_code := status; text_lines := lines |}.

(** ** Feeds and lists to run the script on *)

Definition record_192 : string :=
  "apnic|CN|ipv4|1.0.0.0|192|20110414|allocated".
Definition record_1_0_0_0 : string :=
  "apnic|CN|ipv4|1.0.0.0|256|20110414|allocated".
Definition record_1_0_1_0 : string :=
  "apnic|CN|ipv4|1.0.1.0|256|20110414|allocated".
Definition record_abc : string :=
  "apnic|CN|ipv4|1.0.0.0|abc|20110414|allocated".

Definition net_1_0_0_0_24 : IPNetwork := mkNet IPv4 16777216 24.
Definition net_1_0_1_0_24 : IPNetwork := mkNet IPv4 16777472 24.
Definition net_1_0_0_0_23 : IPNetwork := mkNet IPv4 16777216 23.

Definition example_nets : list IPNetwork :=
  [mkNet IPv4 16777984 24; mkNet IPv6 0 127; mkNet IPv4 16777472 24;
   mkNet IPv4 16777216 24; mkNet IPv4 16777728 24; mkNet IPv4 16777856 25;
   mkNet IPv6 2 127; mkNet IPv4 16778240 24; mkNet IPv4 16777216 24].

Definition domain_feeds (u : string) : response :=
  if decide (u = accelerated_domains_url)
  then {| status_code := 200;
          text_lines := ["server=/example.cn/114.114.114.114";
                         "# a comment";
                         "server=/qq.com/114.114.114.114"] |}
  else if decide (u = google_url)
  then {| status_code := 200;
          text_lines := ["server=/google.cn/114.114.114.114";
                         "server=/example.cn/114.114.114.114"] |}
  else {| status_code := 200;
          text_lines := ["server=/apple.com/114.114.114.114"] |}.

(** Feeds whose one line has a slash before the marker. *)
Definition slashed_line : string := "http://x server=/qq.com/1.1.1.1".

Definition slashed_feeds (u : string) : response :=
  {| status_code := 200; text_lines := [slashed_line] |}.

(** * The rest of the script *)

(** ** Texts and their lines *)

Module Text.

(** The characters [str.splitlines] ends a line at, among the code
    points below 256. *)
Definition is_linebreak (c : ascii) : bool :=
  let n := Z.of_N (N_of_ascii c) in
  ((10 <=? n) && (n <=? 13)) || ((28 <=? n) && (n <=? 30)) || (n =? 133).

Definition is_cr (c : ascii) : bool := Z.of_N (N_of_ascii c) =? 13.
Definition is_lf (c : ascii) : bool := Z.of_N (N_of_ascii c) =? 10.

(** [s.splitlines()]: the lines without their ends; a carriage return
    and the line feed after it end one line; no empty line is added
    after the last line end. *)
Fixpoint lines_from (after_cr : bool) (s : string) : list string :=
  match s with
  | EmptyString => []
  | String c s' =>
      if after_cr && is_lf c then lines_from false s'
      else if is_linebreak c then EmptyString :: lines_from (is_cr c) s'
      else match lines_from false s' with
           | h :: rest => String c h :: rest
           | [] => [String c EmptyString]
           end
  end.

Definition splitlines (s : string) : list string := lines_from false s.

(** [sep.join(fields)] for a one-character separator. *)
Fixpoint join (sep : ascii) (fields : list string) : string :=
  match fields with
  | [] => EmptyString
  | [x] => x
  | x :: rest => x +:+ String sep (join sep rest)
  end.

End Text.

(** ** Responses with their text *)

(** A response as [requests] hands it over: the status and the body;
    [lines_of] is what the two list functions see of it. *)
Record http_response : Type := {
  http_status : Z;
  http_text : string
}.

Definition lines_of (res : http_response) : response :=
  {| status_code := http_status res;
     text_lines := Text.splitlines (http_text res) |}.

(** ** download_chn_blocked_domain_list and update_all *)

Section update_all.

Variable netaddr_IPNetwork : string → option IPNetwork.
Variable IPNetwork_str : IPNetwork → string.

(** [requests.get(url, timeout=timeout)] *)
Variable requests_get : string → http_response.

Definition blocked_url : string :=
  "https://github.com/Loyalsoldier/cn-blocked-domain/raw/release/domains.txt".
Definition blocked_save_to_file : string := "./non_chn_domain.list".

(** [with open(path, 'wt') as f: f.write(text)] *)
Definition write_text {L} (path text : string) : M L unit :=
  write_lines path [text].

Definition download_chn_blocked_domain_list_body : M unit unit :=
  log_info ("fetching chn blocked domain from " +:+ blocked_url);;
  let res := requests_get blocked_url in
  if bool_decide (http_status res ≠ 200)
  then raise (Exception (http_status res))
  else write_text blocked_save_to_file (http_text res).

Definition download_chn_blocked_domain_list : world → result unit * world :=
  run tt download_chn_blocked_domain_list_body.

(** A call of a function of the module, from a frame that passes
    nothing in. *)
Definition proc {L A} (f : world → result A * world) : M L A :=
  λ s, let '(r, w) := f (snd s) in (r, (fst s, w)).

Definition update_all : world → result unit * world :=
  run tt (
    proc (update_chn_domain_list (λ u, lines_of (requests_get u)));;
    proc download_chn_blocked_domain_list;;
    proc (update_ip_list netaddr_IPNetwork IPNetwork_str
            (λ u, lines_of (requests_get u)))).

End update_all.

(** ** Lines of the delegation feed *)

(** A line one of the two blocks of the loop looks at. *)
Definition relevant (line : string) : bool :=
  relevant_ipv4 line || relevant_ipv6 line.

(** A relevant line without a fifth field. *)
Definition skipped (line : string) : bool :=
  relevant line && bool_decide (length (Str.split "|" line) < 5)%nat.

(** A record of the feed in its standard form,
    [registry|cc|type|start|value|date|status]. *)
Definition delegation_record
    (registry cc type start value date status : string) : string :=
  Text.join "|" [registry; cc; type; start; value; date; status].

Definition unexpected_format (line : string) : log_entry :=
  Warning ("unexpected format: " +:+ line).

(** ** A web to run update_all on *)

Definition example_web (u : string) : http_response :=
  if decide (u = url)
  then {| http_status := 200;
          http_text := record_1_0_0_0 +:+ nl +:+ record_1_0_1_0 +:+ nl |}
  else if decide (u = blocked_url)
  then {| http_status := 200;
          http_text := "google.com" +:+ nl +:+ "facebook.com" +:+ nl |}
  else {| http_status := 200;
          http_text := "server=/qq.com/114.114.114.114" +:+ nl |}.

(** The same web with one URL answering another status. *)
Definition failing_at (u0 : string) (code : Z) (web : string → http_response)
  : string → http_response :=
  λ u, if decide (u = u0)
       then {| http_status := code; http_text := http_text (web u) |}
       else web u.

(** The example web with a delegation feed whose second record has a
    count that is not a number. *)
Definition bad_count_web (u : string) : http_response :=
  if decide (u = url)
  then {| http_status := 200;
          http_text := record_1_0_0_0 +:+ nl +:+ record_abc +:+ nl |}
  else example_web u.

(** * release.py: go_build *)

Module Release.

(** What a [subprocess] call can end with instead of returning: the
    command's non-zero exit, or an error of the call itself. *)
Inductive proc_error : Type :=
| CalledProcessError (returncode : Z)
| OSError.

(** The exceptions that leave [go_build]. *)
Inductive exn : Type :=
| IndexError
| KeyError (key : string)
| ProcError (e : proc_error).

Inductive outcome (A : Type) : Type :=
| Done (a : A)
| Raised (e : exn).
Arguments Done {A} a.
Arguments Raised {A} e.

(** The records of the logger; the records made from an exception keep
    the exception in place of the text Python makes of it. *)
Inductive entry : Type :=
| Info (msg : string)
| GitTagFailed (returncode : Z)       (* error: get git tag failed *)
| ConfigFailed (e : proc_error)       (* exception: failed to generate config template *)
| UpxFailed (returncode : Z)          (* error: upx failed *)
| BuildFailed (zip_filename : string) (returncode : Z)
                                      (* error: build ... failed *)
| UnknownErr (e : proc_error).        (* exception: unknown err *)

(** The arguments of the command line: [-upx] and [-i]. *)
Record args : Type := {
  upx : bool;
  i : option Z
}.

Definition PROJECT_NAME : string := "mosdns".

Definition envs : list (list (string * string)) :=
  [[("GOOS", "darwin"); ("GOARCH", "amd64")];
   [("GOOS", "darwin"); ("GOARCH", "arm64")];
   [("GOOS", "linux"); ("GOARCH", "amd64")];
   [("GOOS", "linux"); ("GOARCH", "arm"); ("GOARM", "5")];
   [("GOOS", "linux"); ("GOARCH", "arm"); ("GOARM", "6")];
   [("GOOS", "linux"); ("GOARCH", "arm"); ("GOARM", "7")];
   [("GOOS", "linux"); ("GOARCH", "arm64")];
   [("GOOS", "linux"); ("GOARCH", "mipsle"); ("GOMIPS", "softfloat")];
   [("GOOS", "linux"); ("GOARCH", "mips64"); ("GOMIPS64", "hardfloat")];
   [("GOOS", "freebsd"); ("GOARCH", "amd64")];
   [("GOOS", "windows"); ("GOARCH", "amd64")]].

(** [l[i]] with Python's indices: a negative one counts from the end;
    [None] is IndexError. *)
Definition py_index {A} (l : list A) (i : Z) : option A :=
  if 0 <=? i then l !! Z.to_nat i
  else if - Z.of_nat (length l) <=? i
       then l !! Z.to_nat (Z.of_nat (length l) + i)
       else None.

(** Lines 53 and 54: [if args.i: envs = [envs[args.i]]]; neither
    [None] nor [0] is true. *)
Definition selected_envs (a : args) (envs : list (list (string * string)))
  : outcome (list (list (string * string))) :=
  match i a with
  | None => Done envs
  | Some z =>
      if z =? 0 then Done envs
      else match py_index envs z with
           | Some env => Done [env]
           | None => Raised IndexError
           end
  end.

(** Lines 69 to 78: the environment, the archive name and the binary
    name of a target. *)
Definition os_env_of (environ : gmap string string)
    (env : list (string * string)) : gmap string string :=
  foldl (λ m pairs, <[pairs.1 := pairs.2]> m) environ env.

Definition zip_filename_of (env : list (string * string)) : string :=
  foldl (λ s pairs, s +:+ "-" +:+ pairs.2) PROJECT_NAME env +:+ ".zip".

Definition suffix_of (goos : string) : string :=
  if String.eqb goos "windows" then ".exe" else "".

Definition bin_filename_of (goos : string) : string :=
  PROJECT_NAME +:+ suffix_of goos.

Definition dquote : string := String (ascii_of_nat 34) EmptyString.

Definition git_describe : string := "git describe --tags --long --always".
Definition gen_config : string := "go run ../ -gen config.yaml".
Definition go_build_cmd (VERSION bin_filename : string) : string :=
  "go build -ldflags " +:+ dquote +:+ "-s -w -X main.version=" +:+ VERSION
  +:+ dquote +:+ " -trimpath -o " +:+ bin_filename +:+ " ../".
Definition upx_cmd (bin_filename : string) : string :=
  "upx -9 -q " +:+ bin_filename.

(** The members of an archive: the file each is read from and the name
    it has in the archive. *)
Definition members (goos bin_filename : string) : list (string * string) :=
  [(bin_filename, bin_filename);
   ("../README.md", "README.md");
   ("./config.yaml", "config.yaml");
   ("../LICENSE", "LICENSE")] ++
  (if String.eqb goos "windows"
   then [("../scripts/windows/service_control.bat", "service_control.bat")]
   else []).

(** What an archive is left with when [ok] tells the files that can be
    read: the names of the members before the first that cannot. *)
Fixpoint written (ok : string → bool) (files : list (string * string))
  : list string :=
  match files with
  | [] => []
  | (path, arcname) :: rest =>
      if ok path then arcname :: written ok rest else []
  end.

Section go_build.

(** The machine the script runs on: [check_call] runs a command in an
    environment and says how it ended, [check_output] gives the
    command's output as text as well; the machine is another one
    afterwards.  [readable] says whether a file can be read for an
    archive as the machine stands.  Making the archive file itself is
    taken not to fail. *)
Variable shell : Type.
Variable check_call :
  string → gmap string string → shell → option proc_error * shell.
Variable check_output : string → shell → (string + proc_error) * shell.
Variable readable : string → shell → bool.

Record state : Type := {
  log : list entry;
  calls : list string;                     (* the commands run, in order *)
  archives : gmap string (list string);    (* the archives written *)
  sh : shell
}.

Definition R (A : Type) : Type := state → outcome A * state.

Definition ret {A} (a : A) : R A := λ s, (Done a, s).
Definition bind {A B} (c : R A) (k : A → R B) : R B :=
  λ s, match c s with
       | (Done a, s') => k a s'
       | (Raised e, s') => (Raised e, s')
       end.
Definition raise {A} (e : exn) : R A := λ s, (Raised e, s).
Definition lift {A} (o : outcome A) : R A := λ s, (o, s).

Definition say (e : entry) : R unit :=
  λ s, (Done tt, {| log := log s ++ [e]; calls := calls s;
                    archives := archives s; sh := sh s |}).

Definition call (cmd : string) (env : gmap string string)
  : R (option proc_error) :=
  λ s, let '(r, sh') := check_call cmd env (sh s) in
       (Done r, {| log := log s; calls := calls s ++ [cmd];
                   archives := archives s; sh := sh' |}).

Definition call_output (cmd : string) : R (string + proc_error) :=
  λ s, let '(r, sh') := check_output cmd (sh s) in
       (Done r, {| log := log s; calls := calls s ++ [cmd];
                   archives := archives s; sh := sh' |}).

(** Line 93: the archive is made anew, with nothing in it. *)
Definition zip_open (zip_filename : string) : R unit :=
  λ s, (Done tt, {| log := log s; calls := calls s;
                    archives := <[zip_filename := []]> (archives s);
                    sh := sh s |}).

(** [zf.write(path, arcname)]: the file is read and added under its
    name, or the call raises for a file that cannot be read. *)
Definition zf_write (zip_filename path arcname : string)
  : R (option proc_error) :=
  λ s, if readable path (sh s)
       then (Done None,
             {| log := log s; calls := calls s;
                archives :=
                  <[zip_filename :=
                      default [] (archives s !! zip_filename) ++ [arcname]]>
                    (archives s);
                sh := sh s |})
       else (Done (Some OSError), s).

(** Lines 95 to 100: the members one after the other, up to the first
    that raises. *)
Fixpoint zf_write_all (zip_filename : string) (files : list (string * string))
  : R (option proc_error) :=
  match files with
  | [] => ret None
  | (path, arcname) :: rest =>
      bind (zf_write zip_filename path arcname) (λ r,
      match r with
      | Some e => ret (Some e)
      | None => zf_write_all zip_filename rest
      end)
  end.

(** Lines 93 to 100; what is raised inside is handed on. *)
Definition write_zip (zip_filename : string) (files : list (string * string))
  : R (option proc_error) :=
  bind (zip_open zip_filename) (λ _, zf_write_all zip_filename files).

(** Lines 56 to 60. *)
Definition get_version : R string :=
  bind (call_output git_describe) (λ r,
  match r with
  | inl out => ret (Str.rstrip out)
  | inr (CalledProcessError c) =>
      bind (say (GitTagFailed c)) (λ _, ret "dev/unknown")
  | inr OSError => raise (ProcError OSError)
  end).

(** Lines 62 to 66. *)
Definition generate_config (environ : gmap string string) : R unit :=
  bind (call gen_config environ) (λ r,
  match r with
  | None => ret tt
  | Some e => bind (say (ConfigFailed e)) (λ _, raise (ProcError e))
  end).

(** Lines 86 to 100, after the build of the binary. *)
Definition pack (a : args) (environ : gmap string string)
    (goos zip_filename bin_filename : string) : R unit :=
  bind (if upx a
        then bind (call (upx_cmd bin_filename) environ) (λ r,
             match r with
             | None => ret None
             | Some (CalledProcessError c) =>
                 bind (say (UpxFailed c)) (λ _, ret None)
             | Some OSError => ret (Some OSError)
             end)
        else ret None) (λ escaped,
  match escaped with
  | Some e => say (UnknownErr e)
  | None =>
      bind (write_zip zip_filename (members goos bin_filename)) (λ r,
      match r with
      | Some e => say (UnknownErr e)
      | None => ret tt
      end)
  end).

(** Lines 69 to 105: one turn of the loop. *)
Definition build_target (a : args) (VERSION : string)
    (environ : gmap string string) (env : list (string * string)) : R unit :=
  let os_env := os_env_of environ env in
  let zip_filename := zip_filename_of env in
  match os_env !! "GOOS" with
  | None => raise (KeyError "GOOS")
  | Some goos =>
      let bin_filename := bin_filename_of goos in
      bind (say (Info ("building " +:+ zip_filename))) (λ _,
      bind (call (go_build_cmd VERSION bin_filename) os_env) (λ r,
      match r with
      | None => pack a environ goos zip_filename bin_filename
      | Some (CalledProcessError c) => say (BuildFailed zip_filename c)
      | Some OSError => say (UnknownErr OSError)
      end))
  end.

Fixpoint build_targets (a : args) (VERSION : string)
    (environ : gmap string string) (targets : list (list (string * string)))
  : R unit :=
  match targets with
  | [] => ret tt
  | env :: rest =>
      bind (build_target a VERSION environ env) (λ _,
      build_targets a VERSION environ rest)
  end.

Definition go_build (a : args) (environ : gmap string string) : R unit :=
  bind (say (Info ("building " +:+ PROJECT_NAME))) (λ _,
  bind (lift (selected_envs a envs)) (λ targets,
  bind get_version (λ VERSION,
  bind (generate_config environ) (λ _,
  build_targets a VERSION environ targets)))).

End go_build.

Arguments Build_state {shell} log calls archives sh.
Arguments log {shell} s.
Arguments calls {shell} s.
Arguments archives {shell} s.
Arguments sh {shell} s.
Arguments ret {shell A} a.
Arguments bind {shell A B} c k.
Arguments raise {shell A} e.
Arguments lift {shell A} o.
Arguments say {shell} e.
Arguments zip_open {shell} zip_filename.
Arguments zf_write {shell} readable zip_filename path arcname.
Arguments zf_write_all {shell} readable zip_filename files.
Arguments write_zip {shell} readable zip_filename files.
Arguments call {shell} check_call cmd env.
Arguments call_output {shell} check_output cmd.
Arguments get_version {shell} check_output.
Arguments generate_config {shell} check_call environ.
Arguments pack {shell} check_call readable a environ goos zip_filename
  bin_filename.
Arguments build_target {shell} check_call readable a VERSION environ env.
Arguments build_targets {shell} check_call readable a VERSION environ targets.
Arguments go_build {shell} check_call check_output readable a environ.

(** The version a run builds with, from what [git describe] ended
    with. *)
Definition version_of (r : string + proc_error) : string :=
  match r with
  | inl out => Str.rstrip out
  | inr _ => "dev/unknown"
  end.

(** The commands of the targets when [upx] is not asked for. *)
Definition build_of (VERSION : string) (environ : gmap string string)
    (env : list (string * string)) (cmd : string) : Prop :=
  ∃ goos, os_env_of environ env !! "GOOS" = Some goos ∧
          cmd = go_build_cmd VERSION (bin_filename_of goos).

End Release.

(** ** Machines to run [go_build] on *)

Definition describe_ok (cmd : string) (sh : unit)
  : (string + Release.proc_error) * unit :=
  (inl ("v4.0.0-3-g1a2b3c4" +:+ nl), sh).

Definition describe_fails (cmd : string) (sh : unit)
  : (string + Release.proc_error) * unit :=
  (inr (Release.CalledProcessError 128), sh).

Definition all_succeed (cmd : string) (env : gmap string string) (sh : unit)
  : option Release.proc_error * unit :=
  (None, sh).

Definition config_fails (cmd : string) (env : gmap string string) (sh : unit)
  : option Release.proc_error * unit :=
  (if decide (cmd = Release.gen_config)
   then Some (Release.CalledProcessError 1) else None, sh).

Definition windows_fails (cmd : string) (env : gmap string string) (sh : unit)
  : option Release.proc_error * unit :=
  (if decide (env !! "GOOS" = Some "windows")
   then Some (Release.CalledProcessError 2) else None, sh).

Definition all_readable (path : string) (sh : unit) : bool := true.

(** A machine on which every file but ../README.md can be read. *)
Definition not_readme (path : string) : bool :=
  negb (String.eqb path "../README.md").

Definition no_readme (path : string) (sh : unit) : bool := not_readme path.

Definition fresh : Release.state unit :=
  {| Release.log := []; Release.calls := []; Release.archives := ∅;
     Release.sh := tt |}.

Definition linux_amd64 : list (string * string) :=
  [("GOOS", "linux"); ("GOARCH", "amd64")].
Definition linux_arm64 : list (string * string) :=
  [("GOOS", "linux"); ("GOARCH", "arm64")].
Definition windows_amd64 : list (string * string) :=
  [("GOOS", "windows"); ("GOARCH", "amd64")].

(** * Properties *)

(** ** Arithmetic of canonical networks *)

Section network_facts.
Implicit Types a b n : IPNetwork.

Lemma width_pos v : 0 < width v.
Proof. destruct v; reflexivity. Qed.

Lemma host_bits_range n : canonical n → 0 ≤ host_bits n ≤ width (version n).
Proof. unfold canonical, host_bits. lia. Qed.

Lemma size_pos n : canonical n → 0 < size n.
Proof.
  intros Hn. unfold size. apply Z.pow_pos_nonneg; [lia|].
  apply host_bits_range, Hn.
Qed.

Lemma canonical_aligned n : canonical n → ∃ q, base n = q * size n.
Proof.
  intros Hn. pose proof (host_bits_range n Hn) as Hh.
  destruct Hn as (_ & _ & Hland).
  replace (size n - 1) with (Z.ones (host_bits n)) in Hland
    by (rewrite Z.ones_equiv; unfold size; lia).
  rewrite Z.land_ones in Hland by lia.
  exists (base n / size n). unfold size.
  pose proof (Z.div_mod (base n) (2 ^ host_bits n)) as Hdm. lia.
Qed.

Lemma first_le_last n : canonical n → first n ≤ last n.
Proof. intros Hn. pose proof (size_pos n Hn). unfold first, last. lia. Qed.

(** The block of a shorter prefix is a whole number of blocks of a
    longer one. *)
Lemma size_multiple a b :
  canonical a → canonical b → version a = version b →
  prefixlen a ≤ prefixlen b →
  ∃ m, 0 < m ∧ size a = m * size b.
Proof.
  intros Ha Hb Hv Hp. exists (2 ^ (prefixlen b - prefixlen a)). split.
  - apply Z.pow_pos_nonneg; lia.
  - unfold size, host_bits. rewrite Hv, <- Z.pow_add_r.
    + f_equal. lia.
    + lia.
    + destruct Hb as (? & _). lia.
Qed.

End network_facts.

(** ** The order of step 1 and separation *)

Section order_facts.
Implicit Types a b n : IPNetwork.

Global Instance net_le_trans : Transitive net_le.
Proof.
  intros a b c. unfold net_le.
  intros [?|(Hv1 & ?)] [?|(Hv2 & ?)]; try rewrite Hv1 in *;
    try rewrite <- Hv2 in *; try lia.
  right. split; [congruence | lia].
Qed.

Global Instance net_le_total : Total net_le.
Proof.
  intros a b. unfold net_le.
  destruct (decide (version a = version b)) as [Hv|Hv].
  - rewrite Hv. destruct (Z.lt_trichotomy (base a) (base b)) as [?|[?|?]];
      [left|destruct (Z.le_ge_cases (prefixlen a) (prefixlen b)); [left|right]
      |right]; right; split; auto; lia.
  - destruct (version a), (version b); try congruence;
      [left|right]; left; reflexivity.
Qed.

Global Instance net_le_antisymm : AntiSymm (=) net_le.
Proof.
  intros [va ba pa] [vb bb pb]. unfold net_le. simpl.
  intros [?|(Hv1 & ?)] [?|(Hv2 & ?)]; try subst; try lia.
  f_equal; lia.
Qed.

Lemma sep_net_le a b : canonical a → sep a b → net_le a b.
Proof.
  intros Ha [?|(Hv & Hlt)]; [left; assumption|].
  right. split; [assumption|]. left.
  pose proof (first_le_last a Ha). unfold first, last in *. lia.
Qed.

(** A network separated from [n] does not contain it. *)
Lemma sep_not_contains a n : canonical a → canonical n →
  sep a n → contains a n = false.
Proof.
  intros Ha Hn Hs. unfold contains.
  destruct Hs as [Hlt|(Hv & Hlt)].
  - rewrite bool_decide_eq_false_2; [reflexivity|].
    intros Hv. rewrite Hv in Hlt. lia.
  - pose proof (first_le_last n Hn).
    replace (last n <=? last a) with false; [apply andb_false_r|].
    symmetry. apply Z.leb_gt. lia.
Qed.

Lemma sep_not_contains_rev a n : canonical a → canonical n →
  sep a n → contains n a = false.
Proof.
  intros Ha Hn Hs. unfold contains.
  destruct Hs as [Hlt|(Hv & Hlt)].
  - rewrite bool_decide_eq_false_2; [reflexivity|].
    intros Hv. rewrite Hv in Hlt. lia.
  - pose proof (first_le_last a Ha).
    replace (first n <=? first a) with false;
      [rewrite andb_false_r; reflexivity|].
    symmetry. apply Z.leb_gt. lia.
Qed.

(** Blocks are nested or apart: a network that sorts before [n] and does
    not contain it ends before [n] starts. *)
Lemma net_le_not_contains_sep a n : canonical a → canonical n →
  net_le a n → contains a n = false → sep a n.
Proof.
  intros Ha Hn Hle Hc. destruct Hle as [?|(Hv & Hle)]; [left; assumption|].
  right. split; [assumption|].
  unfold contains in Hc. rewrite bool_decide_eq_true_2 in Hc by assumption.
  simpl in Hc.
  destruct (canonical_aligned a Ha) as [x Hx].
  destruct (canonical_aligned n Hn) as [y Hy].
  pose proof (size_pos a Ha) as Hsa. pose proof (size_pos n Hn) as Hsn.
  unfold first, last in *.
  destruct (Z.le_ge_cases (prefixlen a) (prefixlen n)) as [Hp|Hp].
  - destruct (size_multiple a n Ha Hn Hv Hp) as (m & Hm & Hsz).
    apply andb_false_iff in Hc as [Hc|Hc]; apply Z.leb_gt in Hc; [lia|].
    destruct (Z.lt_ge_cases (base a + size a - 1) (base n)) as [|Hov];
      [assumption|exfalso].
    assert (x * m < y + 1) by nia.
    assert (y < (x + 1) * m) by nia.
    assert (y + 1 ≤ (x + 1) * m) by lia.
    nia.
  - destruct (size_multiple n a Hn Ha (eq_sym Hv) Hp) as (m & Hm & Hsz).
    destruct Hle as [Hlt|(Heq & Hpp)].
    + destruct (Z.lt_ge_cases (base a + size a - 1) (base n)) as [|Hov];
        [assumption|exfalso].
      assert (x < y * m) by nia.
      assert (y * m < x + 1) by nia.
      lia.
    + assert (prefixlen a = prefixlen n) as Hpe by lia.
      assert (size a = size n) as Hse
        by (unfold size, host_bits; rewrite Hv, Hpe; reflexivity).
      apply andb_false_iff in Hc as [Hc|Hc]; apply Z.leb_gt in Hc; lia.
Qed.

End order_facts.

(** ** Siblings and their parent *)

Section sibling_facts.
Implicit Types a b n : IPNetwork.

Lemma lxor_one_r x : 0 ≤ x →
  Z.lxor x 1 = if Z.even x then x + 1 else x - 1.
Proof.
  intros Hx. destruct (Z.even x) eqn:He.
  - symmetry. apply Z.add_nocarry_lxor.
    change 1 with (Z.ones 1). rewrite Z.land_ones by lia.
    change (2 ^ 1) with 2. rewrite Zmod_even, He. reflexivity.
  - assert (Z.even (x - 1) = true) as He'.
    { replace (x - 1) with (Z.pred x) by lia.
      rewrite Z.even_pred, <- Z.negb_even, He. reflexivity. }
    assert (Z.lxor (x - 1) 1 = x) as Hx1.
    { replace x with (x - 1 + 1) at 2 by lia.
      symmetry. apply Z.add_nocarry_lxor.
      change 1 with (Z.ones 1) at 2. rewrite Z.land_ones by lia.
      change (2 ^ 1) with 2. rewrite Zmod_even, He'. reflexivity. }
    rewrite <- Hx1 at 1.
    rewrite Z.lxor_assoc, Z.lxor_nilpotent, Z.lxor_0_r. reflexivity.
Qed.

Lemma lxor_one_lt x y : 0 ≤ x → Z.lxor x y = 1 → x < y →
  y = x + 1 ∧ Z.even x = true.
Proof.
  intros Hx Hxy Hlt.
  assert (y = Z.lxor x 1) as Hy.
  { rewrite <- Hxy, <- Z.lxor_assoc, Z.lxor_nilpotent, Z.lxor_0_l.
    reflexivity. }
  rewrite lxor_one_r in Hy by assumption.
  destruct (Z.even x); [auto | lia].
Qed.

Lemma clearbit_clear x k : 0 ≤ k → Z.testbit x k = false →
  Z.clearbit x k = x.
Proof.
  intros Hk Hb. apply Z.bits_inj'. intros i Hi.
  rewrite Z.clearbit_eqb by lia.
  destruct (Z.eqb_spec k i) as [->|]; simpl.
  - rewrite Hb. reflexivity.
  - apply andb_true_r.
Qed.

Lemma siblings_inv a b : siblings a b = true →
  version a = version b ∧ prefixlen a = prefixlen b ∧ 0 < prefixlen a ∧
  Z.lxor (base a) (base b) = 2 ^ host_bits a.
Proof.
  unfold siblings. rewrite !andb_true_iff, bool_decide_eq_true.
  rewrite !Z.eqb_eq, Z.ltb_lt. tauto.
Qed.

Lemma siblings_sym a b : siblings a b = true → siblings b a = true.
Proof.
  intros (Hv & Hp & H0 & Hx)%siblings_inv. unfold siblings.
  rewrite !andb_true_iff, bool_decide_eq_true, !Z.eqb_eq, Z.ltb_lt.
  rewrite Z.lxor_comm, Hx. unfold host_bits. rewrite Hv, Hp.
  repeat split; auto; lia.
Qed.

(** The lower one of two canonical siblings starts their parent, the
    upper one ends it. *)
Lemma siblings_lower a b : canonical a → canonical b →
  siblings a b = true → base a < base b →
  canonical (parent a) ∧ version (parent a) = version a ∧
  first (parent a) = first a ∧ last (parent a) = last b ∧
  last a + 1 = first b.
Proof.
  intros Ha Hb (Hv & Hp & H0 & Hx)%siblings_inv Hlt.
  pose proof (host_bits_range a Ha) as Hk.
  pose proof (size_pos a Ha) as Hs.
  assert (size b = size a) as Hsz
    by (unfold size, host_bits; rewrite Hv, Hp; reflexivity).
  destruct (canonical_aligned a Ha) as [x Hxa].
  destruct (canonical_aligned b Hb) as [y Hyb]. rewrite Hsz in Hyb.
  destruct Ha as (Hpa & Hba & _). destruct Hb as (_ & Hbb & _).
  assert (0 ≤ x) by nia.
  assert (Z.lxor x y = 1) as Hxy.
  { rewrite Hxa, Hyb in Hx. unfold size in Hx.
    rewrite <- !Z.shiftl_mul_pow2, <- Z.shiftl_lxor in Hx by lia.
    rewrite Z.shiftl_mul_pow2 in Hx by lia.
    fold (size a) in Hx. nia. }
  destruct (lxor_one_lt x y) as [-> Hev]; [lia | assumption | nia |].
  apply Zeven_bool_iff, Zeven_ex_iff in Hev as [q ->].
  assert (Z.clearbit (base a) (host_bits a) = base a) as Hclr.
  { apply clearbit_clear; [lia|]. rewrite Hxa. unfold size.
    rewrite Z.mul_pow2_bits by lia. rewrite Z.sub_diag, Z.bit0_odd.
    rewrite Z.odd_mul. reflexivity. }
  assert (size (parent a) = 2 * size a) as Hps.
  { unfold size, parent, host_bits. simpl.
    replace (width (version a) - (prefixlen a - 1))
      with (Z.succ (width (version a) - prefixlen a)) by lia.
    rewrite Z.pow_succ_r; [reflexivity|]. unfold host_bits in Hk. lia. }
  split; [|split; [reflexivity|split; [|split]]].
  - unfold canonical. rewrite Hps. simpl. rewrite Hclr.
    split; [lia|]. split; [assumption|].
    replace (2 * size a - 1) with (Z.ones (Z.succ (host_bits a))).
    + rewrite Z.land_ones by lia. rewrite Z.pow_succ_r by lia.
      fold (size a). rewrite Hxa.
      replace (2 * q * size a) with (q * (2 * size a)) by lia.
      apply Z_mod_mult.
    + rewrite Z.ones_equiv, Z.pow_succ_r by lia. unfold size. lia.
  - unfold first. simpl. exact Hclr.
  - unfold last. rewrite Hps, Hsz. simpl. rewrite Hclr. lia.
  - unfold last, first. lia.
Qed.

End sibling_facts.

(** ** The three steps *)

Section merge_facts.
Implicit Types a b n : IPNetwork.
Implicit Types l acc : list IPNetwork.

Lemma sort_sorted l : StronglySorted net_le (sort l).
Proof. apply StronglySorted_merge_sort; apply _. Qed.

Lemma sort_perm l : sort l ≡ₚ l.
Proof. apply merge_sort_Permutation. Qed.

Lemma sort_of_perm l l' : l ≡ₚ l' → sort l = sort l'.
Proof.
  intros Hp. apply (Sorted_unique net_le).
  - apply Sorted_merge_sort; apply _.
  - apply Sorted_merge_sort; apply _.
  - rewrite !sort_perm. exact Hp.
Qed.

Lemma sort_already_sorted l : Sorted net_le l → sort l = l.
Proof.
  intros Hs. apply (Sorted_unique net_le).
  - apply Sorted_merge_sort; apply _.
  - exact Hs.
  - apply sort_perm.
Qed.

Lemma separated_sorted l : separated l → Sorted net_le l.
Proof.
  intros [Hs Hc]. apply StronglySorted_Sorted.
  induction Hs as [|a l Hs IH Hall]; constructor.
  - apply IH. inversion Hc; assumption.
  - inversion Hc as [|? ? Ha Hl]; subst.
    eapply Forall_impl; [exact Hall|].
    intros b Hb. apply sep_net_le; assumption.
Qed.

Lemma StronglySorted_snoc {A} (R : relation A) (l : list A) (x : A) :
  StronglySorted R l → Forall (λ y, R y x) l → StronglySorted R (l ++ [x]).
Proof.
  intros Hs Hall. apply StronglySorted_app_2.
  - intros y z Hy ->%list_elem_of_singleton.
    rewrite Forall_forall in Hall. apply Hall. exact Hy.
  - exact Hs.
  - repeat constructor.
Qed.

(** Step 2 leaves a separated list when it walks a sorted one. *)
Lemma discard_contained_separated acc l :
  separated acc → Forall canonical l → StronglySorted net_le l →
  Forall (λ a, Forall (net_le a) l) acc →
  separated (discard_contained acc l).
Proof.
  revert acc. induction l as [|n rest IH]; intros acc Hacc Hl Hs Hle;
    simpl; [exact Hacc|].
  inversion Hl as [|? ? Hn Hrest]; subst.
  inversion Hs as [|? ? Hs' Hnle]; subst.
  assert (Forall (λ a, Forall (net_le a) rest) acc) as Hle'.
  { eapply Forall_impl; [exact Hle|]. intros a Ha.
    inversion Ha; assumption. }
  destruct (existsb (λ a, contains a n) acc) eqn:Hex.
  - apply IH; assumption.
  - apply IH; try assumption.
    + destruct Hacc as [Hss Hcc]. split.
      * apply StronglySorted_snoc; [exact Hss|].
        rewrite Forall_forall. intros a Ha.
        apply net_le_not_contains_sep.
        -- rewrite Forall_forall in Hcc. apply Hcc, Ha.
        -- exact Hn.
        -- rewrite Forall_forall in Hle. specialize (Hle a Ha).
           inversion Hle; assumption.
        -- rewrite <- not_true_iff_false, existsb_exists in Hex.
           apply not_true_iff_false. intros Hc. apply Hex.
           exists a. split; [apply list_elem_of_In, Ha | exact Hc].
      * apply Forall_app. split; [exact Hcc | apply Forall_singleton, Hn].
    + apply Forall_app. split; [exact Hle' | apply Forall_singleton, Hnle].
Qed.

(** On a separated list step 2 discards nothing. *)
Lemma discard_contained_id acc l :
  separated (acc ++ l) → discard_contained acc l = acc ++ l.
Proof.
  revert acc. induction l as [|n rest IH]; intros acc [Hs Hc]; simpl.
  - rewrite app_nil_r. reflexivity.
  - assert (existsb (λ a, contains a n) acc = false) as ->.
    { apply not_true_iff_false. rewrite existsb_exists.
      intros (a & Ha%list_elem_of_In & Hcon).
      apply Forall_app in Hc as [Hca Hcn].
      inversion Hcn as [|? ? Hn _]; subst.
      rewrite sep_not_contains in Hcon; [discriminate| |exact Hn|].
      - rewrite Forall_forall in Hca. apply Hca, Ha.
      - eapply StronglySorted_app_1_elem_of; [exact Hs | exact Ha | left]. }
    rewrite (IH (acc ++ [n])); rewrite <- app_assoc; [reflexivity|].
    split; assumption.
Qed.

Lemma merge_once_cons a b rest :
  merge_once (a :: b :: rest) =
  if siblings a b then Some (parent a :: rest)
  else cons a <$> merge_once (b :: rest).
Proof. reflexivity. Qed.

(** One merge keeps the list separated, and anything before the old
    list is before the new one. *)
Lemma merge_once_separated l l' :
  separated l → merge_once l = Some l' →
  separated l' ∧ length l = S (length l') ∧
  ∀ x, Forall (sep x) l → Forall (sep x) l'.
Proof.
  revert l'. induction l as [|a tl IH]; intros l' [Hs Hc] Hm;
    [discriminate|].
  destruct tl as [|b rest]; [discriminate|].
  rewrite merge_once_cons in Hm.
  inversion Hs as [|? ? Hs' Hall]; subst.
  inversion Hc as [|? ? Ha Hc']; subst.
  destruct (siblings a b) eqn:Hsib.
  - injection Hm as <-.
    inversion Hs' as [|? ? Hs'' Hallb]; subst.
    inversion Hc' as [|? ? Hb Hc'']; subst.
    inversion Hall as [|? ? Hab _]; subst.
    pose proof (siblings_inv a b Hsib) as (Hv & _).
    assert (base a < base b) as Hlt.
    { destruct Hab as [?|(_ & ?)]; [rewrite Hv in *; lia|].
      pose proof (first_le_last a Ha). unfold first, last in *. lia. }
    destruct (siblings_lower a b Ha Hb Hsib Hlt) as (Hpc & Hpv & Hpf & Hpl & _).
    split; [split|split].
    + constructor; [exact Hs''|].
      eapply Forall_impl; [exact Hallb|]. intros c Hbc. unfold sep in *.
      rewrite Hpv, Hpl, Hv. exact Hbc.
    + constructor; assumption.
    + reflexivity.
    + intros x Hx. inversion Hx as [|? ? Hxa Hx']; subst.
      inversion Hx' as [|? ? _ Hx'']; subst.
      constructor; [|exact Hx''].
      unfold sep in *. rewrite Hpv, Hpf. exact Hxa.
  - destruct (merge_once (b :: rest)) as [tl'|] eqn:Htl; [|discriminate].
    simpl in Hm. injection Hm as <-.
    destruct (IH tl') as ((Hs1 & Hc1) & Hlen & Hbefore);
      [split; assumption | reflexivity |].
    split; [split|split].
    + constructor; [exact Hs1 | apply Hbefore, Hall].
    + constructor; assumption.
    + simpl in *. rewrite Hlen. reflexivity.
    + intros x Hx. inversion Hx; subst. constructor; [assumption|].
      apply Hbefore. assumption.
Qed.

Lemma merge_loop_separated fuel l :
  separated l → separated (merge_loop fuel l).
Proof.
  revert l. induction fuel as [|fuel IH]; intros l Hl; simpl; [exact Hl|].
  destruct (merge_once l) as [l'|] eqn:Hm; [|exact Hl].
  apply IH. eapply merge_once_separated; eassumption.
Qed.

(** The fuel of [merge_siblings] is enough: the loop ends because no
    pair is left, not because the fuel is spent. *)
Lemma merge_loop_fixed fuel l :
  separated l → (length l ≤ fuel)%nat →
  merge_once (merge_loop fuel l) = None.
Proof.
  revert l. induction fuel as [|fuel IH]; intros l Hl Hlen; simpl.
  - destruct l; [reflexivity | simpl in Hlen; lia].
  - destruct (merge_once l) as [l'|] eqn:Hm; [|exact Hm].
    destruct (merge_once_separated l l' Hl Hm) as (Hl' & Hlen' & _).
    apply IH; [exact Hl' | lia].
Qed.

Lemma merge_loop_none fuel l : merge_once l = None → merge_loop fuel l = l.
Proof. intros Hm. destruct fuel; simpl; [|rewrite Hm]; reflexivity. Qed.

Lemma cidr_merge_separated l :
  Forall canonical l → separated (cidr_merge l).
Proof.
  intros Hl. unfold cidr_merge, merge_siblings.
  apply merge_loop_separated, discard_contained_separated.
  - split; constructor.
  - rewrite sort_perm. exact Hl.
  - apply sort_sorted.
  - constructor.
Qed.

Lemma cidr_merge_fixed l :
  Forall canonical l → merge_once (cidr_merge l) = None.
Proof.
  intros Hl. unfold cidr_merge, merge_siblings.
  apply merge_loop_fixed; [|reflexivity].
  apply discard_contained_separated.
  - split; constructor.
  - rewrite sort_perm. exact Hl.
  - apply sort_sorted.
  - constructor.
Qed.

(** A separated list without neighbouring siblings is left as it is. *)
Lemma cidr_merge_id l :
  separated l → merge_once l = None → cidr_merge l = l.
Proof.
  intros Hl Hm. unfold cidr_merge, merge_siblings.
  rewrite sort_already_sorted by (apply separated_sorted, Hl).
  rewrite (discard_contained_id [] l) by exact Hl. simpl.
  apply merge_loop_none, Hm.
Qed.

End merge_facts.

(** ** The merge keeps the addresses *)

Section cover_facts.
Implicit Types a b n : IPNetwork.
Implicit Types l acc : list IPNetwork.
Implicit Types v : ip_version.
Implicit Types x : Z.

Lemma covered_app l1 l2 v x :
  covered (l1 ++ l2) v x ↔ covered l1 v x ∨ covered l2 v x.
Proof.
  unfold covered. split.
  - intros (n & [Hn|Hn]%elem_of_app & Hc); [left|right]; eauto.
  - intros [(n & Hn & Hc)|(n & Hn & Hc)]; exists n;
      (split; [apply elem_of_app; auto | exact Hc]).
Qed.

Lemma covered_cons n l v x :
  covered (n :: l) v x ↔ covers n v x ∨ covered l v x.
Proof.
  unfold covered. split.
  - intros (m & [->|Hm]%elem_of_cons & Hc); [left|right]; eauto.
  - intros [Hc|(m & Hm & Hc)]; [exists n|exists m];
      (split; [apply elem_of_cons; auto | exact Hc]).
Qed.

Lemma covered_perm l l' v x : l ≡ₚ l' → covered l v x → covered l' v x.
Proof.
  intros Hp (n & Hn & Hc). exists n. split; [|exact Hc].
  rewrite <- Hp. exact Hn.
Qed.

Lemma contains_covers a b v x :
  contains a b = true → covers b v x → covers a v x.
Proof.
  unfold contains, covers.
  rewrite !andb_true_iff, bool_decide_eq_true, !Z.leb_le.
  intros ((Hv & ?) & ?) (Hb & ?). split; [congruence | lia].
Qed.

Lemma discard_contained_covered acc l v x :
  covered (discard_contained acc l) v x ↔ covered (acc ++ l) v x.
Proof.
  revert acc. induction l as [|n rest IH]; intros acc; simpl.
  - rewrite app_nil_r. reflexivity.
  - destruct (existsb (λ a, contains a n) acc) eqn:Hex.
    + rewrite IH, !covered_app, covered_cons.
      apply existsb_exists in Hex as (a & Ha%list_elem_of_In & Hc).
      split; [tauto|]. intros [?|[Hn|?]]; auto.
      left. exists a. split; [exact Ha|].
      eapply contains_covers; eassumption.
    + rewrite IH, <- app_assoc. reflexivity.
Qed.

Lemma merge_once_covered l l' v x :
  separated l → merge_once l = Some l' →
  (covered l' v x ↔ covered l v x).
Proof.
  revert l'. induction l as [|a tl IH]; intros l' [Hs Hc] Hm;
    [discriminate|].
  destruct tl as [|b rest]; [discriminate|].
  rewrite merge_once_cons in Hm.
  inversion Hs as [|? ? Hs' Hall]; subst.
  inversion Hc as [|? ? Ha Hc']; subst.
  destruct (siblings a b) eqn:Hsib.
  - injection Hm as <-.
    inversion Hc' as [|? ? Hb _]; subst.
    inversion Hall as [|? ? Hab _]; subst.
    pose proof (siblings_inv a b Hsib) as (Hv & _).
    assert (base a < base b) as Hlt.
    { destruct Hab as [?|(_ & ?)]; [rewrite Hv in *; lia|].
      pose proof (first_le_last a Ha). unfold first, last in *. lia. }
    destruct (siblings_lower a b Ha Hb Hsib Hlt)
      as (_ & Hpv & Hpf & Hpl & Hadj).
    pose proof (first_le_last a Ha). pose proof (first_le_last b Hb).
    rewrite !covered_cons. unfold covers. rewrite Hpv, Hpf, Hpl, <- Hv.
    split; [intros [(? & ?)|?] | intros [(? & ?)|[(? & ?)|?]]]; auto.
    + destruct (Z.le_gt_cases x (last a)); [left | right; left];
        (split; [assumption | lia]).
    + left. split; [assumption | lia].
    + left. split; [assumption | lia].
  - destruct (merge_once (b :: rest)) as [tl'|] eqn:Htl; [|discriminate].
    simpl in Hm. injection Hm as <-.
    rewrite (covered_cons a tl'), (covered_cons a (b :: rest)).
    rewrite (IH tl'); [reflexivity | split; assumption | reflexivity].
Qed.

Lemma merge_loop_covered fuel l v x :
  separated l → (covered (merge_loop fuel l) v x ↔ covered l v x).
Proof.
  revert l. induction fuel as [|fuel IH]; intros l Hl; simpl; [reflexivity|].
  destruct (merge_once l) as [l'|] eqn:Hm; [|reflexivity].
  rewrite IH by (eapply merge_once_separated; eassumption).
  apply merge_once_covered; assumption.
Qed.

Lemma cidr_merge_covered l v x :
  Forall canonical l → (covered (cidr_merge l) v x ↔ covered l v x).
Proof.
  intros Hl. unfold cidr_merge, merge_siblings.
  rewrite merge_loop_covered.
  - rewrite discard_contained_covered. simpl.
    split; apply covered_perm; [|symmetry]; apply sort_perm.
  - apply discard_contained_separated.
    + split; constructor.
    + rewrite sort_perm. exact Hl.
    + apply sort_sorted.
    + constructor.
Qed.

End cover_facts.

(** ** What a merged list looks like *)

Section merged_facts.
Implicit Types a b n : IPNetwork.
Implicit Types l : list IPNetwork.

Lemma StronglySorted_lookup_lt {A} (R : relation A) (l : list A) i j x y :
  StronglySorted R l → l !! i = Some x → l !! j = Some y → (i < j)%nat →
  R x y.
Proof.
  intros Hs. revert i j. induction Hs as [|z l Hs IH Hall]; intros i j Hi Hj Hlt.
  - rewrite lookup_nil in Hi. discriminate.
  - destruct j as [|j]; [lia|]. simpl in Hj. destruct i as [|i]; simpl in Hi.
    + injection Hi as ->. rewrite Forall_forall in Hall.
      apply Hall. eapply list_elem_of_lookup_2, Hj.
    + apply (IH i j); [assumption..|lia].
Qed.

(** Siblings that are apart touch: nothing fits between them. *)
Lemma sep_siblings_adjacent a b c :
  canonical a → canonical b → canonical c →
  sep a b → sep b c → siblings a c = false.
Proof.
  intros Ha Hb Hc Hab Hbc. apply not_true_iff_false. intros Hsib.
  pose proof (siblings_inv a c Hsib) as (Hv & _).
  pose proof (first_le_last a Ha). pose proof (first_le_last b Hb).
  assert (version b = version a ∧ last a < first b ∧ last b < first c)
    as (Hvb & H1 & H2).
  { destruct Hab as [?|(Hv1 & ?)], Hbc as [?|(Hv2 & ?)];
      try rewrite Hv in *; try rewrite Hv1 in *; try rewrite <- Hv2 in *;
      try lia. auto. }
  assert (base a < base c) as Hlt by (unfold first, last in *; lia).
  destruct (siblings_lower a c Ha Hc Hsib Hlt) as (_ & _ & _ & _ & Hadj).
  lia.
Qed.

Lemma merge_once_none_no_siblings l :
  separated l → merge_once l = None →
  StronglySorted (λ a b, siblings a b = false) l.
Proof.
  induction l as [|a tl IH]; intros [Hs Hc] Hm; [constructor|].
  inversion Hs as [|? ? Hs' Hall]; subst.
  inversion Hc as [|? ? Ha Hc']; subst.
  destruct tl as [|b rest]; [repeat constructor|].
  rewrite merge_once_cons in Hm.
  destruct (siblings a b) eqn:Hsib; [discriminate|].
  destruct (merge_once (b :: rest)) eqn:Hm'; [discriminate|].
  constructor; [apply IH; [split; assumption | reflexivity]|].
  constructor; [exact Hsib|].
  inversion Hs' as [|? ? _ Hallb]; subst.
  inversion Hc' as [|? ? Hb Hc'']; subst.
  inversion Hall as [|? ? Hab _]; subst.
  rewrite Forall_forall in *. intros c Hin.
  apply (sep_siblings_adjacent a b c); auto.
Qed.

Lemma separated_lookup l i j a b :
  separated l → l !! i = Some a → l !! j = Some b → (i < j)%nat →
  sep a b ∧ canonical a ∧ canonical b.
Proof.
  intros [Hs Hc] Hi Hj Hlt. rewrite Forall_forall in Hc. split; [|split].
  - eapply StronglySorted_lookup_lt; eassumption.
  - eapply Hc, list_elem_of_lookup_2, Hi.
  - eapply Hc, list_elem_of_lookup_2, Hj.
Qed.

End merged_facts.

(** ** The claims on the merge *)

(** C3. For every list of canonical networks the merged list is in
    ascending address order without overlap, holds no two networks of
    which one is a subset of the other, and holds no two siblings (two
    blocks of one prefix length that their parent prefix could
    replace); its networks are canonical again and cover the addresses
    of the input. *)
Theorem cidr_merge_minimal (l : list IPNetwork) :
  Forall canonical l →
  let out := cidr_merge l in
  Forall canonical out ∧
  (∀ i j a b, out !! i = Some a → out !! j = Some b → (i < j)%nat →
     addr_lt a b ∧ (version a = version b → last a < first b)) ∧
  (∀ i j a b, out !! i = Some a → out !! j = Some b → i ≠ j →
     contains a b = false) ∧
  (∀ i j a b, out !! i = Some a → out !! j = Some b → i ≠ j →
     siblings a b = false) ∧
  (∀ v x, covered out v x ↔ covered l v x).
Proof.
  intros Hl out.
  pose proof (cidr_merge_separated l Hl) as Hsep.
  pose proof (cidr_merge_fixed l Hl) as Hfix.
  fold out in Hsep, Hfix.
  pose proof (merge_once_none_no_siblings out Hsep Hfix) as Hns.
  split; [apply Hsep|]. split; [|split; [|split]].
  - intros i j a b Hi Hj Hlt.
    destruct (separated_lookup out i j a b Hsep Hi Hj Hlt) as (Hs & Ha & Hb).
    pose proof (first_le_last a Ha).
    destruct Hs as [Hs|(Hv & Hs)]; (split; [|intros Hv'; try rewrite Hv' in Hs; lia]).
    + left. assumption.
    + right. split; [assumption|]. unfold first, last in *. lia.
  - intros i j a b Hi Hj Hne.
    destruct (Nat.lt_total i j) as [Hlt|[?|Hlt]]; [|contradiction|].
    + destruct (separated_lookup out i j a b Hsep Hi Hj Hlt) as (Hs & Ha & Hb).
      apply sep_not_contains; assumption.
    + destruct (separated_lookup out j i b a Hsep Hj Hi Hlt) as (Hs & Hb & Ha).
      apply sep_not_contains_rev; assumption.
  - intros i j a b Hi Hj Hne.
    destruct (Nat.lt_total i j) as [Hlt|[?|Hlt]]; [|contradiction|].
    + apply (StronglySorted_lookup_lt _ out i j a b Hns Hi Hj Hlt).
    + pose proof (StronglySorted_lookup_lt _ out j i b a Hns Hj Hi Hlt) as Hba.
      simpl in Hba. apply not_true_iff_false. intros Hab.
      apply siblings_sym in Hab. congruence.
  - intros v x. apply cidr_merge_covered, Hl.
Qed.

Lemma cidr_merge_minimal_witness :
  let out := cidr_merge example_nets in
  Forall canonical out ∧
  (∀ i j a b, out !! i = Some a → out !! j = Some b → (i < j)%nat →
     addr_lt a b ∧ (version a = version b → last a < first b)) ∧
  (∀ i j a b, out !! i = Some a → out !! j = Some b → i ≠ j →
     contains a b = false) ∧
  (∀ i j a b, out !! i = Some a → out !! j = Some b → i ≠ j →
     siblings a b = false) ∧
  (∀ v x, covered out v x ↔ covered example_nets v x).
Proof.
  apply (cidr_merge_minimal example_nets).
  apply (bool_decide_unpack _). vm_compute. exact I.
Defined.

(** C4. Merging is idempotent: merging the merged list of canonical
    networks gives that list back. *)
Theorem cidr_merge_idempotent (l : list IPNetwork) :
  Forall canonical l → cidr_merge (cidr_merge l) = cidr_merge l.
Proof.
  intros Hl. apply cidr_merge_id.
  - apply cidr_merge_separated, Hl.
  - apply cidr_merge_fixed, Hl.
Qed.

Lemma cidr_merge_idempotent_witness :
  cidr_merge (cidr_merge example_nets) = cidr_merge example_nets.
Proof.
  apply (cidr_merge_idempotent example_nets).
  apply (bool_decide_unpack _). vm_compute. exact I.
Defined.

(** The merge does not depend on the order of its input. *)
Lemma cidr_merge_perm (l l' : list IPNetwork) :
  l ≡ₚ l' → cidr_merge l = cidr_merge l'.
Proof. intros Hp. unfold cidr_merge. rewrite (sort_of_perm l l' Hp). reflexivity. Qed.

(** ** The lines of the feed, one at a time *)

Section parse_facts.
Variable netaddr_IPNetwork : string → option IPNetwork.
Implicit Types line : string.
Implicit Types acc : list IPNetwork.
Implicit Types w : world.

Abbreviation parse_line := (parse_line netaddr_IPNetwork).
Abbreviation parse_lines := (parse_lines netaddr_IPNetwork).
Abbreviation ipv4_network := (ipv4_network netaddr_IPNetwork).
Abbreviation ipv6_network := (ipv6_network netaddr_IPNetwork).
Abbreviation line_result := (line_result netaddr_IPNetwork).
Abbreviation lines_result := (lines_result netaddr_IPNetwork).


Lemma parse_lines_cons line rest acc w :
  parse_lines (line :: rest) (acc, w) =
  match try_except_IndexError (parse_line line)
          (log_warning ("unexpected format: " +:+ line)) (acc, w) with
  | (Ok _, s) => parse_lines rest s
  | (Raise e, s) => (Raise e, s)
  end.
Proof. reflexivity. Qed.


Lemma try_line_result line acc w :
  ∃ r acc' w',
    try_except_IndexError (parse_line line)
      (log_warning ("unexpected format: " +:+ line)) (acc, w)
    = (r, (acc', w')) ∧
    files w' = files w ∧
    match line_result line with
    | Ok ns => r = Ok tt ∧ acc' = acc ++ ns
    | Raise e => r = Raise e
    end.
Proof.
  unfold try_except_IndexError, parse_line, line_result.
  unfold mbind, M_bind, bind, lift, append, ret, log_warning, emit,
    get_local, set_local; simpl.
  destruct (relevant_ipv4 line); simpl.
  - destruct (ipv4_network line) as [n4|e4]; simpl.
    + destruct (relevant_ipv6 line); simpl.
      * destruct (ipv6_network line) as [n6|e6]; simpl.
        -- eexists _, _, _. split; [reflexivity|]. split; [reflexivity|].
           rewrite <- app_assoc. auto.
        -- destruct e6; eexists _, _, _; (split; [reflexivity|]); simpl; auto.
      * eexists _, _, _. split; [reflexivity|]. simpl; auto.
    + destruct e4; eexists _, _, _; (split; [reflexivity|]); simpl;
        rewrite ?app_nil_r; auto.
  - destruct (relevant_ipv6 line); simpl.
    + destruct (ipv6_network line) as [n6|e6]; simpl.
      * eexists _, _, _. split; [reflexivity|]. simpl; auto.
      * destruct e6; eexists _, _, _; (split; [reflexivity|]); simpl;
          rewrite ?app_nil_r; auto.
    + eexists _, _, _. split; [reflexivity|]. simpl.
      rewrite app_nil_r. auto.
Qed.

Lemma parse_lines_result lines acc w :
  ∃ r acc' w',
    parse_lines lines (acc, w) = (r, (acc', w')) ∧
    files w' = files w ∧
    match lines_result lines with
    | Ok ns => r = Ok tt ∧ acc' = acc ++ ns
    | Raise e => r = Raise e
    end.
Proof.
  revert acc w. induction lines as [|line rest IH]; intros acc w.
  - exists (Ok tt), acc, w. simpl. rewrite app_nil_r. auto.
  - rewrite parse_lines_cons. simpl.
    destruct (try_line_result line acc w) as (r & acc1 & w1 & -> & Hf & Hr).
    destruct (line_result line) as [ns|e]; simpl.
    + destruct Hr as [-> ->].
      destruct (IH (acc ++ ns) w1) as (r2 & acc2 & w2 & -> & Hf2 & Hr2).
      exists r2, acc2, w2. split; [reflexivity|]. split; [congruence|].
      destruct (lines_result rest) as [ms|e]; simpl; [|exact Hr2].
      rewrite app_assoc. exact Hr2.
    + subst r. eexists _, _, _. split; [reflexivity|]. auto.
Qed.


Lemma lines_result_perm lines lines' :
  lines ≡ₚ lines' → same_parse (lines_result lines) (lines_result lines').
Proof.
  induction 1 as [|x l l' _ IH|x y l|l1 l2 l3 _ IH1 _ IH2]; simpl.
  - reflexivity.
  - destruct (line_result x); simpl; [|exact I].
    destruct (lines_result l), (lines_result l'); simpl in *;
      try assumption. rewrite IH. reflexivity.
  - destruct (line_result x), (line_result y); simpl; try exact I.
    destruct (lines_result l); simpl; [|exact I].
    rewrite !app_assoc. apply Permutation_app_tail, Permutation_app_comm.
  - destruct (lines_result l1), (lines_result l2), (lines_result l3);
      simpl in *; try contradiction; try exact I.
    etransitivity; eassumption.
Qed.

End parse_facts.

(** ** The run as a whole *)

Section run_facts.
Variable netaddr_IPNetwork : string → option IPNetwork.
Variable IPNetwork_str : IPNetwork → string.
Variable requests_get : string → response.
Implicit Types line : string.
Implicit Types acc : list IPNetwork.
Implicit Types w : world.

Abbreviation parse_lines' := (parse_lines netaddr_IPNetwork).
Abbreviation ipv4_network' := (ipv4_network netaddr_IPNetwork).
Abbreviation ipv6_network' := (ipv6_network netaddr_IPNetwork).
Abbreviation update_ip_list' :=
  (update_ip_list netaddr_IPNetwork IPNetwork_str requests_get).
Abbreviation written := (written IPNetwork_str).


(** A relevant IPv4 record that parses adds its network; the loop goes
    on. *)
Lemma parse_lines_ipv4 line rest acc w n :
  relevant_ipv4 line = true → relevant_ipv6 line = false →
  ipv4_network' line = Ok n →
  parse_lines' (line :: rest) (acc, w) = parse_lines' rest (acc ++ [n], w).
Proof.
  intros H4 H6 Hn. rewrite parse_lines_cons.
  unfold try_except_IndexError, parse_line.
  unfold mbind, M_bind, bind, lift, append, ret, get_local, set_local.
  rewrite H4, H6, Hn. reflexivity.
Qed.

Lemma parse_lines_ipv6 line rest acc w n :
  relevant_ipv4 line = false → relevant_ipv6 line = true →
  ipv6_network' line = Ok n →
  parse_lines' (line :: rest) (acc, w) = parse_lines' rest (acc ++ [n], w).
Proof.
  intros H4 H6 Hn. rewrite parse_lines_cons.
  unfold try_except_IndexError, parse_line.
  unfold mbind, M_bind, bind, lift, append, ret, get_local, set_local.
  rewrite H4, H6, Hn. reflexivity.
Qed.

(** A line that is not relevant is passed over. *)
Lemma parse_lines_irrelevant line rest acc w :
  relevant_ipv4 line = false → relevant_ipv6 line = false →
  parse_lines' (line :: rest) (acc, w) = parse_lines' rest (acc, w).
Proof.
  intros H4 H6. rewrite parse_lines_cons.
  unfold try_except_IndexError, parse_line.
  unfold mbind, M_bind, bind, ret. rewrite H4, H6. reflexivity.
Qed.

(** An exception other than IndexError in the IPv4 block leaves the
    loop. *)
Lemma parse_lines_ipv4_raise line rest acc w e :
  relevant_ipv4 line = true → ipv4_network' line = Raise e →
  e ≠ IndexError →
  parse_lines' (line :: rest) (acc, w) = (Raise e, (acc, w)).
Proof.
  intros H4 Hn He. rewrite parse_lines_cons.
  unfold try_except_IndexError, parse_line.
  unfold mbind, M_bind, bind, lift. rewrite H4, Hn.
  destruct e; try reflexivity. contradiction.
Qed.

Lemma short_line_IndexError line :
  (length (Str.split "|" line) < 5)%nat →
  ipv4_network' line = Raise IndexError ∧
  ipv6_network' line = Raise IndexError.
Proof.
  intros Hlen. unfold ipv4_network, ipv6_network, Str.index.
  assert (Str.split "|" line !! 4%nat = None) as H4
    by (apply lookup_ge_None; lia).
  rewrite H4. destruct (Str.split "|" line !! 3%nat); auto.
Qed.

Lemma body_fetch_failed acc w :
  status_code (requests_get url) ≠ 200 →
  update_ip_list_body netaddr_IPNetwork IPNetwork_str requests_get (acc, w) =
  (Raise (Exception (status_code (requests_get url))), (acc, say fetching w)).
Proof.
  intros Hs. unfold update_ip_list_body.
  unfold mbind, M_bind, bind, log_info, emit, raise. simpl.
  rewrite bool_decide_eq_true_2 by exact Hs. reflexivity.
Qed.

Lemma body_fetched acc w :
  status_code (requests_get url) = 200 →
  update_ip_list_body netaddr_IPNetwork IPNetwork_str requests_get (acc, w) =
  match parse_lines' (text_lines (requests_get url))
          (acc, say (Info "parsing...") (say fetching w)) with
  | (Ok _, (nets, w')) => (Ok tt, (cidr_merge nets, written nets w'))
  | (Raise e, s) => (Raise e, s)
  end.
Proof.
  intros Hs. unfold update_ip_list_body.
  unfold mbind, M_bind, bind, log_info, emit, raise. simpl.
  rewrite bool_decide_eq_false_2 by (rewrite Hs; auto).
  fold (say fetching w).
  fold (say (Info "parsing...") (say fetching w)).
  destruct (parse_lines' _ _) as [[[]|e] [nets w']]; reflexivity.
Qed.

Lemma update_ip_list_fetch_failed w :
  status_code (requests_get url) ≠ 200 →
  update_ip_list' w =
  (Raise (Exception (status_code (requests_get url))), say fetching w).
Proof.
  intros Hs. unfold update_ip_list, run.
  rewrite body_fetch_failed by exact Hs. reflexivity.
Qed.

Lemma update_ip_list_fetched w :
  status_code (requests_get url) = 200 →
  update_ip_list' w =
  match parse_lines' (text_lines (requests_get url))
          ([], say (Info "parsing...") (say fetching w)) with
  | (Ok _, (nets, w')) => (Ok tt, written nets w')
  | (Raise e, (_, w')) => (Raise e, w')
  end.
Proof.
  intros Hs. unfold update_ip_list, run.
  rewrite body_fetched by exact Hs.
  destruct (parse_lines' _ _) as [[[]|e] [nets w']]; reflexivity.
Qed.

End run_facts.

(** ** Prefix lengths *)

(** The prefix length of the script at the small unit counts: it is
    [32 - log2 count] rounded down to an integer. *)
Lemma cidr_prefix_length_small (count : Z) :
  1 ≤ count ≤ 1024 → cidr_prefix_length count = Ok (32 - Z.log2_up count).
Proof.
  intros Hc.
  assert (forallb (λ c, match cidr_prefix_length c with
                        | Ok p => p =? 32 - Z.log2_up c
                        | Raise _ => false
                        end) (seqZ 1 1024) = true) as Hall
    by (vm_compute; reflexivity).
  rewrite forallb_forall in Hall.
  specialize (Hall count). 
  destruct (cidr_prefix_length count) as [p|e].
  - f_equal. apply Z.eqb_eq, Hall, list_elem_of_In, elem_of_seqZ. lia.
  - discriminate Hall. apply list_elem_of_In, elem_of_seqZ. lia.
Qed.

(** Every power of two of the 32-bit range but two gets the prefix
    length [32 - log2 count]. *)
Lemma cidr_prefix_length_pow2 (k : Z) :
  0 ≤ k ≤ 32 → k ≠ 29 → k ≠ 31 → cidr_prefix_length (2 ^ k) = Ok (32 - k).
Proof.
  intros Hk H29 H31.
  assert (forallb (λ k, match cidr_prefix_length (2 ^ k) with
                        | Ok p => (p =? 32 - k) || (k =? 29) || (k =? 31)
                        | Raise _ => false
                        end) (seqZ 0 33) = true) as Hall
    by (vm_compute; reflexivity).
  rewrite forallb_forall in Hall.
  specialize (Hall k).
  destruct (cidr_prefix_length (2 ^ k)) as [p|e].
  - f_equal.
    assert ((p =? 32 - k) || (k =? 29) || (k =? 31) = true) as Hp
      by (apply Hall, list_elem_of_In, elem_of_seqZ; lia).
    rewrite !orb_true_iff, !Z.eqb_eq in Hp. lia.
  - discriminate Hall. apply list_elem_of_In, elem_of_seqZ. lia.
Qed.

(** C2. At the unit counts [2^29] and [2^31] the prefix length the
    script computes is [2] and [0], where [32 - log2 count] is [3] and
    [1]: [math.log(2**29, 2)] is [29.000000000000004], and [int]
    truncates [2.9999999999999964]. *)
Theorem cidr_prefix_length_pow2_29_31 :
  cidr_prefix_length (2 ^ 29) = Ok 2 ∧ 32 - Z.log2 (2 ^ 29) = 3 ∧
  cidr_prefix_length (2 ^ 31) = Ok 0 ∧ 32 - Z.log2 (2 ^ 31) = 1 ∧
  Math.log (2 ^ 29) 2 =
    Ok (S754_finite false 8162774324609025%positive (-48)).
Proof. vm_compute. repeat split; reflexivity. Qed.

(** ** Records of the feed, facts *)

Lemma ipv4_record_network netaddr line ip_start count p n :
  ipv4_record line ip_start count →
  cidr_prefix_length count = Ok p →
  netaddr (ip_start +:+ "/" +:+ Str.of_int p +:+ nl) = Some n →
  ipv4_network netaddr line = Ok n.
Proof.
  intros (_ & _ & H3 & value & H4 & Hv) Hp Hn.
  unfold ipv4_network, Str.index, new_IPNetwork. rewrite H3, H4. simpl.
  rewrite Hv. simpl. rewrite Hp. simpl. rewrite Hn. reflexivity.
Qed.

(** ** The claims on update_ip_list *)

(** C1, as the spec has it, fails: on a feed whose one record has the
    unit count 192 the run does not abort, and one line is written. *)
Lemma count_192_not_rejected :
  let r := update_ip_list Dotted.network Dotted.str
             (serve 200 [record_192]) empty_world in
  r.1 = Ok tt ∧ files r.2 !! save_to_file = Some ["1.0.0.0/24" +:+ nl].
Proof. vm_compute. split; reflexivity. Qed.

(** C1, amended.  No record is rejected for a fractional prefix length:
    whenever [int(32 - math.log(count, 2))] is [p] and netaddr takes
    [start/p], the network is appended and the loop goes on with the
    next line; at the unit count 192 the prefix length is cut down to
    24. *)
Theorem fractional_prefix_truncated
    (netaddr : string → option IPNetwork) (line ip_start : string)
    (count p : Z) (n : IPNetwork) (rest : list string)
    (acc : list IPNetwork) (w : world) :
  ipv4_record line ip_start count →
  cidr_prefix_length count = Ok p →
  netaddr (ip_start +:+ "/" +:+ Str.of_int p +:+ nl) = Some n →
  cidr_prefix_length 192 = Ok 24 ∧
  parse_lines netaddr (line :: rest) (acc, w) =
  parse_lines netaddr rest (acc ++ [n], w).
Proof.
  intros Hrec Hp Hn. split; [vm_compute; reflexivity|].
  pose proof Hrec as (H4 & H6 & _).
  apply parse_lines_ipv4; [exact H4 | exact H6 |].
  eapply ipv4_record_network; eassumption.
Qed.

Lemma fractional_prefix_truncated_witness :
  cidr_prefix_length 192 = Ok 24 ∧
  parse_lines Dotted.network [record_192; record_1_0_1_0] ([], empty_world) =
  parse_lines Dotted.network [record_1_0_1_0]
    ([] ++ [mkNet IPv4 16777216 24], empty_world).
Proof.
  apply (fractional_prefix_truncated Dotted.network record_192 "1.0.0.0"
           192 24).
  - repeat split. exists "192". split; reflexivity.
  - vm_compute; reflexivity.
  - vm_compute; reflexivity.
Defined.

(** C5. The order of the lines does not matter: two feeds with the same
    status whose lines are a permutation of each other end alike, with
    the same merged list and the same files. *)
Theorem update_ip_list_order_independent
    (netaddr : string → option IPNetwork) (str : IPNetwork → string)
    (get get' : string → response) (w : world) :
  status_code (get' url) = status_code (get url) →
  text_lines (get' url) ≡ₚ text_lines (get url) →
  let '(r, (l, v)) := update_ip_list_body netaddr str get ([], w) in
  let '(r', (l', v')) := update_ip_list_body netaddr str get' ([], w) in
  is_ok r' = is_ok r ∧ files v' = files v ∧ (is_ok r = true → l' = l).
Proof.
  intros Hst Hperm.
  destruct (decide (status_code (get url) = 200)) as [H200|Hne].
  - rewrite !body_fetched by congruence.
    set (w1 := say (Info "parsing...") (say fetching w)).
    destruct (parse_lines_result netaddr (text_lines (get url)) [] w1)
      as (r & l & v & -> & Hf & Hr).
    destruct (parse_lines_result netaddr (text_lines (get' url)) [] w1)
      as (r' & l' & v' & -> & Hf' & Hr').
    pose proof (lines_result_perm netaddr _ _ Hperm) as Hsame.
    unfold same_parse in Hsame.
    destruct (lines_result netaddr (text_lines (get url))) as [ns|e],
      (lines_result netaddr (text_lines (get' url))) as [ns'|e'];
      try contradiction.
    + destruct Hr as [-> ->], Hr' as [-> ->]. simpl.
      rewrite (cidr_merge_perm ns' ns) by exact Hsame.
      rewrite Hf, Hf'. auto.
    + subst r r'. simpl. rewrite Hf, Hf'.
      split; [reflexivity|]. split; [reflexivity|]. discriminate.
  - rewrite !body_fetch_failed by congruence. simpl.
    split; [reflexivity|]. split; [reflexivity|]. discriminate.
Qed.

Lemma update_ip_list_order_independent_witness :
  let '(r, (l, v)) :=
    update_ip_list_body Dotted.network Dotted.str
      (serve 200 [record_1_0_0_0; record_192; record_1_0_1_0])
      ([], empty_world) in
  let '(r', (l', v')) :=
    update_ip_list_body Dotted.network Dotted.str
      (serve 200 [record_1_0_1_0; record_1_0_0_0; record_192])
      ([], empty_world) in
  is_ok r' = is_ok r ∧ files v' = files v ∧ (is_ok r = true → l' = l).
Proof.
  apply (update_ip_list_order_independent Dotted.network Dotted.str
           (serve 200 [record_1_0_0_0; record_192; record_1_0_1_0])
           (serve 200 [record_1_0_1_0; record_1_0_0_0; record_192])).
  - reflexivity.
  - simpl. apply Permutation_cons_app with (l1 := [_; _]) (l2 := []).
    reflexivity.
Defined.

(** C6. A feed of exactly two relevant IPv4 records, 1.0.0.0 and
    1.0.1.0 with the unit count 256 each, ends with the one network
    1.0.0.0/23 in the list and as the one line of the file. *)
Theorem two_adjacent_24_merge
    (netaddr : string → option IPNetwork) (str : IPNetwork → string)
    (get : string → response) (line1 line2 : string) (w : world) :
  status_code (get url) = 200 →
  text_lines (get url) = [line1; line2] →
  ipv4_record line1 "1.0.0.0" 256 →
  ipv4_record line2 "1.0.1.0" 256 →
  netaddr ("1.0.0.0/24" +:+ nl) = Some net_1_0_0_0_24 →
  netaddr ("1.0.1.0/24" +:+ nl) = Some net_1_0_1_0_24 →
  ∃ w',
    update_ip_list_body netaddr str get ([], w) =
      (Ok tt, ([net_1_0_0_0_23], w')) ∧
    files w' = <[save_to_file := [str net_1_0_0_0_23 +:+ nl]]> (files w).
Proof.
  intros H200 Hlines Hr1 Hr2 Hn1 Hn2.
  assert (cidr_prefix_length 256 = Ok 24) as Hp by (vm_compute; reflexivity).
  rewrite body_fetched by exact H200. rewrite Hlines.
  pose proof Hr1 as (H14 & H16 & _). pose proof Hr2 as (H24 & H26 & _).
  rewrite (parse_lines_ipv4 netaddr line1 _ _ _ net_1_0_0_0_24 H14 H16)
    by (eapply ipv4_record_network; eassumption).
  rewrite (parse_lines_ipv4 netaddr line2 _ _ _ net_1_0_1_0_24 H24 H26)
    by (eapply ipv4_record_network; eassumption).
  simpl. eexists. split; reflexivity.
Qed.

Lemma two_adjacent_24_merge_witness :
  ∃ w',
    update_ip_list_body Dotted.network Dotted.str
      (serve 200 [record_1_0_0_0; record_1_0_1_0]) ([], empty_world) =
      (Ok tt, ([net_1_0_0_0_23], w')) ∧
    files w' = <[save_to_file := [Dotted.str net_1_0_0_0_23 +:+ nl]]>
                 (files empty_world).
Proof.
  apply (two_adjacent_24_merge Dotted.network Dotted.str
           (serve 200 [record_1_0_0_0; record_1_0_1_0])
           record_1_0_0_0 record_1_0_1_0).
  - reflexivity.
  - reflexivity.
  - repeat split. exists "256". split; reflexivity.
  - repeat split. exists "256". split; reflexivity.
  - vm_compute; reflexivity.
  - vm_compute; reflexivity.
Defined.

(** C7. When the status of the response is not 200 the run ends with
    the exception right after the first log record, whatever the body
    holds: nothing is parsed and no file is touched.  And in every run
    the files are either left as they were, the run having ended with
    an exception, or every line was parsed and the file holds the whole
    merged list. *)
Theorem update_ip_list_all_or_nothing
    (netaddr : string → option IPNetwork) (str : IPNetwork → string)
    (get : string → response) (w : world) :
  (status_code (get url) ≠ 200 →
   update_ip_list netaddr str get w =
   (Raise (Exception (status_code (get url))), say fetching w)) ∧
  let '(r, w') := update_ip_list netaddr str get w in
  (is_ok r = false ∧ files w' = files w) ∨
  (r = Ok tt ∧ status_code (get url) = 200 ∧
   ∃ nets w1 w2,
     parse_lines netaddr (text_lines (get url)) ([], w1) = (Ok tt, (nets, w2)) ∧
     files w' = <[save_to_file := map (λ x, str x +:+ nl) (cidr_merge nets)]>
                  (files w)).
Proof.
  split; [apply update_ip_list_fetch_failed|].
  destruct (decide (status_code (get url) = 200)) as [H200|Hne].
  - rewrite update_ip_list_fetched by exact H200.
    set (w1 := say (Info "parsing...") (say fetching w)).
    destruct (parse_lines_result netaddr (text_lines (get url)) [] w1)
      as (r & l & v & Heq & Hf & Hr).
    rewrite Heq.
    destruct r as [[]|e].
    + right. split; [reflexivity|]. split; [exact H200|].
      exists l, w1, v. split; [exact Heq|]. simpl. rewrite Hf. reflexivity.
    + left. split; [reflexivity|]. exact Hf.
  - rewrite update_ip_list_fetch_failed by exact Hne.
    left. split; reflexivity.
Qed.

Lemma update_ip_list_all_or_nothing_witness :
  update_ip_list Dotted.network Dotted.str
    (serve 404 [record_1_0_0_0]) empty_world =
  (Raise (Exception 404), say fetching empty_world).
Proof.
  apply (proj1 (update_ip_list_all_or_nothing Dotted.network Dotted.str
                  (serve 404 [record_1_0_0_0]) empty_world)).
  simpl. lia.
Defined.

(** A count [int] does not take ends the loop with ValueError, whatever
    follows: the handler of the loop is for IndexError alone. *)
Lemma bad_count_raises
    (netaddr : string → option IPNetwork) (line ip_start value : string)
    (rest : list string) (acc : list IPNetwork) (w : world) :
  relevant_ipv4 line = true →
  Str.split "|" line !! 3%nat = Some ip_start →
  Str.split "|" line !! 4%nat = Some value →
  Str.int value = Raise ValueError →
  parse_lines netaddr (line :: rest) (acc, w) = (Raise ValueError, (acc, w)).
Proof.
  intros H4 He3 He4 Hv. apply parse_lines_ipv4_raise; [exact H4| |discriminate].
  unfold ipv4_network, Str.index. rewrite He3, He4. simpl.
  rewrite Hv. reflexivity.
Qed.

(** C8, as the spec has it, fails: a count that is not a number ends
    the run with ValueError; the record after it is not read and no
    file is written. *)
Lemma bad_count_aborts :
  let r := update_ip_list Dotted.network Dotted.str
             (serve 200 [record_abc; record_1_0_0_0]) empty_world in
  r.1 = Raise ValueError ∧ files r.2 !! save_to_file = None ∧
  ipv4_network Dotted.network record_abc = Raise ValueError.
Proof. vm_compute. repeat split; reflexivity. Qed.

(** C8, amended.  A relevant line with fewer than five fields is
    logged and skipped: the list is left as it is and the loop goes on
    with the next line. *)
Theorem short_line_skipped
    (netaddr : string → option IPNetwork) (line : string)
    (rest : list string) (acc : list IPNetwork) (w : world) :
  relevant_ipv4 line = true ∨ relevant_ipv6 line = true →
  (length (Str.split "|" line) < 5)%nat →
  parse_lines netaddr (line :: rest) (acc, w) =
  parse_lines netaddr rest (acc, warn line w).
Proof.
  intros Hrel Hlen.
  destruct (short_line_IndexError netaddr line Hlen) as [H4 H6].
  rewrite parse_lines_cons.
  unfold try_except_IndexError, parse_line.
  unfold mbind, M_bind, bind, lift, ret, log_warning, emit.
  rewrite H4, H6.
  destruct (relevant_ipv4 line), (relevant_ipv6 line); try reflexivity.
  destruct Hrel; discriminate.
Qed.

Lemma short_line_skipped_witness :
  parse_lines Dotted.network ["|CN|ipv4|"; record_1_0_0_0] ([], empty_world) =
  parse_lines Dotted.network [record_1_0_0_0]
    ([], warn "|CN|ipv4|" empty_world).
Proof.
  apply (short_line_skipped Dotted.network "|CN|ipv4|").
  - left. reflexivity.
  - vm_compute. lia.
Defined.

(** ** Characters and fields *)

Section field_facts.
Implicit Types s sub : string.
Implicit Types c : ascii.

Lemma prefix_has_char c sub s :
  String.prefix sub s = true →
  c ∈ list_ascii_of_string sub → c ∈ list_ascii_of_string s.
Proof.
  revert s. induction sub as [|a sub IH]; intros s Hp Hc; simpl in *.
  - inversion Hc.
  - destruct s as [|b s]; simpl in Hp; [discriminate|]. simpl.
    destruct (ascii_dec a b) as [->|]; [|discriminate].
    apply elem_of_cons in Hc as [->|Hc]; [left|right]. auto.
Qed.

Lemma find_from_unfold sub s i :
  Str.find_from sub s i =
  if String.prefix sub s then i
  else match s with
       | EmptyString => -1
       | String _ s' => Str.find_from sub s' (i + 1)
       end.
Proof. destruct s; reflexivity. Qed.

Lemma find_from_has_char c sub s i :
  Str.find_from sub s i ≠ -1 →
  c ∈ list_ascii_of_string sub → c ∈ list_ascii_of_string s.
Proof.
  revert i. induction s as [|b s IH]; intros i Hf Hc;
    rewrite find_from_unfold in Hf.
  - destruct (String.prefix sub "") eqn:Hp; [|congruence].
    eapply prefix_has_char; eassumption.
  - destruct (String.prefix sub (String b s)) eqn:Hp.
    + eapply prefix_has_char; eassumption.
    + simpl. right. eapply IH; eassumption.
Qed.

Lemma prefix_append sub s : String.prefix sub (sub +:+ s) = true.
Proof.
  induction sub as [|a sub IH]; simpl; [destruct s; reflexivity|].
  destruct (ascii_dec a a); [exact IH | congruence].
Qed.

(** A text that holds [sub] is one [find] finds it in. *)
Lemma find_from_append sub before s i :
  0 ≤ i → Str.find_from sub (before +:+ sub +:+ s) i ≠ -1.
Proof.
  revert i. induction before as [|a before IH]; intros i Hi;
    rewrite find_from_unfold.
  - change (EmptyString +:+ sub +:+ s) with (sub +:+ s).
    rewrite prefix_append. lia.
  - destruct (String.prefix sub _); [lia|].
    change (String a before +:+ sub +:+ s)
      with (String a (before +:+ sub +:+ s)).
    apply IH. lia.
Qed.

Lemma split_nonempty c s : Str.split c s ≠ [].
Proof.
  destruct s as [|a s]; simpl; [discriminate|].
  destruct (Ascii.eqb a c); [discriminate|].
  destruct (Str.split c s); discriminate.
Qed.

Lemma split_length_has_char c s :
  c ∈ list_ascii_of_string s → (2 ≤ length (Str.split c s))%nat.
Proof.
  induction s as [|a s IH]; simpl; intros Hc; [inversion Hc|].
  destruct (Ascii.eqb_spec a c) as [->|Hne].
  - pose proof (split_nonempty c s).
    destruct (Str.split c s); [contradiction | simpl; lia].
  - apply elem_of_cons in Hc as [->|Hc]; [contradiction|].
    specialize (IH Hc).
    destruct (Str.split c s); simpl in *; lia.
Qed.

(** A field without the separator in front of a separator is the first
    field. *)
Lemma split_first_field c s rest :
  c ∉ list_ascii_of_string s →
  Str.split c (s +:+ String c rest) = s :: Str.split c rest.
Proof.
  induction s as [|a s IH]; simpl; intros Hc.
  - rewrite Ascii.eqb_refl. reflexivity.
  - apply not_elem_of_cons in Hc as [Hne Hc].
    destruct (Ascii.eqb_spec a c) as [->|_]; [contradiction|].
    rewrite (IH Hc). reflexivity.
Qed.

Lemma prefix_decompose sub s :
  String.prefix sub s = true → ∃ post, s = sub +:+ post.
Proof.
  revert s. induction sub as [|a sub IH]; intros s Hp.
  - exists s. reflexivity.
  - destruct s as [|b s]; simpl in Hp; [discriminate|].
    destruct (ascii_dec a b) as [->|]; [|discriminate].
    destruct (IH s Hp) as [post ->]. exists post. reflexivity.
Qed.

Lemma split_cons_other c a s :
  a ≠ c →
  Str.split c (String a s) =
  match Str.split c s with
  | h :: t => String a h :: t
  | [] => [String a EmptyString]
  end.
Proof.
  intros Hne. simpl. destruct (Ascii.eqb_spec a c); [contradiction|reflexivity].
Qed.

End field_facts.

(** ** The claims on update_chn_domain_list *)

Section marker_facts.
Implicit Types line s : string.

Lemma split_head c s : Str.split c s !! 0%nat = Some (until_char c s).
Proof.
  induction s as [|a s IH]; [reflexivity|]. simpl.
  destruct (Ascii.eqb a c); [reflexivity|].
  destruct (Str.split c s) as [|h t]; [discriminate|].
  simpl in *. congruence.
Qed.

Lemma after_marker_unfold line :
  after_marker line =
  if String.prefix marker line
  then Some (drop_chars (String.length marker) line)
  else match line with
       | EmptyString => None
       | String _ rest => after_marker rest
       end.
Proof. destruct line; reflexivity. Qed.

Lemma slash_before_marker_unfold line :
  slash_before_marker line =
  if String.prefix marker line then false
  else match line with
       | EmptyString => false
       | String c rest =>
           (Ascii.eqb c "/" && bool_decide (is_Some (after_marker rest)))
           || slash_before_marker rest
       end.
Proof. destruct line; reflexivity. Qed.

(** The script's test for the marker and the spec's agree. *)
Lemma find_after_marker line i :
  0 ≤ i → (Str.find_from marker line i ≠ -1 ↔ is_Some (after_marker line)).
Proof.
  revert i. induction line as [|a line IH]; intros i Hi;
    rewrite find_from_unfold, after_marker_unfold;
    destruct (String.prefix marker _).
  - split; [eauto | lia].
  - split; [intros H; now destruct H | intros [? [=]]].
  - split; [eauto | lia].
  - apply IH. lia.
Qed.

Lemma has_marker_spec line :
  has_marker line = true ↔ is_Some (spec_domain line).
Proof.
  unfold has_marker, spec_domain. rewrite bool_decide_eq_true.
  rewrite (find_after_marker line 0) by lia.
  destruct (after_marker line); simpl; split; intros [? [=]]; eauto.
Qed.

(** With no slash before the marker, the second field between slashes
    is the domain. *)
Lemma second_field_domain line rest :
  slash_before_marker line = false →
  after_marker line = Some rest →
  Str.split "/" line !! 1%nat = Some (until_char "/" rest).
Proof.
  induction line as [|a line IH];
    rewrite after_marker_unfold, slash_before_marker_unfold;
    destruct (String.prefix marker _) eqn:Hp.
  - discriminate.
  - discriminate.
  - intros _ Hr. apply prefix_decompose in Hp as [post Hpost].
    rewrite Hpost in Hr |- *. injection Hr as <-.
    change (marker +:+ post) with ("server=" +:+ String "/" post).
    rewrite split_first_field
      by (simpl; rewrite !not_elem_of_cons;
          repeat (split; [discriminate|]); apply not_elem_of_nil).
    apply (split_head "/" post).
  - intros [Ha Hs]%orb_false_iff Hr. specialize (IH Hs Hr).
    rewrite Hr, bool_decide_eq_true_2, andb_true_r in Ha by eauto.
    rewrite split_cons_other
      by (intros ->; rewrite Ascii.eqb_refl in Ha; discriminate).
    destruct (Str.split "/" line) as [|h t]; [discriminate|]. exact IH.
Qed.

Lemma collected_domains_spec (lines : list string) :
  Forall (λ line, slash_before_marker line = false) lines →
  collected_domains lines = domains_spec lines.
Proof.
  induction 1 as [|line lines Hs _ IH]; [reflexivity|].
  unfold collected_domains, domains_spec in *. simpl.
  pose proof (has_marker_spec line) as Hm.
  destruct (has_marker line), (spec_domain line) as [d|] eqn:Hd.
  - simpl. rewrite IH. f_equal.
    unfold spec_domain in Hd.
    destruct (after_marker line) as [rest|] eqn:Hr; [|discriminate].
    injection Hd as <-. unfold collected_domain.
    now rewrite (second_field_domain line rest Hs Hr).
  - destruct Hm as [Hm _]. now destruct (Hm eq_refl).
  - destruct Hm as [_ Hm]. discriminate Hm. eauto.
  - exact IH.
Qed.

End marker_facts.

Section domain_facts.
Variable requests_get : string → response.
Implicit Types line : string.
Implicit Types w : world.

Lemma marker_second_field line :
  Str.find line "server=/" ≠ -1 →
  Str.split "/" line !! 1%nat = Some (collected_domain line).
Proof.
  intros Hf.
  assert (2 ≤ length (Str.split "/" line))%nat as Hlen.
  { apply split_length_has_char.
    apply (find_from_has_char _ "server=/" line 0 Hf).
    simpl. rewrite !elem_of_cons. auto 10. }
  unfold collected_domain.
  destruct (Str.split "/" line !! 1%nat) as [d|] eqn:Hd; [reflexivity|].
  apply lookup_ge_None in Hd. lia.
Qed.

(** The [except] branch is never entered. *)
Lemma extract_line_handler_unused line (handler : M (list string) unit) s :
  try_except_IndexError (extract_line line) handler s = extract_line line s.
Proof.
  unfold try_except_IndexError, extract_line, has_marker.
  destruct (bool_decide_reflect (Str.find line "server=/" ≠ -1)) as [Hf|_];
    [|reflexivity].
  unfold mbind, M_bind, bind, lift, Str.index.
  rewrite (marker_second_field line Hf). reflexivity.
Qed.

Lemma extract_lines_cons line rest (s : list string * world) :
  extract_lines (line :: rest) s =
  match try_except_IndexError (extract_line line)
          (log_warning ("unexpected format: " +:+ line)) s with
  | (Ok _, s') => extract_lines rest s'
  | (Raise e, s') => (Raise e, s')
  end.
Proof. reflexivity. Qed.

Lemma extract_line_token line (acc : list string) w :
  extract_line line (acc, w) =
  (Ok tt, (acc ++ (if has_marker line then [collected_domain line] else []), w)).
Proof.
  unfold extract_line, has_marker.
  destruct (bool_decide_reflect (Str.find line "server=/" ≠ -1)) as [Hf|_].
  - unfold mbind, M_bind, bind, lift, Str.index.
    rewrite (marker_second_field line Hf). reflexivity.
  - unfold ret. rewrite app_nil_r. reflexivity.
Qed.

Lemma extract_lines_domains lines (acc : list string) w :
  extract_lines lines (acc, w) = (Ok tt, (acc ++ collected_domains lines, w)).
Proof.
  revert acc. induction lines as [|line rest IH]; intros acc.
  - unfold collected_domains. simpl. rewrite app_nil_r. reflexivity.
  - rewrite extract_lines_cons, extract_line_handler_unused.
    rewrite extract_line_token, IH, <- app_assoc.
    unfold collected_domains. simpl. destruct (has_marker line); reflexivity.
Qed.

Lemma get_domains_from_fetched (u : string) (acc : list string) w :
  status_code (requests_get u) = 200 →
  get_domains_from requests_get u (acc, w) =
  (Ok (acc ++ collected_domains (text_lines (requests_get u))),
   (acc ++ collected_domains (text_lines (requests_get u)),
    say (Info ("fetching " +:+ u)) w)).
Proof.
  intros Hs. unfold get_domains_from.
  unfold mbind at 1, M_bind at 1, bind at 1, log_info, emit. simpl.
  rewrite bool_decide_eq_false_2 by (rewrite Hs; auto).
  unfold mbind, M_bind, bind. rewrite extract_lines_domains. reflexivity.
Qed.

End domain_facts.




(** C10. A line that holds [server=/] holds a slash, so it splits into
    at least two fields and [elems[1]] is there: the lookup raises no
    IndexError, and the handler of the loop is never run for the
    line. *)
Theorem domain_index_in_range
    (line : string) (handler : M (list string) unit)
    (s : list string * world) :
  Str.find line "server=/" ≠ -1 →
  "/"%char ∈ list_ascii_of_string line ∧
  (2 ≤ length (Str.split "/" line))%nat ∧
  (∃ domain, Str.index (Str.split "/" line) 1 = Ok domain) ∧
  try_except_IndexError (extract_line line) handler s = extract_line line s ∧
  (extract_line line s).1 = Ok tt.
Proof.
  intros Hf.
  assert ("/"%char ∈ list_ascii_of_string line) as Hc.
  { apply (find_from_has_char _ "server=/" line 0 Hf).
    simpl. rewrite !elem_of_cons. auto 10. }
  split; [exact Hc|].
  split; [apply split_length_has_char, Hc|].
  split.
  - exists (collected_domain line). unfold Str.index.
    rewrite (marker_second_field line Hf). reflexivity.
  - split; [apply extract_line_handler_unused|].
    destruct s as [acc w]. rewrite extract_line_token. reflexivity.
Qed.

Lemma domain_index_in_range_witness :
  let line := "server=/example.cn/114.114.114.114" in
  let s := ([], empty_world) in
  "/"%char ∈ list_ascii_of_string line ∧
  (2 ≤ length (Str.split "/" line))%nat ∧
  (∃ domain, Str.index (Str.split "/" line) 1 = Ok domain) ∧
  try_except_IndexError (extract_line line) (raise ValueError) s =
    extract_line line s ∧
  (extract_line line s).1 = Ok tt.
Proof.
  apply (domain_index_in_range "server=/example.cn/114.114.114.114"
           (raise ValueError) ([], empty_world)).
  vm_compute. discriminate.
Defined.

(** * More on the script *)

(** ** Fields and separators *)

Section split_facts.
Implicit Types s sub pre post x y : string.
Implicit Types c : ascii.
Implicit Types fields : list string.

Lemma append_assoc x y z : (x +:+ y) +:+ z = x +:+ y +:+ z.
Proof.
  induction x as [|a x IH]; [reflexivity|].
  change (String a ((x +:+ y) +:+ z) = String a (x +:+ y +:+ z)).
  rewrite IH. reflexivity.
Qed.

(** [find] finds what is there: the text around the first occurrence. *)
Lemma find_from_found sub s i :
  Str.find_from sub s i ≠ -1 → ∃ pre post, s = pre +:+ sub +:+ post.
Proof.
  revert i. induction s as [|b s IH]; intros i Hf;
    rewrite find_from_unfold in Hf.
  - destruct (String.prefix sub "") eqn:Hp; [|congruence].
    destruct (prefix_decompose _ _ Hp) as [post Hpost].
    exists EmptyString, post. exact Hpost.
  - destruct (String.prefix sub (String b s)) eqn:Hp.
    + destruct (prefix_decompose _ _ Hp) as [post Hpost].
      exists EmptyString, post. exact Hpost.
    + destruct (IH _ Hf) as (pre & post & ->).
      exists (String b pre), post. reflexivity.
Qed.

Lemma split_cons_sep c s :
  Str.split c (String c s) = EmptyString :: Str.split c s.
Proof. simpl. rewrite Ascii.eqb_refl. reflexivity. Qed.

(** A separator ends the fields before it and starts those after it. *)
Lemma split_app_sep c x y :
  Str.split c (x +:+ String c y) = Str.split c x ++ Str.split c y.
Proof.
  induction x as [|a x IH].
  - change (EmptyString +:+ String c y) with (String c y).
    rewrite split_cons_sep. reflexivity.
  - change (String a x +:+ String c y) with (String a (x +:+ String c y)).
    destruct (Ascii.eqb_spec a c) as [->|Hne].
    + rewrite !split_cons_sep, IH. reflexivity.
    + rewrite !split_cons_other by exact Hne. rewrite IH.
      pose proof (split_nonempty c x).
      destruct (Str.split c x); [contradiction | reflexivity].
Qed.

Lemma split_sep_free c x :
  c ∉ list_ascii_of_string x → Str.split c x = [x].
Proof.
  induction x as [|a x IH]; intros Hc; [reflexivity|].
  simpl in Hc. apply not_elem_of_cons in Hc as [Hne Hc].
  rewrite split_cons_other by auto. rewrite (IH Hc). reflexivity.
Qed.

Lemma split_fields_sep_free c s :
  Forall (λ f, c ∉ list_ascii_of_string f) (Str.split c s).
Proof.
  induction s as [|a s IH].
  - simpl. constructor; [apply not_elem_of_nil | constructor].
  - destruct (Ascii.eqb_spec a c) as [->|Hne].
    + rewrite split_cons_sep. constructor; [apply not_elem_of_nil | exact IH].
    + rewrite split_cons_other by exact Hne.
      destruct (Str.split c s) as [|h t].
      * constructor; [|constructor]. simpl.
        apply not_elem_of_cons. split; [auto | apply not_elem_of_nil].
      * inversion IH as [|? ? Hh Ht]; subst. constructor; [|exact Ht].
        simpl. apply not_elem_of_cons. auto.
Qed.

Lemma join_cons c x fields :
  fields ≠ [] →
  Text.join c (x :: fields) = x +:+ String c (Text.join c fields).
Proof. destruct fields; [contradiction | reflexivity]. Qed.

Lemma join_app c (F1 F2 : list string) :
  F1 ≠ [] → F2 ≠ [] →
  Text.join c (F1 ++ F2) = Text.join c F1 +:+ String c (Text.join c F2).
Proof.
  intros H1 H2. induction F1 as [|x F1 IH]; [contradiction|].
  destruct F1 as [|y F1].
  - simpl app. rewrite join_cons by exact H2. reflexivity.
  - change ((x :: y :: F1) ++ F2) with (x :: ((y :: F1) ++ F2)).
    rewrite join_cons by discriminate.
    rewrite IH by discriminate.
    rewrite (join_cons c x (y :: F1)) by discriminate.
    rewrite append_assoc. reflexivity.
Qed.

(** Joining the fields of a text gives the text back. *)
Lemma join_split c s : Text.join c (Str.split c s) = s.
Proof.
  induction s as [|a s IH]; [reflexivity|].
  pose proof (split_nonempty c s) as Hne.
  destruct (Ascii.eqb_spec a c) as [->|Hac].
  - rewrite split_cons_sep, join_cons by exact Hne. rewrite IH. reflexivity.
  - rewrite split_cons_other by exact Hac.
    destruct (Str.split c s) as [|h t]; [contradiction|].
    destruct t as [|h' t].
    + simpl in *. rewrite IH. reflexivity.
    + rewrite join_cons in * by discriminate.
      change (String a h +:+ String c (Text.join c (h' :: t)))
        with (String a (h +:+ String c (Text.join c (h' :: t)))).
      rewrite IH. reflexivity.
Qed.

(** Splitting joined fields gives the fields back, when none of them
    holds the separator. *)
Lemma split_join c fields :
  fields ≠ [] → Forall (λ f, c ∉ list_ascii_of_string f) fields →
  Str.split c (Text.join c fields) = fields.
Proof.
  intros Hne Hall. induction fields as [|x fields IH]; [contradiction|].
  inversion Hall as [|? ? Hx Hrest]; subst.
  destruct fields as [|y fields].
  - simpl. apply split_sep_free, Hx.
  - rewrite join_cons by discriminate.
    rewrite split_app_sep, (split_sep_free c x Hx).
    rewrite IH by (discriminate || assumption). reflexivity.
Qed.

Lemma marker_shape (a b pre post : string) :
  pre +:+ ("|" +:+ a +:+ "|" +:+ b +:+ "|") +:+ post =
  pre +:+ String "|" (a +:+ String "|" (b +:+ String "|" post)).
Proof.
  apply (f_equal (String.append pre)).
  change (String "|" ((a +:+ String "|" (b +:+ "|")) +:+ post) =
          String "|" (a +:+ String "|" (b +:+ String "|" post))).
  apply (f_equal (String "|")). rewrite append_assoc.
  apply (f_equal (String.append a)).
  change (String "|" ((b +:+ "|") +:+ post) =
          String "|" (b +:+ String "|" post)).
  apply (f_equal (String "|")). rewrite append_assoc. reflexivity.
Qed.

(** A marker [|a|b|] is in a line exactly when [a] and [b] are
    neighbouring fields with a field before and a field after them. *)
Lemma marker_fields (a b line : string) :
  "|"%char ∉ list_ascii_of_string a → "|"%char ∉ list_ascii_of_string b →
  Str.find line ("|" +:+ a +:+ "|" +:+ b +:+ "|") ≠ -1 ↔
  ∃ F1 F2, F1 ≠ [] ∧ F2 ≠ [] ∧ Str.split "|" line = F1 ++ [a; b] ++ F2.
Proof.
  intros Ha Hb. split.
  - intros (pre & post & ->)%find_from_found.
    exists (Str.split "|" pre), (Str.split "|" post).
    split; [apply split_nonempty|]. split; [apply split_nonempty|].
    rewrite marker_shape.
    rewrite !split_app_sep, (split_sep_free _ a Ha), (split_sep_free _ b Hb).
    reflexivity.
  - intros (F1 & F2 & H1 & H2 & Hs).
    rewrite <- (join_split "|" line), Hs.
    rewrite join_app by (assumption || discriminate).
    change ([a; b] ++ F2) with (a :: b :: F2).
    rewrite join_cons by discriminate. rewrite join_cons by exact H2.
    rewrite <- marker_shape. apply find_from_append. lia.
Qed.

End split_facts.

(** ** Which exceptions a record can raise *)

Section exception_facts.
Variable netaddr_IPNetwork : string → option IPNetwork.
Implicit Types line : string.

(** [int] does not take the separators 28 to 31 for white space, as
    [str.strip] does, and it stops at 4300 digits. *)
Lemma int_separators_rejected :
  Forall (λ n, Str.int (String (ascii_of_nat n) "256") = Raise ValueError ∧
               Str.int ("256" +:+ String (ascii_of_nat n) EmptyString) =
                 Raise ValueError ∧
               Str.strip (String (ascii_of_nat n) "256") = "256")
    [28; 29; 30; 31]%nat.
Proof. repeat (apply Forall_cons_2; [vm_compute; auto|]). apply Forall_nil_2. Qed.

Lemma int_digit_limit :
  is_ok (Str.int (string_of_list_ascii (repeat "1"%char 4300))) = true ∧
  Str.int (string_of_list_ascii (repeat "1"%char 4301)) = Raise ValueError.
Proof. vm_compute. auto. Qed.

Lemma int_exn (s : string) e : Str.int s = Raise e → e = ValueError.
Proof.
  unfold Str.int. cbv zeta.
  set (body := match Str.int_rstrip (Str.int_lstrip s) with
               | String c r => _
               | EmptyString => _
               end).
  destruct body; [|congruence].
  destruct (Str.int_max_str_digits <? _); [congruence | discriminate].
Qed.

Lemma loghelper_exn (arg : Z) e : Math.loghelper arg = Raise e → e = ValueError.
Proof.
  unfold Math.loghelper. destruct (arg <=? 0); [congruence|].
  destruct (Float.of_Z arg) as [s|s| |s m x] eqn:Hx.
  - destruct (Float.log (S754_zero s)); congruence.
  - destruct (Math.frexp arg) as [x' n].
    destruct (Float.log x'); [|congruence].
    destruct (Float.log (Float.of_Z 2)); congruence.
  - destruct (Float.log S754_nan); congruence.
  - destruct (Float.log (S754_finite s m x)); congruence.
Qed.

Lemma loghelper_nonpositive (arg : Z) :
  arg ≤ 0 → Math.loghelper arg = Raise ValueError.
Proof.
  intros Ha. unfold Math.loghelper.
  destruct (Z.leb_spec arg 0); [reflexivity | lia].
Qed.

Lemma cidr_prefix_length_nonpositive (count : Z) :
  count ≤ 0 → cidr_prefix_length count = Raise ValueError.
Proof.
  intros Hc. unfold cidr_prefix_length, Math.log.
  rewrite (loghelper_nonpositive count Hc). unfold rbind. reflexivity.
Qed.

Lemma cidr_prefix_length_exn (count : Z) e :
  cidr_prefix_length count = Raise e → e ≠ IndexError.
Proof.
  unfold cidr_prefix_length, Math.log, rbind.
  destruct (Math.loghelper count) as [num|e1] eqn:H1.
  - destruct (Math.loghelper 2) as [den|e2] eqn:H2.
    + destruct (Float.is_zero den); [congruence|].
      destruct (Float.sub (Float.of_Z 32) (Float.div num den));
        unfold Float.to_int; congruence.
    + apply loghelper_exn in H2. congruence.
  - apply loghelper_exn in H1. congruence.
Qed.

(** Only a missing field raises IndexError. *)
Lemma ipv4_network_IndexError line :
  ipv4_network netaddr_IPNetwork line = Raise IndexError ↔
  (length (Str.split "|" line) < 5)%nat.
Proof.
  split; [|apply short_line_IndexError].
  intros Hr. destruct (Nat.lt_ge_cases (length (Str.split "|" line)) 5)
    as [|Hge]; [assumption|exfalso].
  unfold ipv4_network, Str.index, new_IPNetwork in Hr.
  destruct (Str.split "|" line !! 3%nat) as [s|] eqn:H3;
    [|apply lookup_ge_None in H3; lia].
  destruct (Str.split "|" line !! 4%nat) as [v|] eqn:H4;
    [|apply lookup_ge_None in H4; lia].
  unfold rbind in Hr.
  destruct (Str.int v) as [count|e] eqn:Hv;
    [|apply int_exn in Hv; congruence].
  destruct (cidr_prefix_length count) as [p|e] eqn:Hp;
    [|apply cidr_prefix_length_exn in Hp; congruence].
  destruct (netaddr_IPNetwork _); discriminate.
Qed.

Lemma ipv6_network_IndexError line :
  ipv6_network netaddr_IPNetwork line = Raise IndexError ↔
  (length (Str.split "|" line) < 5)%nat.
Proof.
  split; [|apply short_line_IndexError].
  intros Hr. destruct (Nat.lt_ge_cases (length (Str.split "|" line)) 5)
    as [|Hge]; [assumption|exfalso].
  unfold ipv6_network, Str.index, new_IPNetwork in Hr.
  destruct (Str.split "|" line !! 3%nat) as [s|] eqn:H3;
    [|apply lookup_ge_None in H3; lia].
  destruct (Str.split "|" line !! 4%nat) as [v|] eqn:H4;
    [|apply lookup_ge_None in H4; lia].
  unfold rbind in Hr. destruct (netaddr_IPNetwork _); discriminate.
Qed.

End exception_facts.

(** ** More on the loop of update_ip_list *)

Ltac no_such_char :=
  simpl; rewrite ?not_elem_of_cons;
  repeat (split; [discriminate|]); apply not_elem_of_nil.

Section loop_facts.
Variable netaddr_IPNetwork : string → option IPNetwork.
Implicit Types line : string.
Implicit Types acc : list IPNetwork.
Implicit Types w : world.

Abbreviation step_of line :=
  (try_except_IndexError (parse_line netaddr_IPNetwork line)
     (log_warning ("unexpected format: " +:+ line))).

Lemma relevant_ipv4_fields line :
  relevant_ipv4 line = true ↔
  ∃ F1 F2, F1 ≠ [] ∧ F2 ≠ [] ∧
           Str.split "|" line = F1 ++ ["CN"; "ipv4"] ++ F2.
Proof.
  unfold relevant_ipv4. rewrite bool_decide_eq_true.
  apply (marker_fields "CN" "ipv4" line); no_such_char.
Qed.

Lemma relevant_ipv6_fields line :
  relevant_ipv6 line = true ↔
  ∃ F1 F2, F1 ≠ [] ∧ F2 ≠ [] ∧
           Str.split "|" line = F1 ++ ["CN"; "ipv6"] ++ F2.
Proof.
  unfold relevant_ipv6. rewrite bool_decide_eq_true.
  apply (marker_fields "CN" "ipv6" line); no_such_char.
Qed.

Lemma relevant_four_fields line :
  relevant line = true → (4 ≤ length (Str.split "|" line))%nat.
Proof.
  unfold relevant.
  intros [H|H]%orb_true_iff;
    [apply relevant_ipv4_fields in H | apply relevant_ipv6_fields in H];
    destruct H as (F1 & F2 & H1 & H2 & ->);
    destruct F1, F2; try contradiction;
    rewrite !length_app; simpl; lia.
Qed.

(** One line: a skipped line leaves a warning and nothing else, any
    other line leaves the log as it is. *)
Lemma step_log line acc w :
  ∃ r acc',
    step_of line (acc, w) =
      (r, (acc', if skipped line then say (unexpected_format line) w else w)) ∧
    (skipped line = true → r = Ok tt ∧ acc' = acc).
Proof.
  unfold skipped, relevant.
  pose proof (ipv4_network_IndexError netaddr_IPNetwork line) as H4.
  pose proof (ipv6_network_IndexError netaddr_IPNetwork line) as H6.
  unfold try_except_IndexError, parse_line.
  unfold mbind, M_bind, bind, lift, append, ret, log_warning, emit,
    get_local, set_local.
  destruct (bool_decide_reflect (length (Str.split "|" line) < 5)%nat)
    as [Hlt|Hge].
  - rewrite (proj2 H4 Hlt), (proj2 H6 Hlt).
    destruct (relevant_ipv4 line), (relevant_ipv6 line); simpl;
      eexists _, _; (split; [reflexivity|]); auto; discriminate.
  - rewrite andb_false_r.
    destruct (relevant_ipv4 line).
    + destruct (ipv4_network netaddr_IPNetwork line) as [n4|e4] eqn:He4.
      * destruct (relevant_ipv6 line).
        -- destruct (ipv6_network netaddr_IPNetwork line) as [n6|e6] eqn:He6.
           ++ eexists _, _. split; [reflexivity | discriminate].
           ++ destruct e6;
                try (eexists _, _; split; [reflexivity | discriminate]).
              exfalso. apply Hge, H6. reflexivity.
        -- eexists _, _. split; [reflexivity | discriminate].
      * destruct e4;
          try (eexists _, _; split; [reflexivity | discriminate]).
        exfalso. apply Hge, H4. reflexivity.
    + destruct (relevant_ipv6 line).
      * destruct (ipv6_network netaddr_IPNetwork line) as [n6|e6] eqn:He6.
        -- eexists _, _. split; [reflexivity | discriminate].
        -- destruct e6;
             try (eexists _, _; split; [reflexivity | discriminate]).
           exfalso. apply Hge, H6. reflexivity.
      * eexists _, _. split; [reflexivity | discriminate].
Qed.

Lemma step_irrelevant line acc w :
  relevant line = false → step_of line (acc, w) = (Ok tt, (acc, w)).
Proof.
  unfold relevant. intros [H4 H6]%orb_false_iff.
  unfold try_except_IndexError, parse_line.
  unfold mbind, M_bind, bind, ret. rewrite H4, H6. reflexivity.
Qed.

End loop_facts.

Section loop_properties.
Variable netaddr : string → option IPNetwork.
Implicit Types line : string.
Implicit Types acc : list IPNetwork.
Implicit Types w : world.

Lemma parse_lines_all_irrelevant lines acc w :
  Forall (λ line, relevant line = false) lines →
  parse_lines netaddr lines (acc, w) = (Ok tt, (acc, w)).
Proof.
  induction 1 as [|line rest Hl _ IH]; [reflexivity|].
  rewrite parse_lines_cons, (step_irrelevant netaddr line acc w Hl).
  exact IH.
Qed.

End loop_properties.

(** X1. A line is taken for an IPv4 (IPv6) record exactly when [CN] and
    [ipv4] ([ipv6]) are neighbouring fields between bars, with a field
    before them and a field after them.  So a relevant line has a
    fourth field: [elems[3]] never raises. *)
Theorem relevant_iff_neighbouring_fields (line : string) :
  (relevant_ipv4 line = true ↔
   ∃ F1 F2, F1 ≠ [] ∧ F2 ≠ [] ∧
            Str.split "|" line = F1 ++ ["CN"; "ipv4"] ++ F2) ∧
  (relevant_ipv6 line = true ↔
   ∃ F1 F2, F1 ≠ [] ∧ F2 ≠ [] ∧
            Str.split "|" line = F1 ++ ["CN"; "ipv6"] ++ F2) ∧
  (relevant line = true →
   ∃ field, Str.index (Str.split "|" line) 3 = Ok field).
Proof.
  split; [apply relevant_ipv4_fields|]. split; [apply relevant_ipv6_fields|].
  intros Hlen%relevant_four_fields. unfold Str.index.
  destruct (Str.split "|" line !! 3%nat) as [field|] eqn:H3; [eauto|].
  apply lookup_ge_None in H3. lia.
Qed.

(** X2. When the loop gets through the lines, the log has gained one
    warning for each relevant line without a fifth field, in the order
    of the lines, and nothing else; no file is touched. *)
Theorem parse_lines_warnings
    (netaddr : string → option IPNetwork) (lines : list string)
    (acc acc' : list IPNetwork) (w w' : world) :
  parse_lines netaddr lines (acc, w) = (Ok tt, (acc', w')) →
  log w' = log w ++ map unexpected_format (List.filter skipped lines) ∧
  files w' = files w.
Proof.
  revert acc w. induction lines as [|line rest IH]; intros acc w Hrun.
  - injection Hrun as _ <-. simpl. rewrite app_nil_r. auto.
  - rewrite parse_lines_cons in Hrun.
    destruct (step_log netaddr line acc w) as (r & acc1 & Hstep & _).
    rewrite Hstep in Hrun. destruct r as [[]|e]; [|discriminate].
    apply IH in Hrun as [Hlog Hfiles]. simpl.
    destruct (skipped line); [|auto].
    rewrite Hlog, Hfiles. simpl. rewrite <- app_assoc. auto.
Qed.

Lemma parse_lines_warnings_witness :
  let lines := [record_1_0_0_0; "|CN|ipv4|"; "apnic|JP|ipv4|1.0.16.0|4096";
                "x|CN|ipv6|"] in
  let w' := {| log := [unexpected_format "|CN|ipv4|";
                       unexpected_format "x|CN|ipv6|"];
               files := ∅ |} in
  log w' = log empty_world ++ map unexpected_format (List.filter skipped lines) ∧
  files w' = files empty_world.
Proof.
  apply (parse_lines_warnings Dotted.network
           [record_1_0_0_0; "|CN|ipv4|"; "apnic|JP|ipv4|1.0.16.0|4096";
            "x|CN|ipv6|"]
           [] [net_1_0_0_0_24] empty_world).
  vm_compute. reflexivity.
Defined.

(** X3. A record in the standard form [registry|CN|ipv4|start|value|
    date|status], its fields free of bars and its value a number, is
    read field by field: [start] and the prefix length of [value] go to
    netaddr, and the network it gives is appended. *)
Theorem standard_record_parsed
    (netaddr : string → option IPNetwork)
    (registry start value date status : string) (count p : Z)
    (n : IPNetwork) (rest : list string) (acc : list IPNetwork) (w : world) :
  Forall (λ f, "|"%char ∉ list_ascii_of_string f)
    [registry; start; value; date; status] →
  Str.int value = Ok count →
  cidr_prefix_length count = Ok p →
  netaddr (start +:+ "/" +:+ Str.of_int p +:+ nl) = Some n →
  let line := delegation_record registry "CN" "ipv4" start value date status in
  Str.split "|" line = [registry; "CN"; "ipv4"; start; value; date; status] ∧
  parse_lines netaddr (line :: rest) (acc, w) =
  parse_lines netaddr rest (acc ++ [n], w).
Proof.
  intros Hfree Hv Hp Hn line.
  assert (Str.split "|" line =
          [registry; "CN"; "ipv4"; start; value; date; status]) as Hs.
  { unfold line, delegation_record. apply split_join; [discriminate|].
    inversion Hfree as [|? ? H1 Hf1]; subst.
    inversion Hf1 as [|? ? H2 Hf2]; subst.
    inversion Hf2 as [|? ? H3 Hf3]; subst.
    inversion Hf3 as [|? ? H4 Hf4]; subst.
    inversion Hf4 as [|? ? H5 _]; subst.
    repeat (constructor; [assumption || no_such_char|]). constructor. }
  split; [exact Hs|].
  assert (ipv4_record line start count) as Hrec.
  { split; [|split; [|split]].
    - apply relevant_ipv4_fields.
      exists [registry], [start; value; date; status].
      split; [discriminate|]. split; [discriminate|]. exact Hs.
    - apply not_true_iff_false. intros H6.
      apply relevant_ipv6_fields in H6 as (F1 & F2 & H1 & H2 & H6).
      rewrite Hs in H6.
      destruct F1 as [|a [|b [|c [|d [|e [|f F1]]]]]];
        try contradiction; simpl in H6; simplify_eq; try discriminate.
      destruct F1 as [|x [|y F1]]; discriminate.
    - rewrite Hs. reflexivity.
    - exists value. rewrite Hs. auto. }
  pose proof Hrec as (H4 & H6 & _).
  apply parse_lines_ipv4; [exact H4 | exact H6 |].
  eapply ipv4_record_network; eassumption.
Qed.

Lemma standard_record_parsed_witness :
  let line := delegation_record "apnic" "CN" "ipv4" "1.0.1.0" "256"
                "20110414" "allocated" in
  Str.split "|" line =
    ["apnic"; "CN"; "ipv4"; "1.0.1.0"; "256"; "20110414"; "allocated"] ∧
  parse_lines Dotted.network (line :: [record_192]) ([], empty_world) =
  parse_lines Dotted.network [record_192] ([] ++ [net_1_0_1_0_24], empty_world).
Proof.
  apply (standard_record_parsed Dotted.network "apnic" "1.0.1.0" "256"
           "20110414" "allocated" 256 24).
  - repeat (constructor; [no_such_char|]). constructor.
  - reflexivity.
  - vm_compute; reflexivity.
  - vm_compute; reflexivity.
Defined.

(** X4. Lines that are not relevant do not matter: the loop ends the
    same way, with the same list and the same log, when they are taken
    out of the feed. *)
Theorem parse_lines_relevant_only
    (netaddr : string → option IPNetwork) (lines : list string)
    (acc : list IPNetwork) (w : world) :
  parse_lines netaddr lines (acc, w) =
  parse_lines netaddr (List.filter relevant lines) (acc, w).
Proof.
  revert acc w. induction lines as [|line rest IH]; intros acc w;
    [reflexivity|].
  simpl. destruct (relevant line) eqn:Hrel.
  - rewrite !parse_lines_cons.
    destruct (try_except_IndexError _ _ _) as [[[]|e] [acc1 w1]];
      [apply IH | reflexivity].
  - rewrite parse_lines_cons, (step_irrelevant netaddr line acc w Hrel).
    apply IH.
Qed.

(** X5. A relevant IPv4 record whose count is zero or less ends the
    loop with ValueError, the domain error of [math.log]; the list and
    the log are left as they were. *)
Theorem nonpositive_count_aborts
    (netaddr : string → option IPNetwork) (line value : string) (count : Z)
    (rest : list string) (acc : list IPNetwork) (w : world) :
  relevant_ipv4 line = true →
  Str.split "|" line !! 4%nat = Some value →
  Str.int value = Ok count →
  count ≤ 0 →
  parse_lines netaddr (line :: rest) (acc, w) = (Raise ValueError, (acc, w)).
Proof.
  intros H4 He4 Hv Hc.
  apply parse_lines_ipv4_raise; [exact H4| |discriminate].
  unfold ipv4_network, Str.index. rewrite He4.
  destruct (Str.split "|" line !! 3%nat) as [s|] eqn:He3.
  - unfold rbind. rewrite Hv, (cidr_prefix_length_nonpositive count Hc).
    reflexivity.
  - apply lookup_ge_None in He3. apply lookup_lt_Some in He4. lia.
Qed.

Lemma nonpositive_count_aborts_witness :
  parse_lines Dotted.network
    ["apnic|CN|ipv4|1.0.0.0|0|20110414|allocated"; record_1_0_0_0]
    ([], empty_world) =
  (Raise ValueError, ([], empty_world)).
Proof.
  apply (nonpositive_count_aborts Dotted.network
           "apnic|CN|ipv4|1.0.0.0|0|20110414|allocated" "0" 0).
  - reflexivity.
  - reflexivity.
  - reflexivity.
  - lia.
Defined.

(** X6. When netaddr does not take the text [start/prefix] of a
    relevant IPv4 record, the loop ends with AddrFormatError; the list
    and the log are left as they were. *)
Theorem rejected_network_aborts
    (netaddr : string → option IPNetwork) (line ip_start value : string)
    (count p : Z) (rest : list string) (acc : list IPNetwork) (w : world) :
  relevant_ipv4 line = true →
  Str.split "|" line !! 3%nat = Some ip_start →
  Str.split "|" line !! 4%nat = Some value →
  Str.int value = Ok count →
  cidr_prefix_length count = Ok p →
  netaddr (ip_start +:+ "/" +:+ Str.of_int p +:+ nl) = None →
  parse_lines netaddr (line :: rest) (acc, w) =
  (Raise AddrFormatError, (acc, w)).
Proof.
  intros H4 He3 He4 Hv Hp Hn.
  apply parse_lines_ipv4_raise; [exact H4| |discriminate].
  unfold ipv4_network, Str.index, new_IPNetwork, rbind.
  rewrite He3, He4, Hv, Hp, Hn. reflexivity.
Qed.

Lemma rejected_network_aborts_witness :
  parse_lines Dotted.network
    ["apnic|CN|ipv4|1.0.0.0|8589934592|20110414|allocated"; record_1_0_0_0]
    ([], empty_world) =
  (Raise AddrFormatError, ([], empty_world)).
Proof.
  apply (rejected_network_aborts Dotted.network
           "apnic|CN|ipv4|1.0.0.0|8589934592|20110414|allocated"
           "1.0.0.0" "8589934592" 8589934592 (-1)).
  - reflexivity.
  - reflexivity.
  - reflexivity.
  - reflexivity.
  - vm_compute; reflexivity.
  - vm_compute; reflexivity.
Defined.

(** X7. The value of an IPv6 record goes to netaddr as it stands, with
    no conversion by the script: the network netaddr reads from
    [start/value] is appended, and when netaddr does not take the text
    the loop ends with AddrFormatError. *)
Theorem ipv6_value_verbatim
    (netaddr : string → option IPNetwork) (line ip_start value : string)
    (rest : list string) (acc : list IPNetwork) (w : world) :
  relevant_ipv4 line = false →
  relevant_ipv6 line = true →
  Str.split "|" line !! 3%nat = Some ip_start →
  Str.split "|" line !! 4%nat = Some value →
  parse_lines netaddr (line :: rest) (acc, w) =
  match netaddr (ip_start +:+ "/" +:+ value +:+ nl) with
  | Some n => parse_lines netaddr rest (acc ++ [n], w)
  | None => (Raise AddrFormatError, (acc, w))
  end.
Proof.
  intros H4 H6 He3 He4. rewrite parse_lines_cons.
  unfold try_except_IndexError, parse_line.
  unfold mbind, M_bind, bind, lift, append, ret, get_local, set_local.
  rewrite H4, H6.
  unfold ipv6_network, Str.index, new_IPNetwork, rbind. rewrite He3, He4.
  destruct (netaddr _); reflexivity.
Qed.

Lemma ipv6_value_verbatim_witness :
  let line := "apnic|CN|ipv6|2001:250::|35|20000426|allocated" in
  parse_lines Dotted.network [line; record_1_0_0_0] ([], empty_world) =
  match Dotted.network ("2001:250::" +:+ "/" +:+ "35" +:+ nl) with
  | Some n => parse_lines Dotted.network [record_1_0_0_0]
                ([] ++ [n], empty_world)
  | None => (Raise AddrFormatError, ([], empty_world))
  end.
Proof.
  apply (ipv6_value_verbatim Dotted.network
           "apnic|CN|ipv6|2001:250::|35|20000426|allocated"
           "2001:250::" "35"); reflexivity.
Defined.

(** X8. A feed that is fetched but holds no relevant line is no error:
    the run ends normally and the list file is written with no line at
    all, whatever it held before. *)
Theorem irrelevant_feed_empties_list
    (netaddr : string → option IPNetwork) (str : IPNetwork → string)
    (get : string → response) (w : world) :
  status_code (get url) = 200 →
  Forall (λ line, relevant line = false) (text_lines (get url)) →
  ∃ w', update_ip_list netaddr str get w = (Ok tt, w') ∧
        files w' = <[save_to_file := []]> (files w).
Proof.
  intros H200 Hirr. rewrite update_ip_list_fetched by exact H200.
  rewrite (parse_lines_all_irrelevant netaddr _ _ _ Hirr).
  eexists. split; reflexivity.
Qed.

Lemma irrelevant_feed_empties_list_witness :
  ∃ w', update_ip_list Dotted.network Dotted.str
          (serve 200 ["apnic|JP|ipv4|1.0.16.0|4096|20110412|allocated";
                      "# a comment"])
          {| log := []; files := {[save_to_file := ["1.0.0.0/8" +:+ nl]]} |}
        = (Ok tt, w') ∧
        files w' =
          <[save_to_file := []]>
            (files {| log := [];
                      files := {[save_to_file := ["1.0.0.0/8" +:+ nl]]} |}).
Proof.
  apply (irrelevant_feed_empties_list Dotted.network Dotted.str
           (serve 200 ["apnic|JP|ipv4|1.0.16.0|4096|20110412|allocated";
                       "# a comment"])).
  - reflexivity.
  - repeat (constructor; [reflexivity|]). constructor.
Defined.

(** X9. For every unit count from 1 to 1024 the prefix length is
    [32 - ceil (log2 count)]: exact at the powers of two, and at any
    other count the prefix of the next larger block. *)
Theorem cidr_prefix_length_up_to_1024 (count : Z) :
  1 ≤ count ≤ 1024 → cidr_prefix_length count = Ok (32 - Z.log2_up count).
Proof. apply cidr_prefix_length_small. Qed.

Lemma cidr_prefix_length_up_to_1024_witness :
  cidr_prefix_length 768 = Ok (32 - Z.log2_up 768).
Proof. apply (cidr_prefix_length_up_to_1024 768). lia. Defined.

(** X10. At every power of two [2^k] with [k] from 0 to 32, other than
    29 and 31, the prefix length is [32 - k]. *)
Theorem cidr_prefix_length_powers_of_two (k : Z) :
  0 ≤ k ≤ 32 → k ≠ 29 → k ≠ 31 → cidr_prefix_length (2 ^ k) = Ok (32 - k).
Proof. apply cidr_prefix_length_pow2. Qed.

Lemma cidr_prefix_length_powers_of_two_witness :
  cidr_prefix_length (2 ^ 16) = Ok (32 - 16).
Proof. apply (cidr_prefix_length_powers_of_two 16); lia. Defined.

(** ** More on update_chn_domain_list *)

Section domain_list_facts.
Variable requests_get : string → response.
Implicit Types w : world.
Implicit Types doms : list string.

Abbreviation fetch_into :=
  (λ url : string,
     domains ← get_local;
     fetched ← call [] (get_domains_from requests_get url);
     set_local (domains ++ fetched)).

Abbreviation feed_ok := (λ u : string, status_code (requests_get u) = 200).

Lemma get_domains_from_failed (u : string) (acc : list string) w :
  status_code (requests_get u) ≠ 200 →
  get_domains_from requests_get u (acc, w) =
  (Raise (Exception (status_code (requests_get u))),
   (acc, say (Info ("fetching " +:+ u)) w)).
Proof.
  intros Hs. unfold get_domains_from.
  unfold mbind, M_bind, bind, log_info, emit, raise. simpl.
  rewrite bool_decide_eq_true_2 by exact Hs. reflexivity.
Qed.

Lemma fetch_into_ok (u : string) doms w :
  feed_ok u →
  fetch_into u (doms, w) =
  (Ok tt, (doms ++ collected_domains (text_lines (requests_get u)),
           say (Info ("fetching " +:+ u)) w)).
Proof.
  intros Hs. unfold mbind, M_bind, bind, get_local, set_local, call. simpl.
  rewrite (get_domains_from_fetched requests_get u [] w Hs). reflexivity.
Qed.

Lemma fetch_into_failed (u : string) doms w :
  ¬ feed_ok u →
  fetch_into u (doms, w) =
  (Raise (Exception (status_code (requests_get u))),
   (doms, say (Info ("fetching " +:+ u)) w)).
Proof.
  intros Hs. unfold mbind, M_bind, bind, get_local, set_local, call. simpl.
  rewrite (get_domains_from_failed u [] w Hs). reflexivity.
Qed.

Lemma for_each_cons {L A} (x : A) (xs : list A) (body : A → M L unit) s :
  for_each (x :: xs) body s =
  match body x s with
  | (Ok _, s') => for_each xs body s'
  | (Raise e, s') => (Raise e, s')
  end.
Proof. reflexivity. Qed.

Lemma fetch_all_ok (us : list string) doms w :
  Forall feed_ok us →
  ∃ w', for_each us fetch_into (doms, w) =
        (Ok tt,
         (doms ++ concat (map (λ u, collected_domains (text_lines (requests_get u)))
                            us), w')) ∧
        files w' = files w.
Proof.
  intros Hall. revert doms w.
  induction Hall as [|u us Hu _ IH]; intros doms w.
  - exists w. simpl. rewrite app_nil_r. auto.
  - rewrite for_each_cons, (fetch_into_ok u doms w Hu).
    destruct (IH (doms ++ collected_domains (text_lines (requests_get u)))
                (say (Info ("fetching " +:+ u)) w)) as (w' & -> & Hf).
    exists w'. simpl. rewrite app_assoc. auto.
Qed.

Lemma fetch_all_failed (us : list string) doms w :
  ¬ Forall feed_ok us →
  ∃ u doms' w',
    u ∈ us ∧ ¬ feed_ok u ∧
    for_each us fetch_into (doms, w) =
      (Raise (Exception (status_code (requests_get u))), (doms', w')) ∧
    files w' = files w.
Proof.
  revert doms w. induction us as [|u us IH]; intros doms w Hnot.
  - exfalso. apply Hnot. constructor.
  - rewrite for_each_cons.
    destruct (decide (feed_ok u)) as [Hu|Hu].
    + rewrite (fetch_into_ok u doms w Hu).
      destruct (IH (doms ++ collected_domains (text_lines (requests_get u)))
                  (say (Info ("fetching " +:+ u)) w))
        as (u' & doms' & w' & Hin & Hbad & -> & Hf).
      { intros Hall. apply Hnot. constructor; assumption. }
      exists u', doms', w'. repeat split; auto. right. exact Hin.
    + rewrite (fetch_into_failed u doms w Hu).
      eexists u, doms, _. repeat split; auto. left.
Qed.

Lemma domain_list_written w :
  Forall feed_ok urls →
  ∃ w', update_chn_domain_list requests_get w = (Ok tt, w') ∧
        files w' =
          <[save_to :=
              map (λ x, x +:+ nl)
                (concat (map (λ u, collected_domains (text_lines (requests_get u)))
                           urls))]>
            (files w).
Proof.
  intros Hall. unfold update_chn_domain_list, run, update_chn_domain_list_body.
  unfold mbind at 1, M_bind at 1, bind at 1.
  destruct (fetch_all_ok urls [] w Hall) as (w' & -> & Hf).
  unfold mbind, M_bind, bind, get_local, write_lines, log_info, emit. simpl.
  eexists. split; [reflexivity|]. simpl. rewrite Hf. reflexivity.
Qed.

Lemma domain_list_not_written w :
  ¬ Forall feed_ok urls →
  ∃ u w', u ∈ urls ∧ ¬ feed_ok u ∧
          update_chn_domain_list requests_get w =
            (Raise (Exception (status_code (requests_get u))), w') ∧
          files w' = files w.
Proof.
  intros Hnot. unfold update_chn_domain_list, run, update_chn_domain_list_body.
  unfold mbind at 1, M_bind at 1, bind at 1.
  destruct (fetch_all_failed urls [] w Hnot)
    as (u & doms' & w' & Hin & Hbad & -> & Hf).
  exists u, w'. auto.
Qed.

End domain_list_facts.

(** X11. The domain list is written when all three feeds answer 200,
    and only then.  When a feed answers anything else the run ends with
    the exception that carries that status, and no file is touched: the
    domains of the feeds fetched before it are dropped. *)
Theorem update_chn_domain_list_all_or_nothing
    (get : string → response) (w : world) :
  let '(r, w') := update_chn_domain_list get w in
  (is_ok r = true ↔ Forall (λ u, status_code (get u) = 200) urls) ∧
  (is_ok r = false →
   files w' = files w ∧
   ∃ u, u ∈ urls ∧ status_code (get u) ≠ 200 ∧
        r = Raise (Exception (status_code (get u)))).
Proof.
  destruct (decide (Forall (λ u, status_code (get u) = 200) urls))
    as [Hall|Hnot].
  - destruct (domain_list_written get w Hall) as (w' & -> & _).
    split; [tauto | discriminate].
  - destruct (domain_list_not_written get w Hnot)
      as (u & w' & Hin & Hbad & -> & Hf).
    split; [split; [discriminate | contradiction]|].
    intros _. split; [exact Hf|]. exists u. auto.
Qed.



(** ** download_chn_blocked_domain_list and update_all *)

Section update_all_facts.
Variable netaddr : string → option IPNetwork.
Variable str : IPNetwork → string.
Variable get : string → http_response.
Implicit Types w : world.

Abbreviation get_lines := (λ u : string, lines_of (get u)).
Abbreviation domain_step := (update_chn_domain_list get_lines).
Abbreviation blocked_step := (download_chn_blocked_domain_list get).
Abbreviation ip_step := (update_ip_list netaddr str get_lines).

Lemma download_fetched w :
  http_status (get blocked_url) = 200 →
  blocked_step w =
  (Ok tt,
   {| log := log w ++ [Info ("fetching chn blocked domain from " +:+ blocked_url)];
      files := <[blocked_save_to_file := [http_text (get blocked_url)]]>
                 (files w) |}).
Proof.
  intros Hs. unfold download_chn_blocked_domain_list, run,
    download_chn_blocked_domain_list_body.
  unfold mbind, M_bind, bind, log_info, emit, write_text, write_lines. simpl.
  rewrite bool_decide_eq_false_2 by (rewrite Hs; auto). reflexivity.
Qed.

Lemma download_failed w :
  http_status (get blocked_url) ≠ 200 →
  blocked_step w =
  (Raise (Exception (http_status (get blocked_url))),
   say (Info ("fetching chn blocked domain from " +:+ blocked_url)) w).
Proof.
  intros Hs. unfold download_chn_blocked_domain_list, run,
    download_chn_blocked_domain_list_body.
  unfold mbind, M_bind, bind, log_info, emit, raise. simpl.
  rewrite bool_decide_eq_true_2 by exact Hs. reflexivity.
Qed.

Lemma update_all_unfold w :
  update_all netaddr str get w =
  match domain_step w with
  | (Ok _, w1) =>
      match blocked_step w1 with
      | (Ok _, w2) => ip_step w2
      | (Raise e, w2) => (Raise e, w2)
      end
  | (Raise e, w1) => (Raise e, w1)
  end.
Proof.
  unfold update_all, run, proc, mbind, M_bind, bind. cbn [fst snd].
  destruct (domain_step w) as [[[]|e] w1]; cbn [fst snd]; [|reflexivity].
  destruct (blocked_step w1) as [[[]|e] w2]; cbn [fst snd]; [|reflexivity].
  destruct (ip_step w2) as [r w3]. reflexivity.
Qed.

(** The outcome of the loop of [update_ip_list] does not depend on the
    world it runs in. *)
Lemma parse_lines_any_world lines (nets : list IPNetwork) w0 w0' w :
  parse_lines netaddr lines ([], w0) = (Ok tt, (nets, w0')) →
  ∃ w', parse_lines netaddr lines ([], w) = (Ok tt, (nets, w')) ∧
        files w' = files w.
Proof.
  intros H0.
  destruct (parse_lines_result netaddr lines [] w0) as (r0 & a0 & v0 & E0 & _ & R0).
  destruct (parse_lines_result netaddr lines [] w) as (r & a & v & E & Hf & R).
  rewrite E0 in H0. injection H0 as -> -> ->.
  destruct (lines_result netaddr lines) as [ns|e].
  - destruct R0 as [_ ->], R as [-> ->]. exists v. auto.
  - discriminate.
Qed.

Lemma parse_lines_raise_any_world lines e s0 w0 w :
  parse_lines netaddr lines ([], w0) = (Raise e, s0) →
  ∃ s, parse_lines netaddr lines ([], w) = (Raise e, s) ∧
       files (snd s) = files w.
Proof.
  intros H0.
  destruct (parse_lines_result netaddr lines [] w0) as (r0 & a0 & v0 & E0 & _ & R0).
  destruct (parse_lines_result netaddr lines [] w) as (r & a & v & E & Hf & R).
  rewrite E0 in H0. injection H0 as -> <-.
  destruct (lines_result netaddr lines) as [ns|e'].
  - destruct R0 as [? _]. discriminate.
  - subst r. injection R0 as ->. exists (a, v). auto.
Qed.

Lemma ip_list_written (nets : list IPNetwork) w0 w0' w :
  http_status (get url) = 200 →
  parse_lines netaddr (Text.splitlines (http_text (get url))) ([], w0) =
    (Ok tt, (nets, w0')) →
  ∃ w', ip_step w = (Ok tt, w') ∧
        files w' =
          <[save_to_file := map (λ x, str x +:+ nl) (cidr_merge nets)]>
            (files w).
Proof.
  intros Hs Hp. rewrite update_ip_list_fetched by exact Hs. simpl.
  destruct (parse_lines_any_world _ nets w0 w0'
              (say (Info "parsing...") (say fetching w)) Hp)
    as (w' & -> & Hf).
  eexists. split; [reflexivity|]. simpl. rewrite Hf. reflexivity.
Qed.

Lemma ip_list_not_written w :
  is_ok (ip_step w).1 = false → files (ip_step w).2 = files w.
Proof.
  destruct (decide (http_status (get url) = 200)) as [Hs|Hs].
  - rewrite update_ip_list_fetched by exact Hs. simpl.
    destruct (parse_lines_result netaddr (Text.splitlines (http_text (get url)))
                [] (say (Info "parsing...") (say fetching w)))
      as (r & a & v & -> & Hf & _).
    destruct r as [[]|e]; [discriminate|]. intros _. exact Hf.
  - rewrite update_ip_list_fetch_failed by exact Hs. reflexivity.
Qed.

Lemma domain_frame w (path : string) :
  path ≠ save_to → files (domain_step w).2 !! path = files w !! path.
Proof.
  intros Hp.
  destruct (decide (Forall (λ u, status_code (get_lines u) = 200) urls))
    as [Hall|Hnot].
  - destruct (domain_list_written get_lines w Hall) as (w' & -> & Hf).
    simpl. rewrite Hf. apply lookup_insert_ne. auto.
  - destruct (domain_list_not_written get_lines w Hnot)
      as (u & w' & _ & _ & -> & Hf). simpl. rewrite Hf. reflexivity.
Qed.

Lemma blocked_frame w (path : string) :
  path ≠ blocked_save_to_file →
  files (blocked_step w).2 !! path = files w !! path.
Proof.
  intros Hp. destruct (decide (http_status (get blocked_url) = 200)) as [Hs|Hs].
  - rewrite download_fetched by exact Hs. simpl.
    apply lookup_insert_ne. auto.
  - rewrite download_failed by exact Hs. reflexivity.
Qed.

Lemma ip_frame w (path : string) :
  path ≠ save_to_file → files (ip_step w).2 !! path = files w !! path.
Proof.
  intros Hp. destruct (decide (http_status (get url) = 200)) as [Hs|Hs].
  - rewrite update_ip_list_fetched by exact Hs. simpl.
    destruct (parse_lines_result netaddr (Text.splitlines (http_text (get url)))
                [] (say (Info "parsing...") (say fetching w)))
      as (r & a & v & -> & Hf & _).
    destruct r as [[]|e]; simpl; rewrite ?Hf; [|reflexivity].
    apply lookup_insert_ne. auto.
  - rewrite update_ip_list_fetch_failed by exact Hs. reflexivity.
Qed.

Lemma ip_list_fails e0 s0 w0 w :
  http_status (get url) ≠ 200 ∨
  parse_lines netaddr (Text.splitlines (http_text (get url))) ([], w0) =
    (Raise e0, s0) →
  ∃ e w', ip_step w = (Raise e, w') ∧ files w' = files w.
Proof.
  intros [Hs|Hp].
  - rewrite update_ip_list_fetch_failed by exact Hs. eauto.
  - destruct (decide (http_status (get url) = 200)) as [Hs|Hs].
    + rewrite update_ip_list_fetched by exact Hs. simpl.
      destruct (parse_lines_raise_any_world _ e0 s0 w0
                  (say (Info "parsing...") (say fetching w)) Hp)
        as ([a v] & -> & Hf).
      exists e0, v. auto.
    + rewrite update_ip_list_fetch_failed by exact Hs. eauto.
Qed.

End update_all_facts.



(** X14. When one of the three domain feeds does not answer 200,
    [update_all] ends there with that exception: no file is written,
    neither list after it is fetched. *)
Theorem update_all_domain_feed_failure
    (netaddr : string → option IPNetwork) (str : IPNetwork → string)
    (get : string → http_response) (w : world) :
  ¬ Forall (λ u, http_status (get u) = 200) urls →
  ∃ u w', u ∈ urls ∧ http_status (get u) ≠ 200 ∧
          update_all netaddr str get w =
            (Raise (Exception (http_status (get u))), w') ∧
          files w' = files w ∧
          update_all netaddr str get w =
            update_chn_domain_list (λ u, lines_of (get u)) w.
Proof.
  intros Hnot. rewrite update_all_unfold.
  destruct (domain_list_not_written (λ u, lines_of (get u)) w Hnot)
    as (u & w' & Hin & Hbad & -> & Hf).
  exists u, w'. auto.
Qed.

Lemma update_all_domain_feed_failure_witness :
  ∃ u w', u ∈ urls ∧
          http_status (failing_at google_url 503 example_web u) ≠ 200 ∧
          update_all Dotted.network Dotted.str
            (failing_at google_url 503 example_web) empty_world =
            (Raise (Exception
                      (http_status (failing_at google_url 503 example_web u))),
             w') ∧
          files w' = files empty_world ∧
          update_all Dotted.network Dotted.str
            (failing_at google_url 503 example_web) empty_world =
            update_chn_domain_list
              (λ u, lines_of (failing_at google_url 503 example_web u))
              empty_world.
Proof.
  apply (update_all_domain_feed_failure Dotted.network Dotted.str
           (failing_at google_url 503 example_web) empty_world).
  intros Hall. inversion Hall as [|? ? _ Hall']; subst.
  inversion Hall' as [|? ? H _]; subst. vm_compute in H. discriminate.
Defined.

(** X15. [update_all] is not all or nothing.  When the domain feeds
    answer 200 and the fetch of the blocked-domain list does not, the
    run ends with that exception after the domain list is written: the
    domain list is new, the two other files are as they were. *)
Theorem update_all_blocked_list_failure
    (netaddr : string → option IPNetwork) (str : IPNetwork → string)
    (get : string → http_response) (w : world) :
  Forall (λ u, http_status (get u) = 200) urls →
  http_status (get blocked_url) ≠ 200 →
  ∃ w', update_all netaddr str get w =
          (Raise (Exception (http_status (get blocked_url))), w') ∧
        files w' =
          <[save_to :=
              map (λ x, x +:+ nl)
                (concat (map (λ u, collected_domains
                                     (Text.splitlines (http_text (get u))))
                           urls))]>
            (files w).
Proof.
  intros Hdom Hblocked. rewrite update_all_unfold.
  destruct (domain_list_written (λ u, lines_of (get u)) w Hdom)
    as (w1 & -> & Hf1).
  rewrite (download_failed get w1 Hblocked).
  eexists. split; [reflexivity|]. exact Hf1.
Qed.

Lemma update_all_blocked_list_failure_witness :
  ∃ w', update_all Dotted.network Dotted.str
          (failing_at blocked_url 404 example_web) empty_world =
          (Raise (Exception
                    (http_status (failing_at blocked_url 404 example_web
                                    blocked_url))), w') ∧
        files w' =
          <[save_to :=
              map (λ x, x +:+ nl)
                (concat (map (λ u, collected_domains
                                     (Text.splitlines
                                        (http_text
                                           (failing_at blocked_url 404
                                              example_web u))))
                           urls))]>
            (files empty_world).
Proof.
  apply (update_all_blocked_list_failure Dotted.network Dotted.str
           (failing_at blocked_url 404 example_web) empty_world).
  - repeat (constructor; [reflexivity|]). constructor.
  - vm_compute. discriminate.
Defined.

(** X16. When the two domain steps succeed and [update_ip_list] ends
    with an exception, be it the status of the feed or a record the
    loop does not get past, the two domain files are written and the
    IP list is as it was. *)
Theorem update_all_ip_list_failure
    (netaddr : string → option IPNetwork) (str : IPNetwork → string)
    (get : string → http_response) (e0 : exn)
    (s0 : list IPNetwork * world) (w w0 : world) :
  Forall (λ u, http_status (get u) = 200) (urls ++ [blocked_url]) →
  http_status (get url) ≠ 200 ∨
  parse_lines netaddr (Text.splitlines (http_text (get url))) ([], w0) =
    (Raise e0, s0) →
  ∃ e w', update_all netaddr str get w = (Raise e, w') ∧
          files w' =
            <[blocked_save_to_file := [http_text (get blocked_url)]]>
            (<[save_to :=
                 map (λ x, x +:+ nl)
                   (concat (map (λ u, collected_domains
                                        (Text.splitlines (http_text (get u))))
                              urls))]>
               (files w)).
Proof.
  intros Hall Hip. apply Forall_app in Hall as [Hdom Hrest].
  inversion Hrest as [|? ? Hblocked _]; subst.
  rewrite update_all_unfold.
  destruct (domain_list_written (λ u, lines_of (get u)) w Hdom)
    as (w1 & -> & Hf1).
  rewrite (download_fetched get w1 Hblocked).
  set (w2 := {| log := _; files := _ |}).
  destruct (ip_list_fails netaddr str get e0 s0 w0 w2 Hip)
    as (e & w3 & -> & Hf).
  exists e, w3. split; [reflexivity|]. rewrite Hf. unfold w2. simpl.
  rewrite Hf1. reflexivity.
Qed.

Lemma update_all_ip_list_failure_witness :
  ∃ e w', update_all Dotted.network Dotted.str bad_count_web empty_world
          = (Raise e, w') ∧
          files w' =
            <[blocked_save_to_file := [http_text (bad_count_web blocked_url)]]>
            (<[save_to :=
                 map (λ x, x +:+ nl)
                   (concat (map (λ u, collected_domains
                                        (Text.splitlines
                                           (http_text (bad_count_web u))))
                              urls))]>
               (files empty_world)).
Proof.
  apply (update_all_ip_list_failure Dotted.network Dotted.str bad_count_web
           ValueError ([net_1_0_0_0_24], empty_world) empty_world empty_world).
  - repeat (constructor; [reflexivity|]). constructor.
  - right. vm_compute. reflexivity.
Defined.

(** X17. [update_all] changes no file other than the three lists,
    however it ends. *)
Theorem update_all_touches_three_files
    (netaddr : string → option IPNetwork) (str : IPNetwork → string)
    (get : string → http_response) (w : world) (path : string) :
  path ≠ save_to → path ≠ blocked_save_to_file → path ≠ save_to_file →
  files (update_all netaddr str get w).2 !! path = files w !! path.
Proof.
  intros H1 H2 H3. rewrite update_all_unfold.
  pose proof (domain_frame get w path H1) as Hd.
  destruct (update_chn_domain_list _ w) as [[[]|e] w1]; [|exact Hd].
  pose proof (blocked_frame get w1 path H2) as Hb.
  destruct (download_chn_blocked_domain_list get w1) as [[[]|e] w2];
    [|simpl in *; congruence].
  pose proof (ip_frame netaddr str get w2 path H3) as Hi.
  simpl in *. congruence.
Qed.

Lemma update_all_touches_three_files_witness :
  files (update_all Dotted.network Dotted.str example_web
           {| log := []; files := {["./notes.txt" := ["keep"]]} |}).2
    !! "./notes.txt" =
  files {| log := []; files := {["./notes.txt" := ["keep"]]} |}
    !! "./notes.txt".
Proof.
  apply (update_all_touches_three_files Dotted.network Dotted.str example_web
           {| log := []; files := {["./notes.txt" := ["keep"]]} |}
           "./notes.txt"); discriminate.
Defined.

(** * release.py *)

(** ** Names, environments and the choice of targets *)

Section release_names.
Implicit Types env : list (string * string).

Lemma stem_join env (s : string) :
  foldl (λ s pairs, s +:+ "-" +:+ pairs.2) s env =
  Text.join "-" (s :: map snd env).
Proof.
  revert s. induction env as [|[k v] env IH]; intros s; [reflexivity|].
  simpl foldl. rewrite IH. simpl map.
  destruct (map snd env) as [|v' vs]; [reflexivity|].
  rewrite (join_cons _ s), (join_cons _ v), (join_cons _ (s +:+ _))
    by discriminate.
  rewrite append_assoc. reflexivity.
Qed.

Lemma length_append (a b : string) :
  String.length (a +:+ b) = (String.length a + String.length b)%nat.
Proof. induction a as [|c a IH]; simpl; [reflexivity | now rewrite IH]. Qed.

Lemma append_cancel_r (a b t : string) : a +:+ t = b +:+ t → a = b.
Proof.
  revert b. induction a as [|c a IH]; intros [|d b] H.
  - reflexivity.
  - apply (f_equal String.length) in H.
    rewrite !length_append in H. simpl in H. lia.
  - apply (f_equal String.length) in H.
    rewrite !length_append in H. simpl in H. lia.
  - simpl in H. injection H as -> H. f_equal. apply IH, H.
Qed.

Lemma zip_filename_join env :
  Release.zip_filename_of env =
  Text.join "-" (Release.PROJECT_NAME :: map snd env) +:+ ".zip".
Proof. unfold Release.zip_filename_of. now rewrite stem_join. Qed.

Lemma zip_filename_inj env env' :
  Forall (λ pairs, "-"%char ∉ list_ascii_of_string pairs.2) env →
  Forall (λ pairs, "-"%char ∉ list_ascii_of_string pairs.2) env' →
  Release.zip_filename_of env = Release.zip_filename_of env' →
  map snd env = map snd env'.
Proof.
  intros Hd Hd' Heq. rewrite !zip_filename_join in Heq.
  apply append_cancel_r in Heq.
  apply (f_equal (Str.split "-")) in Heq.
  rewrite !split_join in Heq.
  - congruence.
  - discriminate.
  - apply Forall_cons. split; [no_such_char|]. now apply Forall_fmap.
  - discriminate.
  - apply Forall_cons. split; [no_such_char|]. now apply Forall_fmap.
Qed.

Lemma envs_names_NoDup : NoDup (map Release.zip_filename_of Release.envs).
Proof. apply (bool_decide_unpack _). vm_compute. exact I. Qed.

Lemma os_env_of_cons (environ : gmap string string) k v env :
  Release.os_env_of environ ((k, v) :: env) =
  Release.os_env_of (<[k := v]> environ) env.
Proof. reflexivity. Qed.

Lemma os_env_of_keeps (environ : gmap string string) env k :
  is_Some (environ !! k) → is_Some (Release.os_env_of environ env !! k).
Proof.
  revert environ. induction env as [|[k' v'] env IH]; intros environ H;
    [exact H|].
  rewrite os_env_of_cons. apply IH. apply lookup_insert_is_Some.
  destruct (decide (k' = k)); [now left | now right].
Qed.

Lemma os_env_of_sets (environ : gmap string string) env k v :
  (k, v) ∈ env → is_Some (Release.os_env_of environ env !! k).
Proof.
  revert environ. induction env as [|[k' v'] env IH]; intros environ H.
  - inversion H.
  - rewrite os_env_of_cons. apply elem_of_cons in H as [H|H].
    + injection H as <- <-. apply os_env_of_keeps.
      rewrite lookup_insert_eq. eauto.
    + now apply IH.
Qed.

Lemma envs_set_GOOS :
  Forall (λ env, ∃ v, ("GOOS", v) ∈ env) Release.envs.
Proof.
  unfold Release.envs.
  repeat (apply Forall_cons_2;
          [cbv beta; eexists; apply list_elem_of_here|]).
  apply Forall_nil_2.
Qed.

Lemma selected_envs_elem (a : Release.args) l targets :
  Release.selected_envs a l = Release.Done targets →
  targets = l ∨ ∃ env, targets = [env] ∧ env ∈ l.
Proof.
  unfold Release.selected_envs, Release.py_index.
  destruct (Release.i a) as [z|]; [|intros [= <-]; now left].
  destruct (z =? 0); [intros [= <-]; now left|].
  destruct (0 <=? z).
  - destruct (l !! Z.to_nat z) as [env|] eqn:E; [|discriminate].
    intros [= <-]. right. exists env. split; [reflexivity|].
    eapply list_elem_of_lookup_2, E.
  - destruct (- Z.of_nat (length l) <=? z); [|discriminate].
    destruct (l !! Z.to_nat _) as [env|] eqn:E; [|discriminate].
    intros [= <-]. right. exists env. split; [reflexivity|].
    eapply list_elem_of_lookup_2, E.
Qed.

End release_names.

(** X18. From a table with more than one target, [-i] builds a single
    target exactly when it is that target's position counted from the
    end, or its position counted from the start and not 0: position 0
    can only be asked for as minus the length of the table. *)
Theorem selected_envs_single (a : Release.args)
    (l : list (list (string * string))) (x : list (string * string)) :
  length l ≠ 1%nat →
  Release.selected_envs a l = Release.Done [x] ↔
  ∃ k : nat, l !! k = Some x ∧
    (Release.i a = Some (Z.of_nat k - Z.of_nat (length l)) ∨
     (k ≠ 0%nat ∧ Release.i a = Some (Z.of_nat k))).
Proof.
  intros Hlen. unfold Release.selected_envs, Release.py_index. split.
  - destruct (Release.i a) as [z|].
    2:{ intros [= ->]. now destruct Hlen. }
    destruct (Z.eqb_spec z 0) as [->|Hz].
    { intros [= ->]. now destruct Hlen. }
    destruct (Z.leb_spec 0 z) as [Hpos|Hneg].
    + destruct (l !! Z.to_nat z) as [env|] eqn:E; [|discriminate].
      intros [= ->]. exists (Z.to_nat z). split; [exact E|].
      right. split; [lia|]. f_equal. lia.
    + destruct (Z.leb_spec (- Z.of_nat (length l)) z) as [Hlow|];
        [|discriminate].
      destruct (l !! Z.to_nat _) as [env|] eqn:E; [|discriminate].
      intros [= ->]. exists (Z.to_nat (Z.of_nat (length l) + z)).
      split; [exact E|]. left. f_equal. lia.
  - intros (k & Hk & [-> | [Hk0 ->]]).
    + pose proof (lookup_lt_Some _ _ _ Hk) as Hlt.
      destruct (Z.eqb_spec (Z.of_nat k - Z.of_nat (length l)) 0); [lia|].
      destruct (Z.leb_spec 0 (Z.of_nat k - Z.of_nat (length l))); [lia|].
      destruct (Z.leb_spec (- Z.of_nat (length l))
                  (Z.of_nat k - Z.of_nat (length l))); [|lia].
      replace (Z.to_nat _) with k by lia. now rewrite Hk.
    + destruct (Z.eqb_spec (Z.of_nat k) 0); [lia|].
      destruct (Z.leb_spec 0 (Z.of_nat k)); [|lia].
      rewrite Nat2Z.id. now rewrite Hk.
Qed.

Lemma selected_envs_single_witness :
  Release.selected_envs {| Release.upx := false; Release.i := Some (-1) |}
    Release.envs = Release.Done [windows_amd64] ↔
  ∃ k : nat, Release.envs !! k = Some windows_amd64 ∧
    (Release.i {| Release.upx := false; Release.i := Some (-1) |} =
       Some (Z.of_nat k - Z.of_nat (length Release.envs)) ∨
     (k ≠ 0%nat ∧
      Release.i {| Release.upx := false; Release.i := Some (-1) |} =
        Some (Z.of_nat k))).
Proof.
  apply (selected_envs_single
           {| Release.upx := false; Release.i := Some (-1) |}
           Release.envs windows_amd64).
  simpl. lia.
Defined.

(** X19. Two targets whose values hold no dash and differ somewhere get
    different archive names. *)
Theorem zip_filename_distinct (env env' : list (string * string)) :
  Forall (λ pairs, "-"%char ∉ list_ascii_of_string pairs.2) env →
  Forall (λ pairs, "-"%char ∉ list_ascii_of_string pairs.2) env' →
  map snd env ≠ map snd env' →
  Release.zip_filename_of env ≠ Release.zip_filename_of env'.
Proof.
  intros Hd Hd' Hne Heq. apply Hne. now apply zip_filename_inj.
Qed.

Lemma zip_filename_distinct_witness :
  Release.zip_filename_of linux_amd64 ≠ Release.zip_filename_of linux_arm64.
Proof.
  apply (zip_filename_distinct linux_amd64 linux_arm64).
  - unfold linux_amd64. repeat (apply Forall_cons_2; [no_such_char|]).
    apply Forall_nil_2.
  - unfold linux_arm64. repeat (apply Forall_cons_2; [no_such_char|]).
    apply Forall_nil_2.
  - discriminate.
Defined.

(** X20. The environment of a build is the inherited one overridden by
    the target's pairs, a later pair winning over an earlier one with
    the same name. *)
Theorem os_env_of_union (environ : gmap string string)
    (env : list (string * string)) :
  Release.os_env_of environ env = list_to_map (reverse env) ∪ environ.
Proof.
  revert environ. induction env as [|[k v] env IH]; intros environ.
  - simpl. now rewrite (left_id_L ∅ (∪)).
  - rewrite os_env_of_cons, IH, reverse_cons, list_to_map_app.
    rewrite <- (assoc_L (∪)). f_equal. simpl.
    now rewrite <- insert_union_l, (left_id_L ∅ (∪)).
Qed.

(** ** The run *)

Section release_facts.
Variable shell : Type.
Variable check_call :
  string → gmap string string → shell → option Release.proc_error * shell.
Variable check_output :
  string → shell → (string + Release.proc_error) * shell.
Variable readable : string → shell → bool.
Implicit Types s : Release.state shell.
Implicit Types env : list (string * string).
Implicit Types environ : gmap string string.

Lemma written_ext (f g : string → bool) (files : list (string * string)) :
  (∀ path, path ∈ map fst files → f path = g path) →
  Release.written f files = Release.written g files.
Proof.
  induction files as [|[path arcname] files IH]; intros H; [reflexivity|].
  simpl. rewrite (H path) by apply list_elem_of_here.
  rewrite IH; [reflexivity|].
  intros p Hp. apply H. now apply list_elem_of_further.
Qed.

Lemma written_all (files : list (string * string)) :
  Release.written (λ _, true) files = map snd files.
Proof.
  induction files as [|[path arcname] files IH]; [reflexivity|].
  simpl. now rewrite IH.
Qed.

(** The members are added up to the first that cannot be read; nothing
    but the archive is touched. *)
Lemma zf_write_all_step (zip : string) (files : list (string * string)) s :
  ∃ r s',
    Release.zf_write_all readable zip files s = (Release.Done r, s') ∧
    Release.log s' = Release.log s ∧
    Release.calls s' = Release.calls s ∧
    Release.sh s' = Release.sh s ∧
    (∀ z, z ≠ zip → Release.archives s' !! z = Release.archives s !! z) ∧
    (∀ old, Release.archives s !! zip = Some old →
       Release.archives s' !! zip =
         Some (old ++
               Release.written (λ path, readable path (Release.sh s)) files)).
Proof.
  revert s. induction files as [|[path arcname] files IH]; intros s.
  - exists None, s. do 5 (split; [reflexivity|]).
    intros old Hold. simpl. now rewrite app_nil_r.
  - simpl. unfold Release.bind, Release.zf_write.
    destruct (readable path (Release.sh s)) eqn:Hr.
    + destruct (IH {| Release.log := Release.log s;
                      Release.calls := Release.calls s;
                      Release.archives :=
                        <[zip := default [] (Release.archives s !! zip) ++
                                 [arcname]]> (Release.archives s);
                      Release.sh := Release.sh s |})
        as (r & s' & Hrun & Hlog & Hcalls & Hsh & Hframe & Hall).
      simpl in *. exists r, s'.
      do 4 (split; [assumption|]). split.
      * intros z Hz. rewrite (Hframe z Hz). now apply lookup_insert_ne.
      * intros old Hold. rewrite (Hall (old ++ [arcname])).
        -- now rewrite <- (assoc_L (++)).
        -- rewrite lookup_insert_eq, Hold. reflexivity.
    + exists (Some Release.OSError), s. do 5 (split; [reflexivity|]).
      intros old Hold. now rewrite app_nil_r.
Qed.

Lemma write_zip_step (zip : string) (files : list (string * string)) s :
  ∃ r s',
    Release.write_zip readable zip files s = (Release.Done r, s') ∧
    Release.log s' = Release.log s ∧
    Release.calls s' = Release.calls s ∧
    Release.sh s' = Release.sh s ∧
    (∀ z, z ≠ zip → Release.archives s' !! z = Release.archives s !! z) ∧
    Release.archives s' !! zip =
      Some (Release.written (λ path, readable path (Release.sh s)) files).
Proof.
  unfold Release.write_zip, Release.bind, Release.zip_open.
  destruct (zf_write_all_step zip files
              {| Release.log := Release.log s;
                 Release.calls := Release.calls s;
                 Release.archives := <[zip := []]> (Release.archives s);
                 Release.sh := Release.sh s |})
    as (r & s' & -> & Hlog & Hcalls & Hsh & Hframe & Hall).
  simpl in *. exists r, s'. split; [reflexivity|].
  do 3 (split; [assumption|]). split.
  - intros z Hz. rewrite (Hframe z Hz). now apply lookup_insert_ne.
  - apply (Hall []), lookup_insert_eq.
Qed.

(** What follows the build of the binary. *)
Lemma pack_step a environ (goos zip bin : string) s :
  ∃ s' entries more,
    Release.pack check_call readable a environ goos zip bin s =
      (Release.Done tt, s') ∧
    Release.log s' = Release.log s ++ entries ∧
    Release.calls s' = Release.calls s ++ more ∧
    (Release.upx a = false → more = []) ∧
    (∀ z, z ≠ zip → Release.archives s' !! z = Release.archives s !! z) ∧
    ((Release.upx a = false ∨
      ∀ sh, (check_call (Release.upx_cmd bin) environ sh).1 ≠
            Some Release.OSError) →
     ∀ ok : string → bool,
       (∀ path sh, path ∈ map fst (Release.members goos bin) →
                   readable path sh = ok path) →
       Release.archives s' !! zip =
         Some (Release.written ok (Release.members goos bin))).
Proof.
  unfold Release.pack. generalize (Release.members goos bin). intros files.
  assert (∀ s0,
            ∃ s' entries,
              Release.bind (Release.write_zip readable zip files)
                (λ r, match r with
                      | Some e => Release.say (Release.UnknownErr e)
                      | None => Release.ret tt
                      end) s0 = (Release.Done tt, s') ∧
              Release.log s' = Release.log s0 ++ entries ∧
              Release.calls s' = Release.calls s0 ∧
              (∀ z, z ≠ zip →
                    Release.archives s' !! z = Release.archives s0 !! z) ∧
              (∀ ok : string → bool,
                 (∀ path sh, path ∈ map fst files →
                             readable path sh = ok path) →
                 Release.archives s' !! zip =
                   Some (Release.written ok files))) as Hzip.
  { intros s0. unfold Release.bind at 1.
    destruct (write_zip_step zip files s0)
      as (r & s1 & -> & Hlog & Hcalls & Hsh & Hframe & Hall).
    assert (∀ ok : string → bool,
              (∀ path sh, path ∈ map fst files →
                          readable path sh = ok path) →
              Release.archives s1 !! zip = Some (Release.written ok files))
      as Hok.
    { intros ok Hr. rewrite Hall. f_equal. apply written_ext.
      intros path Hp. now apply Hr. }
    destruct r as [e|].
    - exists (Release.say (Release.UnknownErr e) s1).2,
        [Release.UnknownErr e].
      split; [reflexivity|]. split; [simpl; now rewrite Hlog|].
      split; [exact Hcalls|]. split; [exact Hframe|]. exact Hok.
    - exists s1, []. split; [reflexivity|]. split; [now rewrite app_nil_r|].
      split; [exact Hcalls|]. split; [exact Hframe|]. exact Hok. }
  destruct (Release.upx a).
  - unfold Release.bind at 1 2, Release.call.
    destruct (check_call (Release.upx_cmd bin) environ (Release.sh s))
      as [[[c|]|] sh1] eqn:Hupx.
    + destruct (Hzip {| Release.log := Release.log s ++ [Release.UpxFailed c];
                        Release.calls :=
                          Release.calls s ++ [Release.upx_cmd bin];
                        Release.archives := Release.archives s;
                        Release.sh := sh1 |})
        as (s' & entries & Hrun & Hlog & Hcalls & Hframe & Hall).
      exists s', (Release.UpxFailed c :: entries), [Release.upx_cmd bin].
      split; [exact Hrun|].
      split; [rewrite Hlog; simpl; now rewrite <- (assoc_L (++))|].
      split; [exact Hcalls|]. split; [discriminate|].
      split; [exact Hframe|]. intros _. exact Hall.
    + eexists _, [Release.UnknownErr Release.OSError],
        [Release.upx_cmd bin].
      split; [reflexivity|]. do 2 (split; [reflexivity|]).
      split; [discriminate|]. split; [reflexivity|].
      intros [[=]|Hno]. specialize (Hno (Release.sh s)).
      rewrite Hupx in Hno. now destruct Hno.
    + destruct (Hzip {| Release.log := Release.log s;
                        Release.calls :=
                          Release.calls s ++ [Release.upx_cmd bin];
                        Release.archives := Release.archives s;
                        Release.sh := sh1 |})
        as (s' & entries & Hrun & Hlog & Hcalls & Hframe & Hall).
      exists s', entries, [Release.upx_cmd bin].
      split; [exact Hrun|]. split; [exact Hlog|]. split; [exact Hcalls|].
      split; [discriminate|]. split; [exact Hframe|].
      intros _. exact Hall.
  - unfold Release.bind at 1, Release.ret at 1.
    destruct (Hzip s) as (s' & entries & Hrun & Hlog & Hcalls & Hframe & Hall).
    exists s', entries, [].
    split; [exact Hrun|]. split; [exact Hlog|].
    split; [now rewrite app_nil_r|]. split; [reflexivity|].
    split; [exact Hframe|]. intros _. exact Hall.
Qed.

(** One turn of the loop, for a target whose [GOOS] is known. *)
Lemma build_target_step a VERSION environ env goos s :
  Release.os_env_of environ env !! "GOOS" = Some goos →
  ∃ s' entries more,
    Release.build_target check_call readable a VERSION environ env s =
      (Release.Done tt, s') ∧
    Release.log s' =
      Release.log s ++
      Release.Info ("building " +:+ Release.zip_filename_of env) :: entries ∧
    Release.calls s' =
      Release.calls s ++
      Release.go_build_cmd VERSION (Release.bin_filename_of goos) :: more ∧
    (Release.upx a = false → more = []).
Proof.
  intros HG. unfold Release.build_target. rewrite HG.
  unfold Release.bind at 1 2, Release.say at 1, Release.call. simpl.
  destruct (check_call _ _ (Release.sh s)) as [[[c|]|] sh1]; simpl.
  - unfold Release.say. simpl. eexists _, [_], [].
    rewrite <- !(assoc_L (++)). repeat split.
  - unfold Release.say. simpl. eexists _, [_], [].
    rewrite <- !(assoc_L (++)). repeat split.
  - destruct (pack_step a environ goos (Release.zip_filename_of env)
                (Release.bin_filename_of goos)
                {| Release.log :=
                     Release.log s ++
                     [Release.Info
                        ("building " +:+ Release.zip_filename_of env)];
                   Release.calls :=
                     Release.calls s ++
                     [Release.go_build_cmd VERSION
                        (Release.bin_filename_of goos)];
                   Release.archives := Release.archives s;
                   Release.sh := sh1 |})
      as (s' & entries & more & -> & Hlog & Hcalls & Hmore & _).
    simpl in *. exists s', entries, more.
    rewrite Hlog, Hcalls, <- !(assoc_L (++)). repeat split. exact Hmore.
Qed.

Lemma build_target_frame a VERSION environ env s (z : string) :
  z ≠ Release.zip_filename_of env →
  Release.archives
    (Release.build_target check_call readable a VERSION environ env s).2
    !! z =
  Release.archives s !! z.
Proof.
  intros Hz. unfold Release.build_target.
  destruct (Release.os_env_of environ env !! "GOOS") as [goos|];
    [|reflexivity].
  unfold Release.bind at 1 2, Release.say at 1, Release.call. simpl.
  destruct (check_call _ _ (Release.sh s)) as [[[c|]|] sh1]; simpl;
    try reflexivity.
  destruct (pack_step a environ goos (Release.zip_filename_of env)
              (Release.bin_filename_of goos)
              {| Release.log :=
                   Release.log s ++
                   [Release.Info
                      ("building " +:+ Release.zip_filename_of env)];
                 Release.calls :=
                   Release.calls s ++
                   [Release.go_build_cmd VERSION
                      (Release.bin_filename_of goos)];
                 Release.archives := Release.archives s;
                 Release.sh := sh1 |})
    as (s' & entries & more & -> & _ & _ & _ & Hframe & _).
  simpl. now rewrite (Hframe z Hz).
Qed.

Lemma build_target_failed a VERSION environ env goos s :
  Release.os_env_of environ env !! "GOOS" = Some goos →
  (check_call (Release.go_build_cmd VERSION (Release.bin_filename_of goos))
     (Release.os_env_of environ env) (Release.sh s)).1 ≠ None →
  Release.archives
    (Release.build_target check_call readable a VERSION environ env s).2 =
  Release.archives s.
Proof.
  intros HG. unfold Release.build_target. rewrite HG.
  unfold Release.bind at 1 2, Release.say, Release.call. simpl.
  destruct (check_call _ _ (Release.sh s)) as [[[c|]|] sh1]; simpl;
    [reflexivity | reflexivity | intros H; now destruct H].
Qed.

Lemma build_target_packed a VERSION environ env goos (ok : string → bool) s :
  Release.os_env_of environ env !! "GOOS" = Some goos →
  (check_call (Release.go_build_cmd VERSION (Release.bin_filename_of goos))
     (Release.os_env_of environ env) (Release.sh s)).1 = None →
  (Release.upx a = false ∨
   ∀ sh, (check_call (Release.upx_cmd (Release.bin_filename_of goos))
            environ sh).1 ≠ Some Release.OSError) →
  (∀ path sh,
     path ∈ map fst (Release.members goos (Release.bin_filename_of goos)) →
     readable path sh = ok path) →
  Release.archives
    (Release.build_target check_call readable a VERSION environ env s).2
    !! Release.zip_filename_of env =
  Some (Release.written ok
          (Release.members goos (Release.bin_filename_of goos))).
Proof.
  intros HG. unfold Release.build_target. rewrite HG.
  unfold Release.bind at 1 2, Release.say at 1, Release.call. simpl.
  destruct (check_call _ _ (Release.sh s)) as [[[c|]|] sh1]; simpl;
    [discriminate | discriminate |].
  intros _ Hupx Hread.
  destruct (pack_step a environ goos (Release.zip_filename_of env)
              (Release.bin_filename_of goos)
              {| Release.log :=
                   Release.log s ++
                   [Release.Info
                      ("building " +:+ Release.zip_filename_of env)];
                 Release.calls :=
                   Release.calls s ++
                   [Release.go_build_cmd VERSION
                      (Release.bin_filename_of goos)];
                 Release.archives := Release.archives s;
                 Release.sh := sh1 |})
    as (s' & entries & more & -> & _ & _ & _ & _ & Hall).
  simpl. now apply Hall.
Qed.

Lemma build_targets_cons a VERSION environ env targets s :
  Release.build_targets check_call readable a VERSION environ (env :: targets) s =
  match Release.build_target check_call readable a VERSION environ env s with
  | (Release.Done _, s1) =>
      Release.build_targets check_call readable a VERSION environ targets s1
  | (Release.Raised e, s1) => (Release.Raised e, s1)
  end.
Proof. reflexivity. Qed.

(** With [GOOS] known for every target the loop comes to its end. *)
Lemma build_targets_done a VERSION environ targets s :
  Forall (λ env, is_Some (Release.os_env_of environ env !! "GOOS")) targets →
  ∃ s' entries,
    Release.build_targets check_call readable a VERSION environ targets s =
      (Release.Done tt, s') ∧
    Release.log s' = Release.log s ++ entries ∧
    ∀ env, env ∈ targets →
      Release.Info ("building " +:+ Release.zip_filename_of env) ∈ entries.
Proof.
  intros H. revert s. induction H as [|env targets [goos HG] _ IH]; intros s.
  - exists s, []. split; [reflexivity|]. split; [now rewrite app_nil_r|].
    intros env Henv. inversion Henv.
  - rewrite build_targets_cons.
    destruct (build_target_step a VERSION environ env goos s HG)
      as (s1 & entries & more & -> & Hlog & _).
    destruct (IH s1) as (s' & entries' & -> & Hlog' & Hin).
    exists s', (Release.Info ("building " +:+ Release.zip_filename_of env)
                :: entries ++ entries').
    split; [reflexivity|]. split.
    + rewrite Hlog', Hlog, <- (assoc_L (++)). reflexivity.
    + intros env' [->|Hrest]%elem_of_cons.
      * apply list_elem_of_here.
      * apply list_elem_of_further, elem_of_app. right. now apply Hin.
Qed.

Lemma build_targets_calls a VERSION environ targets s :
  Release.upx a = false →
  Forall (λ env, is_Some (Release.os_env_of environ env !! "GOOS")) targets →
  ∃ cmds,
    Release.calls
      (Release.build_targets check_call readable a VERSION environ targets s).2 =
      Release.calls s ++ cmds ∧
    Forall2 (Release.build_of VERSION environ) targets cmds.
Proof.
  intros Hupx H. revert s.
  induction H as [|env targets [goos HG] _ IH]; intros s.
  - exists []. split; [now rewrite app_nil_r | constructor].
  - rewrite build_targets_cons.
    destruct (build_target_step a VERSION environ env goos s HG)
      as (s1 & entries & more & -> & _ & Hcalls & Hmore).
    rewrite (Hmore Hupx) in Hcalls.
    destruct (IH s1) as (cmds & Hcalls' & Hall).
    exists (Release.go_build_cmd VERSION (Release.bin_filename_of goos)
            :: cmds).
    split.
    + rewrite Hcalls', Hcalls, <- (assoc_L (++)). reflexivity.
    + constructor; [|exact Hall]. exists goos. now split.
Qed.

Lemma build_targets_frame a VERSION environ targets s (z : string) :
  z ∉ map Release.zip_filename_of targets →
  Release.archives
    (Release.build_targets check_call readable a VERSION environ targets s).2 !! z =
  Release.archives s !! z.
Proof.
  revert s. induction targets as [|env targets IH]; intros s Hz;
    [reflexivity|].
  simpl in Hz. apply not_elem_of_cons in Hz as [Hz Hrest].
  rewrite build_targets_cons.
  pose proof (build_target_frame a VERSION environ env s z Hz) as Hf.
  destruct (Release.build_target _ _ _ _ _ _ s) as [[[]|e] s1]; simpl in Hf.
  - now rewrite IH.
  - exact Hf.
Qed.

Lemma build_targets_packed a VERSION environ targets env goos
    (ok : string → bool) s :
  NoDup (map Release.zip_filename_of targets) →
  Forall (λ env, is_Some (Release.os_env_of environ env !! "GOOS")) targets →
  env ∈ targets →
  Release.os_env_of environ env !! "GOOS" = Some goos →
  (∀ sh, (check_call
            (Release.go_build_cmd VERSION (Release.bin_filename_of goos))
            (Release.os_env_of environ env) sh).1 = None) →
  (Release.upx a = false ∨
   ∀ sh, (check_call (Release.upx_cmd (Release.bin_filename_of goos))
            environ sh).1 ≠ Some Release.OSError) →
  (∀ path sh,
     path ∈ map fst (Release.members goos (Release.bin_filename_of goos)) →
     readable path sh = ok path) →
  Release.archives
    (Release.build_targets check_call readable a VERSION environ targets s).2
    !! Release.zip_filename_of env =
  Some (Release.written ok
          (Release.members goos (Release.bin_filename_of goos))).
Proof.
  intros Hnd Hall Hin HG Hbuild Hupx Hread. revert s.
  induction Hall as [|env0 targets [goos0 HG0] _ IH]; intros s.
  - inversion Hin.
  - simpl in Hnd. apply NoDup_cons in Hnd as [Hfresh Hnd].
    rewrite build_targets_cons.
    destruct (build_target_step a VERSION environ env0 goos0 s HG0)
      as (s1 & entries & more & Hrun & _).
    apply elem_of_cons in Hin as [->|Hin].
    + pose proof (build_target_packed a VERSION environ env0 goos ok s HG
                    (Hbuild _) Hupx Hread) as Hp.
      rewrite Hrun in *. simpl in Hp.
      now rewrite build_targets_frame.
    + rewrite Hrun. now apply IH.
Qed.

Lemma build_targets_not_packed a VERSION environ targets env goos s :
  NoDup (map Release.zip_filename_of targets) →
  env ∈ targets →
  Release.os_env_of environ env !! "GOOS" = Some goos →
  (∀ sh, (check_call
            (Release.go_build_cmd VERSION (Release.bin_filename_of goos))
            (Release.os_env_of environ env) sh).1 ≠ None) →
  Release.archives
    (Release.build_targets check_call readable a VERSION environ targets s).2
    !! Release.zip_filename_of env =
  Release.archives s !! Release.zip_filename_of env.
Proof.
  intros Hnd Hin HG Hbuild. revert s.
  induction targets as [|env0 targets IH]; intros s.
  - inversion Hin.
  - simpl in Hnd. apply NoDup_cons in Hnd as [Hfresh Hnd].
    rewrite build_targets_cons.
    apply elem_of_cons in Hin as [->|Hin].
    + pose proof (build_target_failed a VERSION environ env0 goos s HG
                    (Hbuild _)) as Hf.
      destruct (Release.build_target _ _ _ _ _ _ s) as [[[]|e] s1];
        simpl in Hf; [|simpl; now rewrite Hf].
      rewrite build_targets_frame by exact Hfresh. now rewrite Hf.
    + assert (Release.zip_filename_of env ≠ Release.zip_filename_of env0)
        as Hne.
      { intros Heq. apply Hfresh. rewrite <- Heq.
        now apply list_elem_of_fmap_2. }
      pose proof (build_target_frame a VERSION environ env0 s _ Hne) as Hf.
      destruct (Release.build_target _ _ _ _ _ _ s) as [[[]|e] s1];
        simpl in Hf; [|exact Hf].
      rewrite IH by assumption. exact Hf.
Qed.

Lemma get_version_step s :
  ∃ s1 entries,
    Release.get_version check_output s =
      (match (check_output Release.git_describe (Release.sh s)).1 with
       | inr Release.OSError =>
           Release.Raised (Release.ProcError Release.OSError)
       | r => Release.Done (Release.version_of r)
       end, s1) ∧
    Release.log s1 = Release.log s ++ entries ∧
    Release.calls s1 = Release.calls s ++ [Release.git_describe] ∧
    Release.archives s1 = Release.archives s ∧
    Release.sh s1 = (check_output Release.git_describe (Release.sh s)).2.
Proof.
  unfold Release.get_version, Release.bind, Release.call_output,
    Release.say, Release.ret, Release.raise.
  destruct (check_output _ (Release.sh s)) as [[out|[c|]] sh1]; simpl.
  - eexists _, []. rewrite app_nil_r. repeat split.
  - eexists _, [_]. repeat split.
  - eexists _, []. rewrite app_nil_r. repeat split.
Qed.

Lemma generate_config_step environ s :
  ∃ s2 entries,
    Release.generate_config check_call environ s =
      (match (check_call Release.gen_config environ (Release.sh s)).1 with
       | None => Release.Done tt
       | Some e => Release.Raised (Release.ProcError e)
       end, s2) ∧
    Release.log s2 = Release.log s ++ entries ∧
    Release.calls s2 = Release.calls s ++ [Release.gen_config] ∧
    Release.archives s2 = Release.archives s ∧
    Release.sh s2 = (check_call Release.gen_config environ (Release.sh s)).2.
Proof.
  unfold Release.generate_config, Release.bind, Release.call,
    Release.say, Release.ret, Release.raise.
  destruct (check_call _ _ (Release.sh s)) as [[e|] sh1]; simpl.
  - eexists _, [_]. repeat split.
  - eexists _, []. rewrite app_nil_r. repeat split.
Qed.

Lemma go_build_unfold a environ s :
  Release.go_build check_call check_output readable a environ s =
  let s0 := (Release.say (Release.Info ("building " +:+ Release.PROJECT_NAME))
               s).2 in
  match Release.selected_envs a Release.envs with
  | Release.Raised e => (Release.Raised e, s0)
  | Release.Done targets =>
      match Release.get_version check_output s0 with
      | (Release.Raised e, s1) => (Release.Raised e, s1)
      | (Release.Done VERSION, s1) =>
          match Release.generate_config check_call environ s1 with
          | (Release.Raised e, s2) => (Release.Raised e, s2)
          | (Release.Done _, s2) =>
              Release.build_targets check_call readable a VERSION environ targets s2
          end
      end
  end.
Proof.
  unfold Release.go_build, Release.bind at 1 2, Release.lift. simpl.
  destruct (Release.selected_envs a Release.envs); [|reflexivity].
  unfold Release.bind at 1.
  destruct (Release.get_version _ _) as [[V|e] s1]; [|reflexivity].
  reflexivity.
Qed.

Lemma selected_envs_raises a l e :
  Release.selected_envs a l = Release.Raised e → e = Release.IndexError.
Proof.
  unfold Release.selected_envs.
  destruct (Release.i a) as [z|]; [|discriminate].
  destruct (z =? 0); [discriminate|].
  destruct (Release.py_index l z); [discriminate|]. now intros [= <-].
Qed.

Lemma selected_envs_GOOS a targets environ :
  Release.selected_envs a Release.envs = Release.Done targets →
  Forall (λ env, is_Some (Release.os_env_of environ env !! "GOOS")) targets.
Proof.
  intros Hsel.
  assert (Forall (λ env, is_Some (Release.os_env_of environ env !! "GOOS"))
            Release.envs) as Hall.
  { eapply Forall_impl; [apply envs_set_GOOS|].
    intros env [v Hv]. eapply os_env_of_sets, Hv. }
  apply selected_envs_elem in Hsel as [->|(env & -> & Hin)]; [exact Hall|].
  apply Forall_singleton. rewrite Forall_forall in Hall. now apply Hall.
Qed.

Lemma selected_envs_NoDup a targets :
  Release.selected_envs a Release.envs = Release.Done targets →
  NoDup (map Release.zip_filename_of targets).
Proof.
  intros [->|(env & -> & _)]%selected_envs_elem.
  - apply envs_names_NoDup.
  - apply NoDup_singleton.
Qed.

End release_facts.

(** X21. When [go_build] raises, it has written no archive and run no
    build: it raised IndexError before any command, or the error of
    [git describe] after that command alone, or the error of the
    config generation after these two commands. *)
Theorem go_build_raises_before_building (shell : Type)
    (check_call :
       string → gmap string string → shell → option Release.proc_error * shell)
    (check_output : string → shell → (string + Release.proc_error) * shell)
    (readable : string → shell → bool)
    (a : Release.args) (environ : gmap string string)
    (s s' : Release.state shell) (e : Release.exn) :
  Release.go_build check_call check_output readable a environ s =
    (Release.Raised e, s') →
  Release.archives s' = Release.archives s ∧
  ((e = Release.IndexError ∧ Release.calls s' = Release.calls s) ∨
   (e = Release.ProcError Release.OSError ∧
    Release.calls s' = Release.calls s ++ [Release.git_describe]) ∨
   (∃ pe, e = Release.ProcError pe ∧
          Release.calls s' =
            Release.calls s ++ [Release.git_describe; Release.gen_config])).
Proof.
  rewrite go_build_unfold. cbv zeta.
  destruct (Release.selected_envs a Release.envs) as [targets|e0] eqn:Hsel.
  2:{ intros [= <- <-]. apply selected_envs_raises in Hsel as ->.
      split; [reflexivity|]. left. now split. }
  destruct (get_version_step shell check_output
              (Release.say (Release.Info ("building " +:+ Release.PROJECT_NAME))
                 s).2)
    as (s1 & ent1 & -> & _ & Hc1 & Ha1 & _).
  simpl in Hc1, Ha1.
  assert (∀ VERSION,
            match Release.generate_config check_call environ s1 with
            | (Release.Raised e, s2) => (Release.Raised e, s2)
            | (Release.Done _, s2) =>
                Release.build_targets check_call readable a VERSION environ targets s2
            end = (Release.Raised e, s') →
            Release.archives s' = Release.archives s ∧
            ∃ pe, e = Release.ProcError pe ∧
                  Release.calls s' =
                    Release.calls s ++
                    [Release.git_describe; Release.gen_config]) as Hgen.
  { intros VERSION.
    destruct (generate_config_step shell check_call environ s1)
      as (s2 & ent2 & -> & _ & Hc2 & Ha2 & _).
    destruct (check_call Release.gen_config environ (Release.sh s1)).1
      as [pe|].
    - intros [= <- <-]. split; [congruence|]. exists pe.
      split; [reflexivity|]. rewrite Hc2, Hc1, <- (assoc_L (++)). reflexivity.
    - destruct (build_targets_done shell check_call readable a VERSION environ targets
                  s2 (selected_envs_GOOS a targets environ Hsel))
        as (s3 & ent3 & -> & _). discriminate. }
  destruct (check_output Release.git_describe _).1 as [out|[c|]].
  - intros H. apply Hgen in H as [H1 H2]. split; [exact H1|]. now do 2 right.
  - intros H. apply Hgen in H as [H1 H2]. split; [exact H1|]. now do 2 right.
  - intros [= <- <-]. split; [exact Ha1|]. right. left. now split.
Qed.

Lemma go_build_raises_before_building_witness :
  Release.archives
    (Release.go_build config_fails describe_ok all_readable
       {| Release.upx := true; Release.i := None |} ∅ fresh).2 =
    Release.archives fresh ∧
  ((Release.ProcError (Release.CalledProcessError 1) = Release.IndexError ∧
    Release.calls
      (Release.go_build config_fails describe_ok all_readable
         {| Release.upx := true; Release.i := None |} ∅ fresh).2 =
      Release.calls fresh) ∨
   (Release.ProcError (Release.CalledProcessError 1) =
      Release.ProcError Release.OSError ∧
    Release.calls
      (Release.go_build config_fails describe_ok all_readable
         {| Release.upx := true; Release.i := None |} ∅ fresh).2 =
      Release.calls fresh ++ [Release.git_describe]) ∨
   (∃ pe, Release.ProcError (Release.CalledProcessError 1) =
            Release.ProcError pe ∧
          Release.calls
            (Release.go_build config_fails describe_ok all_readable
               {| Release.upx := true; Release.i := None |} ∅ fresh).2 =
            Release.calls fresh ++
            [Release.git_describe; Release.gen_config])).
Proof.
  apply (go_build_raises_before_building unit config_fails describe_ok
           all_readable
           {| Release.upx := true; Release.i := None |} ∅ fresh).
  reflexivity.
Defined.

(** X22. Once [git describe] has not failed outside its exit status and
    the config template is generated, [go_build] returns normally
    whatever the builds end with, and has announced every selected
    target. *)
Theorem go_build_attempts_every_target (shell : Type)
    (check_call :
       string → gmap string string → shell → option Release.proc_error * shell)
    (check_output : string → shell → (string + Release.proc_error) * shell)
    (readable : string → shell → bool)
    (a : Release.args) (environ : gmap string string)
    (targets : list (list (string * string))) (s : Release.state shell) :
  Release.selected_envs a Release.envs = Release.Done targets →
  (∀ sh, (check_output Release.git_describe sh).1 ≠ inr Release.OSError) →
  (∀ sh, (check_call Release.gen_config environ sh).1 = None) →
  ∃ s', Release.go_build check_call check_output readable a environ s =
          (Release.Done tt, s') ∧
        ∀ env, env ∈ targets →
          Release.Info ("building " +:+ Release.zip_filename_of env)
            ∈ Release.log s'.
Proof.
  intros Hsel Hgit Hgen. rewrite go_build_unfold, Hsel. cbv zeta.
  destruct (get_version_step shell check_output
              (Release.say (Release.Info ("building " +:+ Release.PROJECT_NAME))
                 s).2)
    as (s1 & ent1 & -> & _).
  specialize (Hgit (Release.sh
    (Release.say (Release.Info ("building " +:+ Release.PROJECT_NAME)) s).2)).
  assert (∀ VERSION,
            ∃ s', match Release.generate_config check_call environ s1 with
                  | (Release.Raised e, s2) => (Release.Raised e, s2)
                  | (Release.Done _, s2) =>
                      Release.build_targets check_call readable a VERSION environ
                        targets s2
                  end = (Release.Done tt, s') ∧
                  ∀ env, env ∈ targets →
                    Release.Info ("building " +:+ Release.zip_filename_of env)
                      ∈ Release.log s') as Hloop.
  { intros VERSION.
    destruct (generate_config_step shell check_call environ s1)
      as (s2 & ent2 & -> & _). rewrite Hgen.
    destruct (build_targets_done shell check_call readable a VERSION environ targets
                s2 (selected_envs_GOOS a targets environ Hsel))
      as (s3 & ent3 & -> & Hlog & Hin).
    exists s3. split; [reflexivity|]. intros env Henv.
    rewrite Hlog. apply elem_of_app. right. now apply Hin. }
  destruct (check_output Release.git_describe _).1 as [out|[c|]];
    [apply Hloop | apply Hloop | now destruct Hgit].
Qed.

Lemma go_build_attempts_every_target_witness :
  ∃ s', Release.go_build windows_fails describe_fails all_readable
          {| Release.upx := false; Release.i := Some 0 |} ∅ fresh =
          (Release.Done tt, s') ∧
        ∀ env, env ∈ Release.envs →
          Release.Info ("building " +:+ Release.zip_filename_of env)
            ∈ Release.log s'.
Proof.
  apply (go_build_attempts_every_target unit windows_fails describe_fails
           all_readable
           {| Release.upx := false; Release.i := Some 0 |} ∅ Release.envs
           fresh).
  - reflexivity.
  - intros sh. discriminate.
  - intros sh. reflexivity.
Defined.

(** X23. Without [-upx] the commands of a run that gets to the loop are
    [git describe], the config generation and then one [go build] per
    selected target, in the table's order, each with the version read
    from git ([dev/unknown] when [git describe] exits non-zero) and the
    binary name of the target's [GOOS]. *)
Theorem go_build_commands_without_upx (shell : Type)
    (check_call :
       string → gmap string string → shell → option Release.proc_error * shell)
    (check_output : string → shell → (string + Release.proc_error) * shell)
    (readable : string → shell → bool)
    (a : Release.args) (environ : gmap string string)
    (targets : list (list (string * string))) (s : Release.state shell) :
  Release.upx a = false →
  Release.selected_envs a Release.envs = Release.Done targets →
  (check_output Release.git_describe (Release.sh s)).1 ≠ inr Release.OSError →
  (check_call Release.gen_config environ
     (check_output Release.git_describe (Release.sh s)).2).1 = None →
  ∃ cmds,
    Release.calls
      (Release.go_build check_call check_output readable a environ s).2 =
      Release.calls s ++ [Release.git_describe; Release.gen_config] ++ cmds ∧
    Forall2
      (Release.build_of
         (Release.version_of
            (check_output Release.git_describe (Release.sh s)).1) environ)
      targets cmds.
Proof.
  intros Hupx Hsel Hgit Hgen. rewrite go_build_unfold, Hsel. cbv zeta.
  destruct (get_version_step shell check_output
              (Release.say (Release.Info ("building " +:+ Release.PROJECT_NAME))
                 s).2)
    as (s1 & ent1 & -> & _ & Hc1 & _ & Hsh1).
  simpl in Hc1, Hsh1, Hgit |- *.
  assert (∀ VERSION,
            ∃ cmds,
              Release.calls
                (match Release.generate_config check_call environ s1 with
                 | (Release.Raised e, s2) => (Release.Raised e, s2)
                 | (Release.Done _, s2) =>
                     Release.build_targets check_call readable a VERSION environ
                       targets s2
                 end).2 =
                Release.calls s ++
                [Release.git_describe; Release.gen_config] ++ cmds ∧
              Forall2 (Release.build_of VERSION environ) targets cmds)
    as Hloop.
  { intros VERSION.
    destruct (generate_config_step shell check_call environ s1)
      as (s2 & ent2 & -> & _ & Hc2 & _). rewrite Hsh1, Hgen.
    destruct (build_targets_calls shell check_call readable a VERSION environ targets
                s2 Hupx (selected_envs_GOOS a targets environ Hsel))
      as (cmds & Hc3 & Hall).
    exists cmds. split; [|exact Hall].
    rewrite Hc3, Hc2, Hc1, <- !(assoc_L (++)). reflexivity. }
  destruct (check_output Release.git_describe (Release.sh s)).1
    as [out|[c|]]; [apply Hloop | apply Hloop | now destruct Hgit].
Qed.

Lemma go_build_commands_without_upx_witness :
  ∃ cmds,
    Release.calls
      (Release.go_build windows_fails describe_ok all_readable
         {| Release.upx := false; Release.i := Some (-1) |} ∅ fresh).2 =
      Release.calls fresh ++
      [Release.git_describe; Release.gen_config] ++ cmds ∧
    Forall2
      (Release.build_of
         (Release.version_of
            (describe_ok Release.git_describe (Release.sh fresh)).1) ∅)
      [windows_amd64] cmds.
Proof.
  apply (go_build_commands_without_upx unit windows_fails describe_ok
           all_readable
           {| Release.upx := false; Release.i := Some (-1) |} ∅
           [windows_amd64] fresh).
  - reflexivity.
  - reflexivity.
  - discriminate.
  - reflexivity.
Defined.

(** X24. A selected target whose [go build] succeeds, and whose members
    can all be read, has its archive afterwards, with the binary,
    README.md, config.yaml and LICENSE (and service_control.bat for
    windows), also when [upx] was asked for and exited non-zero. *)
Theorem go_build_packs_successful_build (shell : Type)
    (check_call :
       string → gmap string string → shell → option Release.proc_error * shell)
    (check_output : string → shell → (string + Release.proc_error) * shell)
    (readable : string → shell → bool)
    (a : Release.args) (environ : gmap string string)
    (targets : list (list (string * string))) (env : list (string * string))
    (goos : string) (s : Release.state shell) :
  Release.selected_envs a Release.envs = Release.Done targets →
  env ∈ targets →
  Release.os_env_of environ env !! "GOOS" = Some goos →
  (∀ sh, (check_output Release.git_describe sh).1 ≠ inr Release.OSError) →
  (∀ sh, (check_call Release.gen_config environ sh).1 = None) →
  (∀ VERSION sh,
     (check_call (Release.go_build_cmd VERSION (Release.bin_filename_of goos))
        (Release.os_env_of environ env) sh).1 = None) →
  (Release.upx a = false ∨
   ∀ sh, (check_call (Release.upx_cmd (Release.bin_filename_of goos))
            environ sh).1 ≠ Some Release.OSError) →
  (∀ path sh,
     path ∈ map fst (Release.members goos (Release.bin_filename_of goos)) →
     readable path sh = true) →
  Release.archives
    (Release.go_build check_call check_output readable a environ s).2
    !! Release.zip_filename_of env =
  Some (map snd (Release.members goos (Release.bin_filename_of goos))).
Proof.
  intros Hsel Hin HG Hgit Hgen Hbuild Hupx Hread.
  rewrite <- written_all.
  rewrite go_build_unfold, Hsel. cbv zeta.
  destruct (get_version_step shell check_output
              (Release.say (Release.Info ("building " +:+ Release.PROJECT_NAME))
                 s).2)
    as (s1 & ent1 & -> & _).
  specialize (Hgit (Release.sh
    (Release.say (Release.Info ("building " +:+ Release.PROJECT_NAME)) s).2)).
  assert (∀ VERSION,
            Release.archives
              (match Release.generate_config check_call environ s1 with
               | (Release.Raised e, s2) => (Release.Raised e, s2)
               | (Release.Done _, s2) =>
                   Release.build_targets check_call readable a VERSION
                     environ targets s2
               end).2 !! Release.zip_filename_of env =
            Some (Release.written (λ _, true)
                    (Release.members goos (Release.bin_filename_of goos))))
    as Hloop.
  { intros VERSION.
    destruct (generate_config_step shell check_call environ s1)
      as (s2 & ent2 & -> & _). rewrite Hgen.
    apply build_targets_packed;
      eauto using selected_envs_NoDup, selected_envs_GOOS. }
  destruct (check_output Release.git_describe _).1 as [out|[c|]];
    [apply Hloop | apply Hloop | now destruct Hgit].
Qed.

Lemma go_build_packs_successful_build_witness :
  Release.archives
    (Release.go_build windows_fails describe_ok all_readable
       {| Release.upx := true; Release.i := None |} ∅ fresh).2
    !! Release.zip_filename_of linux_amd64 =
  Some (map snd (Release.members "linux" (Release.bin_filename_of "linux"))).
Proof.
  apply (go_build_packs_successful_build unit windows_fails describe_ok
           all_readable {| Release.upx := true; Release.i := None |} ∅
           Release.envs linux_amd64 "linux" fresh).
  - reflexivity.
  - unfold Release.envs, linux_amd64. rewrite !elem_of_cons. tauto.
  - reflexivity.
  - intros sh. discriminate.
  - intros sh. reflexivity.
  - intros VERSION sh. reflexivity.
  - right. intros sh. discriminate.
  - intros path sh _. reflexivity.
Defined.

(** X25. A selected target whose [go build] fails gets no archive: the
    entry of its archive name is what it was before the run, whatever
    the other targets do. *)
Theorem go_build_skips_failed_build (shell : Type)
    (check_call :
       string → gmap string string → shell → option Release.proc_error * shell)
    (check_output : string → shell → (string + Release.proc_error) * shell)
    (readable : string → shell → bool)
    (a : Release.args) (environ : gmap string string)
    (targets : list (list (string * string))) (env : list (string * string))
    (goos : string) (s : Release.state shell) :
  Release.selected_envs a Release.envs = Release.Done targets →
  env ∈ targets →
  Release.os_env_of environ env !! "GOOS" = Some goos →
  (∀ VERSION sh,
     (check_call (Release.go_build_cmd VERSION (Release.bin_filename_of goos))
        (Release.os_env_of environ env) sh).1 ≠ None) →
  Release.archives (Release.go_build check_call check_output readable a environ s).2
    !! Release.zip_filename_of env =
  Release.archives s !! Release.zip_filename_of env.
Proof.
  intros Hsel Hin HG Hbuild.
  rewrite go_build_unfold, Hsel. cbv zeta.
  destruct (get_version_step shell check_output
              (Release.say (Release.Info ("building " +:+ Release.PROJECT_NAME))
                 s).2)
    as (s1 & ent1 & -> & _ & _ & Ha1 & _).
  simpl in Ha1.
  assert (∀ VERSION,
            Release.archives
              (match Release.generate_config check_call environ s1 with
               | (Release.Raised e, s2) => (Release.Raised e, s2)
               | (Release.Done _, s2) =>
                   Release.build_targets check_call readable a VERSION environ
                     targets s2
               end).2 !! Release.zip_filename_of env =
            Release.archives s !! Release.zip_filename_of env) as Hloop.
  { intros VERSION.
    destruct (generate_config_step shell check_call environ s1)
      as (s2 & ent2 & -> & _ & _ & Ha2 & _).
    destruct (check_call Release.gen_config environ (Release.sh s1)).1;
      [simpl; congruence|].
    rewrite (build_targets_not_packed shell check_call readable a VERSION environ
               targets env goos s2);
      eauto using selected_envs_NoDup. congruence. }
  destruct (check_output Release.git_describe _).1 as [out|[c|]];
    [apply Hloop | apply Hloop | simpl; congruence].
Qed.

Lemma go_build_skips_failed_build_witness :
  Release.archives
    (Release.go_build windows_fails describe_ok all_readable
       {| Release.upx := true; Release.i := None |} ∅ fresh).2
    !! Release.zip_filename_of windows_amd64 =
  Release.archives fresh !! Release.zip_filename_of windows_amd64.
Proof.
  apply (go_build_skips_failed_build unit windows_fails describe_ok
           all_readable
           {| Release.upx := true; Release.i := None |} ∅ Release.envs
           windows_amd64 "windows" fresh).
  - reflexivity.
  - unfold Release.envs, windows_amd64. rewrite !elem_of_cons. tauto.
  - reflexivity.
  - intros VERSION sh. discriminate.
Defined.

(** X26. A member that cannot be read ends the archive of its target:
    when the [go build] of a selected target succeeds and [ok] tells
    which of its members can be read, the archive is left with the
    names of the members before the first that cannot, and the run
    goes on. *)
Theorem go_build_archive_up_to_unreadable (shell : Type)
    (check_call :
       string → gmap string string → shell → option Release.proc_error * shell)
    (check_output : string → shell → (string + Release.proc_error) * shell)
    (readable : string → shell → bool)
    (a : Release.args) (environ : gmap string string)
    (targets : list (list (string * string))) (env : list (string * string))
    (goos : string) (ok : string → bool) (s : Release.state shell) :
  Release.selected_envs a Release.envs = Release.Done targets →
  env ∈ targets →
  Release.os_env_of environ env !! "GOOS" = Some goos →
  (∀ sh, (check_output Release.git_describe sh).1 ≠ inr Release.OSError) →
  (∀ sh, (check_call Release.gen_config environ sh).1 = None) →
  (∀ VERSION sh,
     (check_call (Release.go_build_cmd VERSION (Release.bin_filename_of goos))
        (Release.os_env_of environ env) sh).1 = None) →
  (Release.upx a = false ∨
   ∀ sh, (check_call (Release.upx_cmd (Release.bin_filename_of goos))
            environ sh).1 ≠ Some Release.OSError) →
  (∀ path sh,
     path ∈ map fst (Release.members goos (Release.bin_filename_of goos)) →
     readable path sh = ok path) →
  (Release.go_build check_call check_output readable a environ s).1 =
    Release.Done tt ∧
  Release.archives
    (Release.go_build check_call check_output readable a environ s).2
    !! Release.zip_filename_of env =
  Some (Release.written ok
          (Release.members goos (Release.bin_filename_of goos))).
Proof.
  intros Hsel Hin HG Hgit Hgen Hbuild Hupx Hread.
  rewrite go_build_unfold, Hsel. cbv zeta.
  destruct (get_version_step shell check_output
              (Release.say (Release.Info ("building " +:+ Release.PROJECT_NAME))
                 s).2)
    as (s1 & ent1 & -> & _).
  specialize (Hgit (Release.sh
    (Release.say (Release.Info ("building " +:+ Release.PROJECT_NAME)) s).2)).
  assert (∀ VERSION,
            (match Release.generate_config check_call environ s1 with
             | (Release.Raised e, s2) => (Release.Raised e, s2)
             | (Release.Done _, s2) =>
                 Release.build_targets check_call readable a VERSION
                   environ targets s2
             end).1 = Release.Done tt ∧
            Release.archives
              (match Release.generate_config check_call environ s1 with
               | (Release.Raised e, s2) => (Release.Raised e, s2)
               | (Release.Done _, s2) =>
                   Release.build_targets check_call readable a VERSION
                     environ targets s2
               end).2 !! Release.zip_filename_of env =
            Some (Release.written ok
                    (Release.members goos (Release.bin_filename_of goos))))
    as Hloop.
  { intros VERSION.
    destruct (generate_config_step shell check_call environ s1)
      as (s2 & ent2 & -> & _). rewrite Hgen. split.
    - destruct (build_targets_done shell check_call readable a VERSION
                  environ targets s2
                  (selected_envs_GOOS a targets environ Hsel))
        as (s3 & ent3 & -> & _). reflexivity.
    - apply build_targets_packed;
        eauto using selected_envs_NoDup, selected_envs_GOOS. }
  destruct (check_output Release.git_describe _).1 as [out|[c|]];
    [apply Hloop | apply Hloop | now destruct Hgit].
Qed.

Lemma go_build_archive_up_to_unreadable_witness :
  (Release.go_build all_succeed describe_ok no_readme
     {| Release.upx := false; Release.i := Some 2 |} ∅ fresh).1 =
    Release.Done tt ∧
  Release.archives
    (Release.go_build all_succeed describe_ok no_readme
       {| Release.upx := false; Release.i := Some 2 |} ∅ fresh).2
    !! Release.zip_filename_of linux_amd64 =
  Some (Release.written not_readme
          (Release.members "linux" (Release.bin_filename_of "linux"))).
Proof.
  apply (go_build_archive_up_to_unreadable unit all_succeed describe_ok
           no_readme {| Release.upx := false; Release.i := Some 2 |} ∅
           [linux_amd64] linux_amd64 "linux" not_readme fresh).
  - reflexivity.
  - apply list_elem_of_here.
  - reflexivity.
  - intros sh. discriminate.
  - intros sh. reflexivity.
  - intros VERSION sh. reflexivity.
  - left. reflexivity.
  - intros path sh _. reflexivity.
Defined.
